(** * Almacen_Viveres_App: the join layer, the date policy, the sortable
      table and the query bridge of [App.tsx] and [geminiService.ts]

    The development is a shallow embedding: every TypeScript function the
    properties speak about is written as a Rocq function with the same name
    and the same control flow, and the JavaScript built-ins the code calls
    ([String.prototype.split], [parseInt], [Array.prototype.sort], the [Date]
    constructor, ...) are written out in module [JS].

    Conventions of the embedding.
    - A JavaScript number is an integer of [Z]: the codes, amounts, days,
      months and years the code handles are integers. The numbers of
      JavaScript are doubles, on which the arithmetic of integers is exact
      up to [2^53] in absolute value; a property that adds amounts up says
      so and asks for sums within that bound. The text of a number beyond
      that bound is a parameter, [numberText].
    - A character of a [string] is one UTF-16 code unit below 256, that is a
      character of Latin-1: the ASCII characters and, among others, the
      accented letters of Spanish, written by their codes (the character
      ["193"] is the letter A with acute accent, ["241"] the letter n with
      tilde, ["160"] the no-break space; module [Examples] names some). A
      string literal of this file holds ASCII characters only: a literal
      with an accented letter in it would hold the two bytes of the UTF-8
      encoding of the letter, which are two other characters. On these
      strings [toLowerCase], the white space of [trim], [parseInt] and [\s],
      and the order [<] are those of the language; strings with characters
      from U+0100 on are outside the embedding.
    - [undefined] coming out of a [Map.get] is [None].
    - A row of a table is the finite map from the names of its properties to
      the values that [item[key]] finds.
    - An object that the code builds and uses as a table ([months],
      [spending]) is read as the language reads it: [o[k]] finds the own
      property [k] or else the property of that name that every object
      inherits ([constructor], [toString], [__proto__], ...), and an
      assignment to [o["__proto__"]] of a number or a string stores
      nothing.
    - [Array.prototype.sort] is written as one stable sort. The language
      fixes the order it gives when the comparator is consistent on the
      array; the properties below that speak of the order of sorted rows
      are stated for columns of one kind, on which it is. *)

From Stdlib Require Import ZArith Lia List Ascii String Sorted Permutation.
From stdpp Require Import base option list gmap strings sorting pretty.

Local Open Scope string_scope.
Local Open Scope Z_scope.

(* ===================================================================== *)
(** * JavaScript built-ins used by the application                        *)
(* ===================================================================== *)

Module JS.

(** The values a table cell can hold ([item[key]] in [App.tsx]). A nested
    object or array is [VObj], carrying the text [String] gives for it. *)
Inductive value : Type :=
  | VUndefined
  | VNull
  | VBool (b : bool)
  | VNum (n : Z)
  | VStr (s : string)
  | VObj (shown : string).

#[global] Instance value_eq_dec : EqDecision value.
Proof. solve_decision. Defined.

(** [typeof v], as far as the code looks at it. *)
Inductive jstype : Type := TUndefined | TObject | TBoolean | TNumber | TString.

Definition typeof (v : value) : jstype :=
  match v with
  | VUndefined => TUndefined
  | VNull => TObject
  | VBool _ => TBoolean
  | VNum _ => TNumber
  | VStr _ => TString
  | VObj _ => TObject
  end.

(** [v === null || v === undefined] *)
Definition isNullish (v : value) : bool :=
  match v with
  | VUndefined | VNull => true
  | _ => false
  end.

(** ** Characters and strings *)

(** The lower-case letter of a character: the letters A to Z, and the
    capital letters of Latin-1, U+00C0 to U+00DE without the multiplication
    sign U+00D7, have theirs 32 places further on. *)
Definition lowerChar (c : ascii) : ascii :=
  let n := nat_of_ascii c in
  if (((65 <=? n) && (n <=? 90)) ||
      ((192 <=? n) && (n <=? 222) && negb (n =? 215)))%nat
  then ascii_of_nat (n + 32) else c.

Fixpoint toLowerCase (s : string) : string :=
  match s with
  | EmptyString => EmptyString
  | String c s' => String (lowerChar c) (toLowerCase s')
  end.

(** White space of [trim], [parseInt] and the regular-expression class [\s]:
    the space, the characters U+0009 to U+000D and the no-break space. *)
Definition isSpace (c : ascii) : bool :=
  let n := nat_of_ascii c in
  ((n =? 32) || ((9 <=? n) && (n <=? 13)) || (n =? 160))%nat.

Definition isDigit (c : ascii) : bool :=
  let n := nat_of_ascii c in ((48 <=? n) && (n <=? 57))%nat.

(** The regular-expression class [\w], which holds ASCII characters only. *)
Definition isWord (c : ascii) : bool :=
  let n := nat_of_ascii c in
  (((48 <=? n) && (n <=? 57)) || ((65 <=? n) && (n <=? 90)) ||
   ((97 <=? n) && (n <=? 122)) || (n =? 95))%nat.

Fixpoint dropWhile (p : ascii -> bool) (s : string) : string :=
  match s with
  | EmptyString => EmptyString
  | String c s' => if p c then dropWhile p s' else s
  end.

Fixpoint takeWhile (p : ascii -> bool) (s : string) : string :=
  match s with
  | EmptyString => EmptyString
  | String c s' => if p c then String c (takeWhile p s') else EmptyString
  end.

Fixpoint allChars (p : ascii -> bool) (s : string) : bool :=
  match s with
  | EmptyString => true
  | String c s' => p c && allChars p s'
  end.

(** Removes the longest suffix whose characters all satisfy [p]. *)
Fixpoint dropWhileEnd (p : ascii -> bool) (s : string) : string :=
  match s with
  | EmptyString => EmptyString
  | String c s' => if allChars p s then EmptyString else String c (dropWhileEnd p s')
  end.

(** [s.trim()] *)
Definition trim (s : string) : string := dropWhileEnd isSpace (dropWhile isSpace s).

(** [s.startsWith(p)] *)
Fixpoint startsWith (p s : string) : bool :=
  match p, s with
  | EmptyString, _ => true
  | String a p', String b s' => if Ascii.eqb a b then startsWith p' s' else false
  | String _ _, EmptyString => false
  end.

(** [s.includes(t)] *)
Fixpoint includes (s t : string) : bool :=
  startsWith t s ||
  match s with
  | EmptyString => false
  | String _ s' => includes s' t
  end.

(** [acc] with the characters of [s] put in front of it, last one first. *)
Fixpoint revString (acc s : string) : string :=
  match s with
  | EmptyString => acc
  | String c s' => revString (String c acc) s'
  end.

(** [s.split(sep)] for a non-empty separator: the string is cut at every
    occurrence of [sep], scanning from the left, occurrences not overlapping.
    [skip] counts the characters of a separator still to be passed over and
    [cur] holds the current piece, last character first. *)
Fixpoint split_go (sep : string) (skip : nat) (cur : string) (s : string) : list string :=
  match s with
  | EmptyString => [revString EmptyString cur]
  | String c s' =>
      match skip with
      | S k => split_go sep k cur s'
      | O =>
          if startsWith sep s
          then revString EmptyString cur :: split_go sep (String.length sep - 1) EmptyString s'
          else split_go sep O (String c cur) s'
      end
  end.

Definition split (sep s : string) : list string := split_go sep O EmptyString s.

(** ** [parseInt(s, 10)]

    Leading white space is skipped, one sign is accepted, then the longest
    run of decimal digits is read; [None] is [NaN] (no digit). *)
Definition digitVal (c : ascii) : Z := Z.of_nat (nat_of_ascii c) - 48.

Fixpoint digitsVal (acc : Z) (s : string) : Z :=
  match s with
  | EmptyString => acc
  | String c s' => if isDigit c then digitsVal (10 * acc + digitVal c) s' else acc
  end.

Definition parseDigits (s : string) : option Z :=
  match s with
  | String c _ => if isDigit c then Some (digitsVal 0 s) else None
  | EmptyString => None
  end.

Definition parseInt (s : string) : option Z :=
  match dropWhile isSpace s with
  | String "-" s' => Z.opp <$> parseDigits s'
  | String "+" s' => parseDigits s'
  | s' => parseDigits s'
  end.

(** ** [Array.prototype.sort(cmp)]

    The sort is stable, as the language requires. It is written as an
    insertion sort in which an element overtakes an earlier one only when the
    comparator, called on (later, earlier), answers a negative number. For a
    comparator that is consistent on the array the language fixes the
    sorted list (the elements in order, ties in the order of the input), and
    this list is the one below (lemma [Array_sort_determined]), so it is the
    list of every engine. For a comparator that is not, the language leaves
    the order to the engine, and the list below is one of the orders an
    engine may give; no property is drawn from the order in that case. *)
Section Sort.
Context {A : Type} (cmp : A -> A -> Z).

Fixpoint sort_insert (x : A) (l : list A) : list A :=
  match l with
  | [] => [x]
  | y :: l' => if cmp y x <? 0 then y :: sort_insert x l' else x :: l
  end.

Definition Array_sort (l : list A) : list A := foldr sort_insert [] l.

End Sort.

(** ** [new Map(entries)] and [Map.prototype.get]

    The entries are inserted from the first to the last, so a later entry
    replaces an earlier one with the same key. *)
Definition Map_new `{Countable K} {V : Type} (entries : list (K * V)) : gmap K V :=
  foldl (fun m kv => <[kv.1 := kv.2]> m) ∅ entries.

(** ** Rows

    A table row is given by what [item[key]] finds in it; a key that finds
    nothing gives [undefined]. *)
Definition prop (item : gmap string value) (key : string) : value :=
  default VUndefined (item !! key).

(** The largest integer up to which every integer is a number of
    JavaScript. *)
Definition maxSafe : Z := 9007199254740992.

(** [String(n)] for a number: the decimal writing of an integer within the
    safe range; beyond it the shortest digits that give the number back, in
    exponent writing from 1e21 on, which [numberText] stands for. *)
Definition Number_toString (numberText : Z -> string) (n : Z) : string :=
  if Z.abs n <=? maxSafe then pretty n else numberText n.

(** [String(v)] *)
Definition String_ (numberText : Z -> string) (v : value) : string :=
  match v with
  | VUndefined => "undefined"
  | VNull => "null"
  | VBool true => "true"
  | VBool false => "false"
  | VNum n => Number_toString numberText n
  | VStr s => s
  | VObj shown => shown
  end.

(** ** Objects built by the code and used as tables

    The names of the properties of [Object.prototype], which every object
    inherits: its functions and the accessor [__proto__]. *)
Definition inheritedNames : list string :=
  ["constructor"; "__defineGetter__"; "__defineSetter__"; "hasOwnProperty";
   "__lookupGetter__"; "__lookupSetter__"; "isPrototypeOf";
   "propertyIsEnumerable"; "toString"; "valueOf"; "__proto__"; "toLocaleString"].

Definition isInherited (k : string) : bool := existsb (String.eqb k) inheritedNames.

(** What [o[k]] finds: an own property, an inherited one (a function, or
    the prototype itself for [__proto__]), or nothing ([undefined]). *)
Inductive found (V : Type) : Type :=
  | Own (v : V)
  | Inherited
  | Missing.

Arguments Own {V} v.
Arguments Inherited {V}.
Arguments Missing {V}.

(** [o[k]], given the own property [k] of [o], if there is one. *)
Definition lookup_in {V : Type} (own : option V) (k : string) : found V :=
  match own with
  | Some v => Own v
  | None => if isInherited k then Inherited else Missing
  end.

(** The own properties of an object in creation order. *)
Fixpoint dict_get {V : Type} (d : list (string * V)) (k : string) : option V :=
  match d with
  | [] => None
  | (k', v) :: d' => if String.eqb k' k then Some v else dict_get d' k
  end.

Fixpoint dict_set {V : Type} (d : list (string * V)) (k : string) (v : V)
    : list (string * V) :=
  match d with
  | [] => [(k, v)]
  | (k', v') :: d' => if String.eqb k' k then (k', v) :: d' else (k', v') :: dict_set d' k v
  end.

(** [d[k]] *)
Definition dict_at {V : Type} (d : list (string * V)) (k : string) : found V :=
  lookup_in (dict_get d k) k.

(** [d[k] = v] for a value that is no object: the assignment to [__proto__]
    calls the setter of [Object.prototype], which ignores such a value; any
    other name becomes, or stays, an own property. *)
Definition dict_assign {V : Type} (d : list (string * V)) (k : string) (v : V)
    : list (string * V) :=
  if String.eqb k "__proto__" then d else dict_set d k v.

(** A value of the dictionary [spending]: a number, or the text that [+]
    makes once an operand is no number. *)
Inductive cell : Type :=
  | Num (n : Z)
  | Text (s : string).

(** The text [String] gives for the inherited property [k]: for [__proto__],
    which is the prototype, the text of a plain object; for a function its
    source text, which the engine chooses ([functionText]). *)
Definition inheritedText (functionText : string -> string) (k : string) : string :=
  if String.eqb k "__proto__" then "[object Object]" else functionText k.

(** [(d[k] || 0) + n] for a number [n]: [0] and the empty text are falsy;
    a text or an object on the left makes [+] join texts. *)
Definition orZeroPlus (numberText : Z -> string) (functionText : string -> string)
    (k : string) (x : found cell) (n : Z) : cell :=
  match x with
  | Own (Num m) => Num (m + n)
  | Own (Text s) =>
      if String.eqb s EmptyString then Num (0 + n)
      else Text (s ++ Number_toString numberText n)
  | Inherited => Text (inheritedText functionText k ++ Number_toString numberText n)
  | Missing => Num (0 + n)
  end.

(** [b - a] as the comparator of a sort: the difference of two numbers; a
    text that begins with the text of an object is no number, the
    difference is [NaN], and [sort] takes [NaN] for [0]. *)
Definition minus (b a : cell) : Z :=
  match b, a with
  | Num y, Num x => y - x
  | _, _ => 0
  end.

(** A key is an array index when it is the canonical decimal writing of an
    integer below [2^32 - 1]. *)
Definition arrayIndex (k : string) : option Z :=
  match k with
  | EmptyString => None
  | String c rest =>
      if allChars isDigit k && (negb (Ascii.eqb c "0") || String.eqb rest "")
      then let n := digitsVal 0 k in if n <? 4294967295 then Some n else None
      else None
  end.

Definition isArrayIndex {V : Type} (e : string * V) : bool :=
  match arrayIndex e.1 with Some _ => true | None => false end.

Definition compareIndex {V : Type} (a b : string * V) : Z :=
  default 0 (arrayIndex a.1) - default 0 (arrayIndex b.1).

(** [Object.entries(d)]: the array-index keys in ascending numeric order,
    then the other keys in creation order. *)
Definition Object_entries {V : Type} (d : list (string * V)) : list (string * V) :=
  (Array_sort compareIndex (List.filter isArrayIndex d) ++
   List.filter (fun e => negb (isArrayIndex e)) d)%list.

(** ** Dates

    A [Date] holds a time value, the milliseconds since the epoch, or [NaN]
    (an invalid date), which is [None]. The functions below are the abstract
    operations of the language standard. The local time zone enters through
    [UTC], which converts a local time to universal time, and the
    implementation-defined parsing of [new Date(string)] through
    [Date_parse]; both are parameters. The standard lets [MakeDay] answer
    [NaN] for arguments out of range; the range taken here is the one of V8,
    years up to a million and months up to ten million either side, within
    which the arithmetic of the engines is exact. *)
Definition Date : Type := option Z.

Definition msPerDay : Z := 86400000.

Definition isLeapYear (y : Z) : bool :=
  ((y mod 4 =? 0) && negb (y mod 100 =? 0)) || (y mod 400 =? 0).

Definition DayFromYear (y : Z) : Z :=
  365 * (y - 1970) + (y - 1969) / 4 - (y - 1901) / 100 + (y - 1601) / 400.

(** Days of the year before the first day of month [m], [0 <= m < 12]. *)
Definition daysBeforeMonth (leap : bool) (m : Z) : Z :=
  let l := if leap then 1 else 0 in
  match m with
  | 0 => 0
  | 1 => 31
  | 2 => 59 + l
  | 3 => 90 + l
  | 4 => 120 + l
  | 5 => 151 + l
  | 6 => 181 + l
  | 7 => 212 + l
  | 8 => 243 + l
  | 9 => 273 + l
  | 10 => 304 + l
  | _ => 334 + l
  end.

Definition withinReach (year month : Z) : bool :=
  (Z.abs year <=? 1000000) && (Z.abs month <=? 10000000).

Definition MakeDay (year month date : Z) : option Z :=
  if withinReach year month
  then
    let ym := year + month / 12 in
    let mn := month mod 12 in
    Some (DayFromYear ym + daysBeforeMonth (isLeapYear ym) mn + date - 1)
  else None.

Definition MakeTime (hour min sec ms : Z) : Z :=
  hour * 3600000 + min * 60000 + sec * 1000 + ms.

Definition MakeDate (day : option Z) (time : Z) : option Z :=
  (fun d => d * msPerDay + time) <$> day.

Definition maxTime : Z := 8640000000000000.

Definition TimeClip (t : Z) : Date :=
  if Z.abs t <=? maxTime then Some t else None.

(** The date whose time value is [NaN]. *)
Definition invalidDate : Date := None.

(** [!isNaN(d.getTime())] *)
Definition isValid (d : Date) : bool :=
  match d with Some _ => true | None => false end.

(** A year from 0 to 99 given to the constructor stands for 1900 + year. *)
Definition fullYear (year : Z) : Z :=
  if (0 <=? year) && (year <=? 99) then 1900 + year else year.

Section Dates.
Context (UTC : Z -> Z).

(** [new Date(year, month, day)], all three being numbers. *)
Definition Date_new (year month day : Z) : Date :=
  match MakeDate (MakeDay (fullYear year) month day) (MakeTime 0 0 0 0) with
  | Some t => TimeClip (UTC t)
  | None => invalidDate
  end.

End Dates.

End JS.

(* ===================================================================== *)
(** * [types.ts]                                                          *)
(* ===================================================================== *)

Module Types.
Import JS.

Record Adjudicado : Type := {
  id_adjudicado : Z;
  contrato_fk : string;
  codigo_fk : Z;
  cantidad_minima : Z;
  cantidad_maxima : Z;
  cantidad_consumida : Z;
  cantidad_disponible : Z;
  estatus_cantidad : string;
  precio_unitario : Z;
  iva : Z;
  ieps : Z;
  importe_maximo : Z
}.

(** [precio_medio] is [number | string], hence a [value]. *)
Record Articulo : Type := {
  codigo : Z;
  descripcion_articulo : string;
  unidad_medida : string;
  partida_especifica : Z;
  precio_medio : value;
  ultima_fecha : string;
  estatus : option string;
  imagen_producto : option string
}.

Record Contrato : Type := {
  id_contrato : Z;
  licitacion_fk : string;
  contrato : string;
  proveedor_fk : string;
  monto_maximo : Z;
  inicio_vigencia : string;
  fin_vigencia : string
}.

Record Proveedor : Type := {
  id_proveedor : Z;
  proveedor : string;
  domicilio : string;
  ciudad : string;
  correo_electronico : option string;
  telefono : option string;
  giro_comercial : string;
  logotipo_imagen : string
}.

Record Usuario : Type := {
  rud : Z;
  nombre : string;
  contrasena : Z;
  usuario_correo_electronico : option string; (* [correo_electronico] *)
  rol : string
}.

(** The tables of [allData] that [App.tsx] reads. *)
Record AllData : Type := {
  articulos : list Articulo;
  proveedores : list Proveedor;
  contratos : list Contrato;
  adjudicados : list Adjudicado;
  usuarios : list Usuario
}.

End Types.

(* ===================================================================== *)
(** * [geminiService.ts]                                                  *)
(* ===================================================================== *)

Module GeminiService.
Import JS.

(** What one call of [ai.models.generateContent] comes to: the promise is
    rejected with an error, or fulfilled with a response whose [text] may be
    missing. *)
Inductive outcome : Type :=
  | Rejected (message : string)
  | Fulfilled (text : option string).

(** The world the bridge runs in: the service, as the outcome it gives to its
    n-th call for the contents sent, the number of calls made so far, and the
    console. *)
Record World : Type := {
  service : nat -> string -> outcome;
  calls : nat;
  console : list string
}.

Definition generateContent (contents : string) (w : World) : outcome * World :=
  (service w (calls w) contents,
   {| service := service w; calls := S (calls w); console := console w |}).

Definition console_error (line : string) (w : World) : World :=
  {| service := service w; calls := calls w; console := console w ++ [line] |}.

(** The match of [fenceRegex] on [s], as its groups 1 and 2. The pattern,
    anchored at both ends, reads: three backquotes, an optional group of word
    characters (group 1), white space, an optional newline, a lazy group of
    any characters (group 2), an optional newline, white space, three
    backquotes. So the text has to open and to close with three backquotes
    that do not overlap; the greedy group 1 and the white space after it take
    the longest run of word characters and then of white space; the lazy
    group 2 stops at the first place from which only white space and the
    closing fence remain. *)
Definition fenceMatch (s : string) : option (string * string) :=
  match s with
  | String "`" (String "`" (String "`" rest)) =>
      match revString EmptyString rest with
      | String "`" (String "`" (String "`" rmid)) =>
          let mid := revString EmptyString rmid in
          Some (takeWhile isWord mid,
                dropWhileEnd isSpace (dropWhile isSpace (dropWhile isWord mid)))
      | _ => None
      end
  | _ => None
  end.

(** The lines between [response.text.trim()] and [JSON.parse]. *)
Definition stripFence (text : string) : string :=
  let jsonStr := trim text in
  match fenceMatch jsonStr with
  | Some (_, g2) => if String.eqb g2 EmptyString then jsonStr else trim g2
  | None => jsonStr
  end.

Definition failureMessage : string :=
  "Failed to get a valid response from the AI. The AI may have returned a non-JSON response or an error occurred.".

Definition newline : string := String "010" EmptyString.

Definition quote : string := String "034" EmptyString.

(** The template [prompt]; [contextData] is the text that
    [JSON.stringify(contextData, null, 2)] gives. *)
Definition prompt (query contextData : string) : string :=
  (newline ++
   "    You are an expert data analyst for a government procurement system." ++ newline ++
   "    Your task is to answer user questions by querying the provided JSON data." ++ newline ++
   "    You MUST only return a valid JSON array of the results. Do not add any explanation or conversational text." ++ newline ++
   "    If the user asks for a summary or calculation, return a JSON object with the answer." ++ newline ++
   "    The data is in Spanish. The user queries will also be in Spanish." ++ newline ++
   newline ++
   "    Data:" ++ newline ++
   "    " ++ contextData ++ newline ++
   newline ++
   "    User Query: " ++ quote ++ query ++ quote ++ newline ++
   newline ++
   "    Result (JSON array or object only):" ++ newline ++
   "    ")%string.

Section Bridge.
Context {json : Type}.
(** [JSON.parse]: the parsed value, or the message of the [SyntaxError]. *)
Context (JSON_parse : string -> json + string).

(** The [try] block: the value, or the error that reaches [catch]. *)
Definition attempt (query contextData : string) (w : World) : (json + string) * World :=
  let (response, w1) := generateContent (prompt query contextData) w in
  match response with
  | Rejected message => (inr message, w1)
  | Fulfilled None => (inr "Cannot read properties of undefined (reading 'trim')", w1)
  | Fulfilled (Some text) => (JSON_parse (stripFence text), w1)
  end.

(** [queryDataWithGemini]: resolves to the parsed value ([inl]) or rejects
    with the message of the error thrown in [catch] ([inr]). *)
Definition queryDataWithGemini (query contextData : string) (w : World)
    : (json + string) * World :=
  let (r, w1) := attempt query contextData w in
  match r with
  | inl parsed => (inl parsed, w1)
  | inr error =>
      (inr failureMessage, console_error ("Error querying Gemini API: " ++ error) w1)
  end.

End Bridge.

End GeminiService.

(* ===================================================================== *)
(** * [App.tsx]                                                           *)
(* ===================================================================== *)

Module App.
Import JS Types.

(** ** [parseDate] *)

(** The own properties of the table [months]. *)
Definition months : gmap string Z :=
  list_to_map
    [("enero", 0); ("febrero", 1); ("marzo", 2); ("abril", 3); ("mayo", 4);
     ("junio", 5); ("julio", 6); ("agosto", 7); ("septiembre", 8);
     ("octubre", 9); ("noviembre", 10); ("diciembre", 11)].

(** [months[name]] *)
Definition months_at (name : string) : found Z := lookup_in (months !! name) name.

Section ParseDate.
Context (UTC : Z -> Z) (Date_parse : string -> Date).

(** The block for the format "dd de month de yyyy": the date it returns,
    or [None] when control falls through it. The test [month !== undefined]
    lets an inherited property through; it is no number, and the date built
    from it is invalid. *)
Definition byName (dateString : string) : option Date :=
  let parts := split " de " (toLowerCase dateString) in
  match parts with
  | [p0; p1; p2] =>
      match parseInt p0, months_at p1, parseInt p2 with
      | Some day, Own month, Some year => Some (Date_new UTC year month day)
      | Some day, Inherited, Some year => Some invalidDate
      | _, _, _ => None
      end
  | _ => None
  end.

(** The block for the format "dd/mm/yyyy", likewise. *)
Definition byNumber (dateString : string) : option Date :=
  let dateParts := split "/" dateString in
  match dateParts with
  | [p0; p1; p2] =>
      match parseInt p0, (fun m => m - 1) <$> parseInt p1, parseInt p2 with
      | Some day, Some month, Some year => Some (Date_new UTC year month day)
      | _, _, _ => None
      end
  | _ => None
  end.

Definition parseDate (dateString : string) : Date :=
  match byName dateString with
  | Some d => d
  | None =>
      match byNumber dateString with
      | Some d => d
      | None => Date_parse dateString
      end
  end.

End ParseDate.

(** ** [useData] *)

(** [{...adj, articulo}] *)
Record AdjudicadoConArticulo : Type := {
  adj : Adjudicado;
  articulo : option Articulo
}.

(** [{...con, proveedor, adjudicados}] *)
Record ContratoConProveedor : Type := {
  con : Contrato;
  proveedor : option Proveedor;
  adjudicados : list AdjudicadoConArticulo
}.

(** [{...allData, contratos, adjudicados}] *)
Record DataWithJoins : Type := {
  allData : AllData;
  contratosConProveedor : list ContratoConProveedor;
  adjudicadosConArticulo : list AdjudicadoConArticulo
}.

Definition useData (allData : AllData) : DataWithJoins :=
  let articulosMap := Map_new (map (fun a => (codigo a, a)) (articulos allData)) in
  let proveedoresMap :=
    Map_new (map (fun p => (Types.proveedor p, p)) (proveedores allData)) in
  let adjudicadosConArticulo :=
    map (fun adj => {| adj := adj; articulo := articulosMap !! codigo_fk adj |})
        (Types.adjudicados allData) in
  let contratosConProveedor :=
    map (fun con =>
           {| con := con;
              proveedor := proveedoresMap !! proveedor_fk con;
              adjudicados :=
                List.filter (fun a => String.eqb (contrato_fk (adj a)) (contrato con))
                            adjudicadosConArticulo |})
        (contratos allData) in
  {| allData := allData;
     contratosConProveedor := contratosConProveedor;
     adjudicadosConArticulo := adjudicadosConArticulo |}.

(** ** [useSortableData] *)

Inductive SortDirection : Type := asc | desc.

Record SortConfig : Type := {
  key : string;
  direction : SortDirection
}.

Definition isAsc (d : SortDirection) : bool :=
  match d with asc => true | desc => false end.

(** The comparator handed to [sortableItems.sort]. *)
Definition compareItems (sortConfig : SortConfig) (a b : gmap string value) : Z :=
  let aValue := prop a (key sortConfig) in
  let bValue := prop b (key sortConfig) in
  if isNullish aValue then 1
  else if isNullish bValue then -1
  else
    match aValue, bValue with
    | VStr sa, VStr sb =>
        if String.ltb (toLowerCase sa) (toLowerCase sb)
        then (if isAsc (direction sortConfig) then -1 else 1)
        else if String.ltb (toLowerCase sb) (toLowerCase sa)
        then (if isAsc (direction sortConfig) then 1 else -1)
        else 0
    | VNum na, VNum nb =>
        if na <? nb
        then (if isAsc (direction sortConfig) then -1 else 1)
        else if nb <? na
        then (if isAsc (direction sortConfig) then 1 else -1)
        else 0
    | _, _ => 0
    end.

Definition sortedItems (items : list (gmap string value))
    (sortConfig : option SortConfig) : list (gmap string value) :=
  match sortConfig with
  | Some c => Array_sort (compareItems c) items
  | None => items
  end.

(** [requestSort]: the new value of the [sortConfig] state. *)
Definition requestSort (sortConfig : option SortConfig) (k : string) : option SortConfig :=
  let direction :=
    match sortConfig with
    | Some c => if String.eqb (key c) k && isAsc (direction c) then desc else asc
    | None => asc
    end in
  Some {| key := k; direction := direction |}.

(** The [sortConfig] state after a run of header clicks, from the initial
    [null]. *)
Definition afterClicks (clicks : list string) : option SortConfig :=
  foldl requestSort None clicks.

(** ** [DataTable] *)

(** The rows that the search keeps; [numberText], here and below, is the
    parameter of [String]. *)
Definition filteredData (numberText : Z -> string)
    (sortedData : list (gmap string value))
    (searchTerm : string) (searchKeys : list string) : list (gmap string value) :=
  if String.eqb searchTerm EmptyString then sortedData
  else
    let lowercasedTerm := toLowerCase searchTerm in
    List.filter
      (fun item =>
         existsb
           (fun k =>
              let v := prop item k in
              negb (isNullish v) &&
              includes (toLowerCase (String_ numberText v)) lowercasedTerm)
           searchKeys)
      sortedData.

(** The rows [DataTable] shows for its props and its two pieces of state. *)
Definition DataTable (numberText : Z -> string)
    (data : list (gmap string value)) (searchKeys : list string)
    (sortConfig : option SortConfig) (searchTerm : string) : list (gmap string value) :=
  filteredData numberText (sortedItems data sortConfig) searchTerm searchKeys.

(** ** [SortableTableHeader] *)

Inductive Icon : Type := FaChevronUp | FaChevronDown.

(** The icon a header shows, [null] being [None]. *)
Definition directionIcon (sortConfig : option SortConfig) (sortKey : string)
    : option Icon :=
  let isSorted :=
    match sortConfig with
    | Some c => String.eqb (key c) sortKey
    | None => false
    end in
  if isSorted
  then match sortConfig with
       | Some c => Some (if isAsc (direction c) then FaChevronUp else FaChevronDown)
       | None => None
       end
  else None.

(** ** The table of [DataTable] *)

(** A column: [{ key, label, render? }]. *)
Record Column : Type := {
  col_key : string;
  label : string;
  render : option (gmap string value -> string)
}.

(** The header row: the label and the icon of each column. *)
Definition headerRow (columns : list Column) (sortConfig : option SortConfig)
    : list (string * option Icon) :=
  map (fun col => (label col, directionIcon sortConfig (col_key col))) columns.

(** [col.render ? col.render(item) : String(item[col.key] ?? '')] *)
Definition cellText (numberText : Z -> string) (col : Column)
    (item : gmap string value) : string :=
  match render col with
  | Some f => f item
  | None =>
      String_ numberText
        (if isNullish (prop item (col_key col)) then VStr EmptyString
         else prop item (col_key col))
  end.

(** The body of the table: the cells of each row shown. *)
Definition tableBody (numberText : Z -> string) (columns : list Column)
    (data : list (gmap string value))
    (searchKeys : list string) (sortConfig : option SortConfig) (searchTerm : string)
    : list (list string) :=
  map (fun item => map (fun col => cellText numberText col item) columns)
      (DataTable numberText data searchKeys sortConfig searchTerm).

(** ** [UsersView] *)

(** A user record as the table reads it: its own properties. *)
Definition usuarioItem (u : Usuario) : gmap string value :=
  <["rud" := VNum (rud u)]>
    (<["nombre" := VStr (nombre u)]>
       (<["contrasena" := VNum (contrasena u)]>
          (<["correo_electronico" :=
               match usuario_correo_electronico u with
               | Some s => VStr s
               | None => VNull
               end]>
             (<["rol" := VStr (rol u)]> ∅)))).

Definition usersColumns : list Column :=
  [{| col_key := "rud"; label := "RUD"; render := None |};
   {| col_key := "nombre"; label := "Nombre"; render := None |};
   {| col_key := "rol"; label := "Rol"; render := None |}].

Definition usersSearchKeys : list string := ["nombre"; "rol"; "rud"].

(** The body of the users table for the state of its [DataTable]. *)
Definition UsersView (numberText : Z -> string) (usuarios : list Usuario)
    (sortConfig : option SortConfig) (searchTerm : string) : list (list string) :=
  tableBody numberText usersColumns (map usuarioItem usuarios) usersSearchKeys
    sortConfig searchTerm.

(** ** [DashboardView] *)

Module DashboardView.

Definition totalMontoMaximo (contratos : list ContratoConProveedor) : Z :=
  foldl (fun sum c => sum + monto_maximo (con c)) 0 contratos.

Record StatusCounts : Type := {
  vigente : Z;
  expirado : Z
}.

Section ContractStatus.
Context (UTC : Z -> Z) (Date_parse : string -> Date).
(** [now] is the time value of [new Date()]. *)
Context (now : Z).

Definition countStatus (statusCounts : StatusCounts) (c : ContratoConProveedor)
    : StatusCounts :=
  let endDate := parseDate UTC Date_parse (fin_vigencia (con c)) in
  match endDate with
  | Some t =>
      if now <? t
      then {| vigente := vigente statusCounts + 1; expirado := expirado statusCounts |}
      else {| vigente := vigente statusCounts; expirado := expirado statusCounts + 1 |}
  | None => statusCounts
  end.

Definition contractStatusData (contratos : list ContratoConProveedor)
    : list (string * Z) :=
  let statusCounts := foldl countStatus {| vigente := 0; expirado := 0 |} contratos in
  [("Vigente", vigente statusCounts); ("Expirado", expirado statusCounts)].

End ContractStatus.

(** One bar of the chart: [{ name, value }]. *)
Record Bar : Type := {
  name : string;
  value : cell
}.

Section Spending.
(** The parameter of [String], and the source text the engine gives for an
    inherited function. *)
Context (numberText : Z -> string) (functionText : string -> string).

(** The body of the loop over the contracts. *)
Definition addSpending (spending : list (string * cell)) (c : ContratoConProveedor)
    : list (string * cell) :=
  match proveedor c with
  | Some p =>
      dict_assign spending (Types.proveedor p)
        (orZeroPlus numberText functionText (Types.proveedor p)
           (dict_at spending (Types.proveedor p)) (monto_maximo (con c)))
  | None =>
      dict_assign spending (proveedor_fk (con c))
        (orZeroPlus numberText functionText (proveedor_fk (con c))
           (dict_at spending (proveedor_fk (con c))) (monto_maximo (con c)))
  end.

Definition spendingBySupplierData (contratos : list ContratoConProveedor) : list Bar :=
  let spending := foldl addSpending [] contratos in
  take 10
    (Array_sort (fun a b => minus (value b) (value a))
       (map (fun e => {| name := e.1; value := e.2 |}) (Object_entries spending))).

End Spending.

End DashboardView.

(** ** [DataExplorerView] *)

Module DataExplorerView.
Import GeminiService.

(** The message of [handleQuery] for an error without one; its seventh
    letter is the o with acute accent. *)
Definition defaultMessage : string :=
  ("Ocurri" ++ String "243" " un error al procesar la solicitud.")%string.

Section Explorer.
Context {json : Type} (JSON_parse : string -> json + string).

Record State : Type := {
  query : string;
  isLoading : bool;
  result : option json;
  error : option string
}.

(** [handleQuery], from the click to the end of [finally]; [contextData] is
    the text of the bounded context built from the joined data. *)
Definition handleQuery (contextData : string) (st : State) (w : World) : State * World :=
  if String.eqb (trim (query st)) EmptyString then (st, w)
  else
    let (r, w1) := queryDataWithGemini JSON_parse (query st) contextData w in
    match r with
    | inl aiResult =>
        ({| query := query st; isLoading := false;
            result := Some aiResult; error := None |}, w1)
    | inr message =>
        ({| query := query st; isLoading := false; result := None;
            error := Some (if String.eqb message EmptyString
                           then defaultMessage
                           else message) |}, w1)
    end.

End Explorer.

(** The object [contextData] of [handleQuery], before it is serialised:
    [{...c, adjudicados: c.adjudicados.length, proveedor: undefined}] for a
    contract, and the first 100 rows of each table. *)
Record ContextContrato : Type := {
  ctx_con : Contrato;
  ctx_adjudicados : nat
}.

Record ContextData : Type := {
  ctx_articulos : list Articulo;
  ctx_contratos : list ContextContrato;
  ctx_proveedores : list Proveedor
}.

Definition contextData (data : DataWithJoins) : ContextData :=
  {| ctx_articulos := take 100 (articulos (allData data));
     ctx_contratos :=
       map (fun c => {| ctx_con := con c; ctx_adjudicados := length (adjudicados c) |})
           (take 100 (contratosConProveedor data));
     ctx_proveedores := take 100 (proveedores (allData data)) |}.

End DataExplorerView.

End App.

(* ===================================================================== *)
(** * The vocabulary of the properties                                    *)
(* ===================================================================== *)

Module Spec.
Import JS Types App.

(** ** Joins *)

(** [r] is the record of [table] that the key [k] resolves to: the record
    with that key (the last one, should several share it), or nothing when
    no record has it. *)
Definition resolves {A K : Type} (keyOf : A -> K) (table : list A) (k : K)
    (r : option A) : Prop :=
  match r with
  | Some a =>
      exists l1 l2, table = (l1 ++ a :: l2)%list /\ keyOf a = k /\
                    forall a', In a' l2 -> keyOf a' <> k
  | None => forall a, In a table -> keyOf a <> k
  end.

(** ** The date policy, in the words of the specification *)

Definition monthNames : list string :=
  ["enero"; "febrero"; "marzo"; "abril"; "mayo"; "junio"; "julio"; "agosto";
   "septiembre"; "octubre"; "noviembre"; "diciembre"].

(** [name] is the month of index [m], January being 0. *)
Definition isMonth (name : string) (m : Z) : Prop :=
  0 <= m /\ nth_error monthNames (Z.to_nat m) = Some name.

(** The string reads day, month name, year around the separator " de ". *)
Definition wordsShape (s : string) (day month year : Z) : Prop :=
  exists p0 p1 p2,
    split " de " (toLowerCase s) = [p0; p1; p2] /\
    parseInt p0 = Some day /\ isMonth p1 month /\ parseInt p2 = Some year.

(** The string reads day, month (from 1), year around the separator "/". *)
Definition slashShape (s : string) (day month year : Z) : Prop :=
  exists p0 p1 p2,
    split "/" s = [p0; p1; p2] /\
    parseInt p0 = Some day /\ parseInt p1 = Some month /\ parseInt p2 = Some year.

(** The string reads a number, a name that every object inherits, and a
    number around the separator " de ". *)
Definition inheritedShape (s : string) : Prop :=
  exists p0 p1 p2 day year,
    split " de " (toLowerCase s) = [p0; p1; p2] /\
    parseInt p0 = Some day /\ isInherited p1 = true /\ parseInt p2 = Some year.

(** The block for the month names lets the string through to the block for
    the format with slashes. *)
Definition nameBlockSkips (s : string) : Prop :=
  (forall d m y, ~ wordsShape s d m y) /\ ~ inheritedShape s.

Inductive parseDate_policy (UTC : Z -> Z) (Date_parse : string -> Date) (s : string)
    : Date -> Prop :=
  | policy_words day month year :
      wordsShape s day month year ->
      parseDate_policy UTC Date_parse s (Date_new UTC year month day)
  | policy_slashes day month year :
      (forall d m y, ~ wordsShape s d m y) ->
      slashShape s day month year ->
      parseDate_policy UTC Date_parse s (Date_new UTC year (month - 1) day)
  | policy_generic :
      (forall d m y, ~ wordsShape s d m y) ->
      (forall d m y, ~ slashShape s d m y) ->
      parseDate_policy UTC Date_parse s (Date_parse s).

(** ** Sorting *)

(** The sign a three-way comparison takes in a direction. *)
Definition directed (d : SortDirection) (c : comparison) : Z :=
  match c, d with
  | Eq, _ => 0
  | Lt, asc => -1
  | Lt, desc => 1
  | Gt, asc => 1
  | Gt, desc => -1
  end.

(** All the values at the key are strings, or all are numbers. *)
Definition allComparable (k : string) (items : list (gmap string value)) : bool :=
  forallb (fun r => match prop r k with VStr _ => true | _ => false end) items ||
  forallb (fun r => match prop r k with VNum _ => true | _ => false end) items.

(** Every pair of elements satisfies [r], the earlier element first. *)
Fixpoint pairwise {A : Type} (r : A -> A -> bool) (l : list A) : bool :=
  match l with
  | [] => true
  | x :: l' => forallb (r x) l' && pairwise r l'
  end.

(** The comparator tells the two rows apart at the key. *)
Definition differAt (k : string) (a b : gmap string value) : bool :=
  negb (compareItems {| key := k; direction := asc |} a b =? 0).

(** The order of the values at the key: strings by their lower-case
    writing, numbers by size; values of different kinds are not ordered. *)
Definition keyLt (k : string) (a b : gmap string value) : Prop :=
  match prop a k, prop b k with
  | VStr sa, VStr sb => String.compare (toLowerCase sa) (toLowerCase sb) = Lt
  | VNum na, VNum nb => na < nb
  | _, _ => False
  end.

(** ** Searching *)

(** [s] contains [t], letter case apart. *)
Definition containsCI (s t : string) : Prop :=
  exists pre post, toLowerCase s = (pre ++ toLowerCase t ++ post)%string.

(** Some search key of the row holds a value, neither [null] nor
    [undefined], whose text contains the term. *)
Definition rowMatches (numberText : Z -> string) (searchKeys : list string)
    (term : string) (item : gmap string value) : Prop :=
  exists k, In k searchKeys /\ isNullish (prop item k) = false /\
            containsCI (String_ numberText (prop item k)) term.

(** ** Fenced text *)

(** The text is not empty and neither begins nor ends with white space. *)
Definition bare (s : string) : bool :=
  match s, revString EmptyString s with
  | String a _, String b _ => negb (isSpace a) && negb (isSpace b)
  | _, _ => false
  end.

(** [body] between a fence that may carry a language tag and a closing
    fence, each on a line of its own. *)
Definition fenced (tag body : string) : string :=
  ("```" ++ tag ++ String "010" (body ++ String "010" "```"))%string.

(** ** Aggregates *)

(** The contract ends at a valid date strictly after [now]. *)
Definition endsAfter (UTC : Z -> Z) (Date_parse : string -> Date) (now : Z)
    (c : ContratoConProveedor) : Prop :=
  exists t, parseDate UTC Date_parse (fin_vigencia (con c)) = Some t /\ now < t.

(** The contract ends at a valid date not after [now]. *)
Definition endsByNow (UTC : Z -> Z) (Date_parse : string -> Date) (now : Z)
    (c : ContratoConProveedor) : Prop :=
  exists t, parseDate UTC Date_parse (fin_vigencia (con c)) = Some t /\ t <= now.

(** The number of elements of a list with a property. *)
Inductive counts {A : Type} (P : A -> Prop) : list A -> Z -> Prop :=
  | counts_nil : counts P [] 0
  | counts_yes x l n : P x -> counts P l n -> counts P (x :: l) (n + 1)
  | counts_no x l n : ~ P x -> counts P l n -> counts P (x :: l) n.

(** The name a contract is grouped under. *)
Definition groupKey (c : ContratoConProveedor) : string :=
  match proveedor c with
  | Some p => Types.proveedor p
  | None => proveedor_fk (con c)
  end.

Definition sumZ (l : list Z) : Z := foldr Z.add 0 l.

(** The sum of [monto_maximo] over the contracts of a group. *)
Definition groupTotal (contratos : list ContratoConProveedor) (k : string) : Z :=
  sumZ (map (fun c => monto_maximo (con c))
                  (List.filter (fun c => String.eqb (groupKey c) k) contratos)).

(** No contract is grouped under a name that every object inherits. *)
Definition plainNames (contratos : list ContratoConProveedor) : Prop :=
  Forall (fun c => isInherited (groupKey c) = false) contratos.

(** The amounts are within the range in which the additions of the code are
    exact: their absolute values add up to at most [2^53]. *)
Definition safeAmounts (contratos : list ContratoConProveedor) : Prop :=
  sumZ (map (fun c => Z.abs (monto_maximo (con c))) contratos) <= maxSafe.

(** The joined record of a contract whose supplier is not resolved. *)
Definition unresolved (C : Contrato) : ContratoConProveedor :=
  {| con := C; proveedor := None; adjudicados := [] |}.

End Spec.

(* ===================================================================== *)
(** * Sample data                                                         *)
(* ===================================================================== *)

Module Examples.
Import JS Types App.

(** A row with a number [id] and a value at the column [k]. *)
Definition row (id : Z) (v : value) : gmap string value :=
  <["id" := VNum id]> (<["k" := v]> ∅).

(** Two rows with the same number at [k]. *)
Definition tied : list (gmap string value) := [row 1 (VNum 5); row 2 (VNum 5)].

(** Three rows with different strings at [k]. *)
Definition letters : list (gmap string value) :=
  [row 1 (VStr "b"); row 2 (VStr "A"); row 3 (VStr "c")].

(** Two rows whose numbers at [k] go down. *)
Definition falling : list (gmap string value) := [row 1 (VNum 2); row 2 (VNum 1)].

(** Rows of every kind at [k]. *)
Definition mixed : list (gmap string value) :=
  [row 1 VNull; row 2 (VStr "Pera"); row 3 (VNum 7); row 4 VUndefined;
   row 5 (VStr "manzana"); row 6 (VBool true)].

Definition byK (d : SortDirection) : SortConfig := {| key := "k"; direction := d |}.

(** Letters of Spanish and the no-break space, by their codes, and the name
    of a city in capital and in small letters. *)
Definition A_acute : ascii := "193".

Definition a_acute : ascii := "225".

Definition O_acute : ascii := "211".

Definition o_acute : ascii := "243".

Definition N_tilde : ascii := "209".

Definition n_tilde : ascii := "241".

Definition nbsp : ascii := "160".

Definition LEON : string := String "L" (String "E" (String O_acute "N")).

Definition leon : string := String "l" (String "e" (String o_acute "n")).

(** The number 1e21, and a text for the numbers beyond the safe integers. *)
Definition sextillion : Z := 1000000000000000000000.

Definition sampleText (n : Z) : string := "1e+21".

(** The source text of the function [Object], for every inherited function. *)
Definition nativeText (k : string) : string := "function Object() { [native code] }".

(** The time zone of universal time, and a generic parser that accepts
    nothing. *)
Definition UTC0 (t : Z) : Z := t.

Definition noParse (s : string) : Date := None.

(** A supplier, two of its contracts with ceilings 100 and 200, as the
    tables hold them and as [useData] joins them, an article and an award of
    the first contract. *)
Definition P1 : Proveedor :=
  {| id_proveedor := 1; Types.proveedor := "P1"; domicilio := "Calle 1";
     ciudad := "Guadalajara"; correo_electronico := None; telefono := None;
     giro_comercial := "Abarrotes"; logotipo_imagen := "" |}.

Definition contract (id : Z) (code supplier : string) (amount : Z) (ends : string)
    : Contrato :=
  {| id_contrato := id; licitacion_fk := "L1"; contrato := code;
     proveedor_fk := supplier; monto_maximo := amount;
     inicio_vigencia := "01/01/2019"; fin_vigencia := ends |}.

Definition frijol : Articulo :=
  {| codigo := 7; descripcion_articulo := "Frijol"; unidad_medida := "kg";
     partida_especifica := 2210; precio_medio := VNum 30;
     ultima_fecha := "01/01/2020"; estatus := None; imagen_producto := None |}.

Definition award (id : Z) (code : string) (article : Z) : Adjudicado :=
  {| id_adjudicado := id; contrato_fk := code; codigo_fk := article;
     cantidad_minima := 1; cantidad_maxima := 10; cantidad_consumida := 0;
     cantidad_disponible := 10; estatus_cantidad := "ok"; precio_unitario := 30;
     iva := 0; ieps := 0; importe_maximo := 300 |}.

Definition tables : AllData :=
  {| articulos := [frijol];
     proveedores := [P1];
     contratos := [contract 1 "C1" "P1" 100 "01/01/2020";
                   contract 2 "C2" "P1" 200 "31 de diciembre de 2999";
                   contract 3 "C3" "P9" 50 "pronto"];
     Types.adjudicados := [award 1 "C1" 7; award 2 "C2" 8; award 3 "C1" 7];
     usuarios := [] |}.

Definition joined (c : Contrato) (p : option Proveedor) : ContratoConProveedor :=
  {| con := c; App.proveedor := p; App.adjudicados := [] |}.

Definition c100 : ContratoConProveedor :=
  joined (contract 1 "C1" "P1" 100 "01/01/2020") (Some P1).

Definition c200 : ContratoConProveedor :=
  joined (contract 2 "C2" "P1" 200 "01/01/2021") (Some P1).

(** A service that is down, a service that answers with a text that is not
    JSON, and a parser that accepts only the text "[1]". *)
Definition down : GeminiService.World :=
  {| GeminiService.service := fun _ _ => GeminiService.Rejected "Network down";
     GeminiService.calls := 0;
     GeminiService.console := [] |}.

Definition chatty : GeminiService.World :=
  {| GeminiService.service :=
       fun _ _ => GeminiService.Fulfilled (Some "Sure! Here it is");
     GeminiService.calls := 0;
     GeminiService.console := [] |}.

Definition parseOne (s : string) : nat + string :=
  if String.eqb s "[1]" then inl 1%nat else inr "Unexpected token".

(** Two users who differ in their passwords and mail addresses only. *)
Definition ana : Usuario :=
  {| rud := 7; nombre := "Ana"; contrasena := 1234;
     usuario_correo_electronico := Some "ana@example.org"; rol := "admin" |}.

Definition ana' : Usuario :=
  {| rud := 7; nombre := "Ana"; contrasena := 9999;
     usuario_correo_electronico := None; rol := "admin" |}.

Definition asking : DataExplorerView.State (json := nat) :=
  {| DataExplorerView.query := "cuantos contratos hay";
     DataExplorerView.isLoading := false;
     DataExplorerView.result := None;
     DataExplorerView.error := None |}.

End Examples.

(* ===================================================================== *)
(** * Facts about the built-ins                                           *)
(* ===================================================================== *)

Import JS Types App Spec.

Section SortFacts.
Context {A : Type} (cmp : A -> A -> Z).

(** An earlier element [e] and a later one [f] are in order when the
    comparator does not ask for [f] to overtake [e]. *)
Let inOrder (e f : A) : Prop := 0 <= cmp f e.

Lemma sort_insert_Permutation (x : A) (l : list A) :
  Permutation (sort_insert cmp x l) (x :: l).
Proof.
  induction l as [|y l IH]; simpl; [done|].
  destruct (cmp y x <? 0); [|done].
  rewrite IH. apply perm_swap.
Qed.

Lemma Array_sort_Permutation (l : list A) : Permutation (Array_sort cmp l) l.
Proof.
  induction l as [|x l IH]; simpl; [done|].
  rewrite sort_insert_Permutation. by constructor.
Qed.

Lemma Array_sort_length (l : list A) : length (Array_sort cmp l) = length l.
Proof. apply Permutation_length, Array_sort_Permutation. Qed.

Lemma sort_insert_HdRel (R : A -> A -> Prop) (a x : A) (l : list A) :
  R a x -> HdRel R a l -> HdRel R a (sort_insert cmp x l).
Proof.
  intros Hax Hl. destruct l as [|y l]; simpl; [by constructor|].
  inversion Hl; subst. destruct (cmp y x <? 0); by constructor.
Qed.

(** Inserting into a list in order keeps it in order, as soon as the
    comparator never answers "before" both ways round. *)
Lemma sort_insert_Sorted (x : A) (l : list A) :
  (forall a b, cmp a b < 0 -> 0 <= cmp b a) ->
  Sorted inOrder l -> Sorted inOrder (sort_insert cmp x l).
Proof.
  intros Hasym. induction 1 as [|y l Hl IH Hhd]; simpl.
  - repeat constructor.
  - destruct (cmp y x <? 0) eqn:E.
    + constructor; [done|]. apply sort_insert_HdRel; [|done].
      unfold inOrder. apply Hasym. lia.
    + constructor; [by constructor|]. constructor. unfold inOrder. lia.
Qed.

Lemma Array_sort_Sorted (l : list A) :
  (forall a b, cmp a b < 0 -> 0 <= cmp b a) ->
  Sorted inOrder (Array_sort cmp l).
Proof.
  intros Hasym. induction l as [|x l IH]; simpl; [constructor|].
  by apply sort_insert_Sorted.
Qed.

(** A list in order is left as it is. *)
Lemma Array_sort_fixed (l : list A) : Sorted inOrder l -> Array_sort cmp l = l.
Proof.
  induction 1 as [|x l Hl IH Hhd]; simpl; [done|].
  rewrite IH. destruct Hhd as [|y l' Hxy]; simpl; [done|].
  unfold inOrder in Hxy. destruct (cmp y x <? 0) eqn:E; [lia|done].
Qed.

Lemma Array_sort_idempotent (l : list A) :
  (forall a b, cmp a b < 0 -> 0 <= cmp b a) ->
  Array_sort cmp (Array_sort cmp l) = Array_sort cmp l.
Proof. intros Hasym. by apply Array_sort_fixed, Array_sort_Sorted. Qed.

Lemma sort_insert_last (x : A) (l : list A) :
  Forall (fun y => cmp y x < 0) l -> sort_insert cmp x l = (l ++ [x])%list.
Proof.
  induction 1 as [|y l Hy Hl IH]; simpl; [done|].
  destruct (cmp y x <? 0) eqn:E; [by rewrite IH|lia].
Qed.

(** A list every element of which has to overtake all the earlier ones
    comes out reversed. *)
Lemma Array_sort_reverses (l : list A) :
  StronglySorted (fun e f => cmp f e < 0) l -> Array_sort cmp l = rev l.
Proof.
  induction 1 as [|x l Hl IH Hx]; simpl; [done|].
  rewrite IH. apply sort_insert_last.
  rewrite List.Forall_forall in *. intros y Hy. apply Hx. by apply in_rev.
Qed.

End SortFacts.

(* ===================================================================== *)
(** * The join layer ([useData])                                          *)
(* ===================================================================== *)

Section JoinFacts.

Lemma Map_new_snoc `{Countable K} {V : Type} (entries : list (K * V)) (k : K) (v : V) :
  Map_new (entries ++ [(k, v)]) = <[k := v]> (Map_new entries).
Proof. unfold Map_new. by rewrite foldl_app. Qed.

(** A lookup in the map built from a table resolves the key in the table. *)
Lemma Map_new_resolves `{Countable K} {A : Type} (keyOf : A -> K) (table : list A) (k : K) :
  resolves keyOf table k (Map_new (map (fun a => (keyOf a, a)) table) !! k).
Proof.
  induction table as [|x table IH] using rev_ind.
  - unfold Map_new; simpl. rewrite lookup_empty. intros a [].
  - rewrite map_app. simpl map. rewrite Map_new_snoc.
    destruct (decide (keyOf x = k)) as [Hk|Hk].
    + subst k. rewrite lookup_insert_eq. exists table, []. split; [done|].
      split; [done|]. intros a' [].
    + rewrite lookup_insert_ne by done.
      destruct (Map_new (map (fun a => (keyOf a, a)) table) !! k) as [a|]; simpl in *.
      * destruct IH as (l1 & l2 & -> & Ha & Hl2). exists l1, (l2 ++ [x])%list.
        split; [by rewrite <- app_assoc|]. split; [done|].
        intros a' [Hin|[<-|[]]]%in_app_or; auto.
      * intros a [Hin|[<-|[]]]%in_app_or; auto.
Qed.

(** C1. For every input state, the join layer gives: for every award [A], in
    input order, a joined record that keeps the award and whose [articulo] is
    the article whose [codigo] is [A.codigo_fk], absent if there is none; and
    for every contract [C], in input order, a joined record that keeps the
    contract (so the raw key [proveedor_fk] stays on it, unchanged), whose
    [proveedor] is the supplier [S] with [S.proveedor = C.proveedor_fk],
    absent if there is none, and whose [adjudicados] are the joined awards
    with [contrato_fk = C.contrato], in input order. *)
Theorem useData_joins (d : AllData) :
  Forall2
    (fun A r => adj r = A /\
                resolves codigo (articulos d) (codigo_fk A) (articulo r))
    (Types.adjudicados d) (adjudicadosConArticulo (useData d)) /\
  Forall2
    (fun C r => con r = C /\ proveedor_fk (con r) = proveedor_fk C /\
                resolves Types.proveedor (proveedores d) (proveedor_fk C) (proveedor r) /\
                adjudicados r =
                  List.filter (fun a => String.eqb (contrato_fk (adj a)) (contrato C))
                              (adjudicadosConArticulo (useData d)))
    (contratos d) (contratosConProveedor (useData d)).
Proof.
  unfold useData; simpl. split.
  - induction (Types.adjudicados d) as [|A l IH]; simpl; constructor; [|done].
    split; [done|]. apply Map_new_resolves.
  - induction (contratos d) as [|C l IH]; simpl; constructor; [|done].
    repeat split. apply Map_new_resolves.
Qed.

(** When the codes of the table are pairwise different, the record a key
    resolves to is the only one with that key. *)
Lemma resolves_unique {A K : Type} (keyOf : A -> K) (table : list A) (k : K)
    (r : option A) (a : A) :
  NoDup (map keyOf table) -> resolves keyOf table k r ->
  In a table -> keyOf a = k -> r = Some a.
Proof.
  intros Hnd Hr Hin Hk. destruct r as [b|]; simpl in Hr.
  - destruct Hr as (l1 & l2 & -> & Hb & Hl2). f_equal.
    rewrite map_app in Hnd. simpl in Hnd.
    apply in_app_or in Hin as [Hin|[->|Hin]]; [|done|].
    + exfalso. apply NoDup_app in Hnd as (_ & Hdis & _).
      apply (Hdis (keyOf a)).
      * apply list_elem_of_In, in_map, Hin.
      * rewrite Hk, <- Hb. left.
    + exfalso. by apply (Hl2 a).
  - exfalso. by apply (Hr a).
Qed.

End JoinFacts.

(* ===================================================================== *)
(** * The sortable table ([useSortableData], [DataTable])                 *)
(* ===================================================================== *)

Section StringOrder.

Lemma ascii_compare_Lt_trans (a b c : ascii) :
  Ascii.compare a b = Lt -> Ascii.compare b c = Lt -> Ascii.compare a c = Lt.
Proof.
  unfold Ascii.compare. rewrite !N.compare_lt_iff. apply N.lt_trans.
Qed.

Lemma string_compare_Lt_trans (s1 s2 s3 : string) :
  String.compare s1 s2 = Lt -> String.compare s2 s3 = Lt -> String.compare s1 s3 = Lt.
Proof.
  revert s2 s3. induction s1 as [|c1 s1 IH]; intros [|c2 s2] [|c3 s3]; simpl; try done.
  destruct (Ascii.compare c1 c2) eqn:E12; try done;
    destruct (Ascii.compare c2 c3) eqn:E23; try done; intros H12 H23.
  - apply Ascii.compare_eq_iff in E12, E23. subst.
    replace (Ascii.compare c3 c3) with Eq
      by (unfold Ascii.compare; by rewrite N.compare_refl).
    eauto.
  - apply Ascii.compare_eq_iff in E12. subst. by rewrite E23.
  - apply Ascii.compare_eq_iff in E23. subst. by rewrite E12.
  - by rewrite (ascii_compare_Lt_trans _ _ _ E12 E23).
Qed.

Lemma string_ltb_Lt (s1 s2 : string) :
  String.ltb s1 s2 = true <-> String.compare s1 s2 = Lt.
Proof. unfold String.ltb. destruct (String.compare s1 s2); split; done. Qed.

Lemma string_compare_flip (s1 s2 : string) :
  String.compare s2 s1 = CompOpp (String.compare s1 s2).
Proof. apply String.compare_antisym. Qed.

End StringOrder.

Section ComparatorFacts.
Context (c : SortConfig).

Lemma compareItems_strings (a b : gmap string value) (sa sb : string) :
  prop a (key c) = VStr sa -> prop b (key c) = VStr sb ->
  compareItems c a b =
    directed (direction c) (String.compare (toLowerCase sa) (toLowerCase sb)).
Proof.
  intros Ha Hb. unfold compareItems. rewrite Ha, Hb. simpl.
  unfold String.ltb. rewrite (string_compare_flip (toLowerCase sa) (toLowerCase sb)).
  by destruct (String.compare (toLowerCase sa) (toLowerCase sb)), (direction c).
Qed.

Lemma compareItems_numbers (a b : gmap string value) (na nb : Z) :
  prop a (key c) = VNum na -> prop b (key c) = VNum nb ->
  compareItems c a b = directed (direction c) (na ?= nb).
Proof.
  intros Ha Hb. unfold compareItems. rewrite Ha, Hb. simpl.
  destruct (Z.compare_spec na nb) as [->|Hlt|Hgt].
  - by rewrite Z.ltb_irrefl.
  - rewrite (proj2 (Z.ltb_lt na nb) Hlt). by destruct (direction c).
  - rewrite (proj2 (Z.ltb_ge na nb)) by lia.
    rewrite (proj2 (Z.ltb_lt nb na) Hgt). by destruct (direction c).
Qed.

(** The comparator never answers "before" both ways round. *)
Lemma compareItems_asym (a b : gmap string value) :
  compareItems c a b < 0 -> 0 <= compareItems c b a.
Proof.
  destruct (prop a (key c)) as [| | |na|sa|] eqn:Ha;
    destruct (prop b (key c)) as [| | |nb|sb|] eqn:Hb;
    try (unfold compareItems; rewrite Ha, Hb; simpl; lia).
  - rewrite (compareItems_numbers a b na nb), (compareItems_numbers b a nb na) by done.
    rewrite (Z.compare_antisym na nb).
    destruct (na ?= nb), (direction c); simpl; lia.
  - rewrite (compareItems_strings a b sa sb), (compareItems_strings b a sb sa) by done.
    rewrite (string_compare_flip (toLowerCase sa) (toLowerCase sb)).
    destruct (String.compare (toLowerCase sa) (toLowerCase sb)), (direction c); simpl; lia.
Qed.

Lemma Sorted_weaken {A : Type} (R R' : A -> A -> Prop) (l : list A) :
  (forall x y, R x y -> R' x y) -> Sorted R l -> Sorted R' l.
Proof.
  intros HR. induction 1 as [|x l Hl IH Hhd]; constructor; [done|].
  destruct Hhd; constructor; auto.
Qed.

Lemma StronglySorted_weaken {A : Type} (R R' : A -> A -> Prop) (l : list A) :
  (forall x y, R x y -> R' x y) -> StronglySorted R l -> StronglySorted R' l.
Proof.
  intros HR. induction 1 as [|x l Hl IH Hx]; constructor; [done|].
  eapply List.Forall_impl; [|exact Hx]. auto.
Qed.

End ComparatorFacts.

(** C4. For all pairs of values at the sort key: a first value that is
    [null] or [undefined] is ordered after the second, whatever the
    direction, and so is a second value that is [null] or [undefined] after a
    first that is not; two strings are compared by their lower-case writing,
    so without regard to letter case, in the requested direction; two
    numbers are compared by size, in the requested direction; any other
    combination of kinds compares as equal. *)
Theorem compareItems_policy (c : SortConfig) (a b : gmap string value) :
  (isNullish (prop a (key c)) = true -> compareItems c a b = 1) /\
  (isNullish (prop a (key c)) = false -> isNullish (prop b (key c)) = true ->
     compareItems c a b = -1) /\
  (forall sa sb, prop a (key c) = VStr sa -> prop b (key c) = VStr sb ->
     compareItems c a b =
       directed (direction c) (String.compare (toLowerCase sa) (toLowerCase sb))) /\
  (forall na nb, prop a (key c) = VNum na -> prop b (key c) = VNum nb ->
     compareItems c a b = directed (direction c) (na ?= nb)) /\
  (isNullish (prop a (key c)) = false -> isNullish (prop b (key c)) = false ->
     ~ (typeof (prop a (key c)) = TString /\ typeof (prop b (key c)) = TString) ->
     ~ (typeof (prop a (key c)) = TNumber /\ typeof (prop b (key c)) = TNumber) ->
     compareItems c a b = 0).
Proof.
  split; [|split; [|split; [|split]]].
  - intros Ha. unfold compareItems. by rewrite Ha.
  - intros Ha Hb. unfold compareItems. by rewrite Ha, Hb.
  - apply compareItems_strings.
  - apply compareItems_numbers.
  - intros Ha Hb Hs Hn. unfold compareItems. rewrite Ha, Hb.
    destruct (prop a (key c)), (prop b (key c)); simpl in *; try done.
    + exfalso. by apply Hn.
    + exfalso. by apply Hs.
Qed.

Section StrictSort.
Context {A : Type} (cmp : A -> A -> Z) (R : A -> A -> Prop).
Hypothesis R_trans : forall a b c, R a b -> R b c -> R a c.
Hypothesis R_cmp : forall a b, R a b -> cmp a b < 0 /\ 0 <= cmp b a.

Lemma sort_insert_StronglySorted (x : A) (s : list A) :
  StronglySorted R s -> Forall (fun b => R x b \/ R b x) s ->
  StronglySorted R (sort_insert cmp x s).
Proof.
  induction 1 as [|y s Hs IH Hy]; intros Hx; simpl.
  - repeat constructor.
  - apply List.Forall_cons_iff in Hx as [Hxy Hx].
    destruct (cmp y x <? 0) eqn:E.
    + assert (R y x) as Hyx.
      { destruct Hxy as [Hxy|]; [|done]. apply R_cmp in Hxy. lia. }
      constructor; [by apply IH|].
      eapply Permutation_Forall; [symmetry; apply sort_insert_Permutation|].
      by constructor.
    + assert (R x y) as Hxy'.
      { destruct Hxy as [|Hyx]; [done|]. apply R_cmp in Hyx. lia. }
      constructor; [by constructor|]. constructor; [done|].
      eapply List.Forall_impl; [|exact Hy]. eauto.
Qed.

(** When every two elements of the list are strictly ordered, one way or the
    other, the sorted list is strictly ascending. *)
Lemma Array_sort_StronglySorted (l : list A) :
  ForallOrdPairs (fun a b => R a b \/ R b a) l ->
  StronglySorted R (Array_sort cmp l).
Proof.
  induction 1 as [|x l Hx Hl IH]; simpl; [constructor|].
  apply sort_insert_StronglySorted; [done|].
  eapply Permutation_Forall; [symmetry; apply Array_sort_Permutation|done].
Qed.

End StrictSort.

Section ReverseFacts.
Context (k : string).

Lemma keyLt_trans (a b c : gmap string value) :
  keyLt k a b -> keyLt k b c -> keyLt k a c.
Proof.
  unfold keyLt.
  destruct (prop a k), (prop b k), (prop c k); try done.
  - lia.
  - apply string_compare_Lt_trans.
Qed.

Lemma keyLt_compare (d : SortDirection) (a b : gmap string value) :
  keyLt k a b ->
  compareItems {| key := k; direction := d |} a b = directed d Lt /\
  compareItems {| key := k; direction := d |} b a = directed d Gt.
Proof.
  unfold keyLt.
  destruct (prop a k) as [| | |na|sa|] eqn:Ha;
    destruct (prop b k) as [| | |nb|sb|] eqn:Hb; try done; intros Hlt.
  - rewrite (compareItems_numbers _ a b na nb), (compareItems_numbers _ b a nb na) by done.
    simpl. rewrite (proj2 (Z.compare_lt_iff na nb) Hlt).
    by rewrite (proj2 (Z.compare_gt_iff nb na) Hlt).
  - rewrite (compareItems_strings _ a b sa sb), (compareItems_strings _ b a sb sa) by done.
    simpl. rewrite (string_compare_flip (toLowerCase sa) (toLowerCase sb)).
    by rewrite Hlt.
Qed.

(** Two values of one kind that the comparator tells apart are strictly
    ordered one way or the other. *)
Lemma differAt_keyLt (a b : gmap string value) :
  (match prop a k, prop b k with
   | VStr _, VStr _ | VNum _, VNum _ => True
   | _, _ => False
   end) ->
  differAt k a b = true -> keyLt k a b \/ keyLt k b a.
Proof.
  unfold differAt, keyLt.
  destruct (prop a k) as [| | |na|sa|] eqn:Ha;
    destruct (prop b k) as [| | |nb|sb|] eqn:Hb; try done; intros _.
  - rewrite (compareItems_numbers _ a b na nb) by done. simpl.
    destruct (Z.compare_spec na nb); simpl; [done|lia|lia].
  - rewrite (compareItems_strings _ a b sa sb) by done. simpl.
    rewrite (string_compare_flip (toLowerCase sa) (toLowerCase sb)).
    destruct (String.compare (toLowerCase sa) (toLowerCase sb)); simpl; auto. done.
Qed.

Lemma pairwise_keyLt (items : list (gmap string value)) :
  allComparable k items = true -> pairwise (differAt k) items = true ->
  ForallOrdPairs (fun a b => keyLt k a b \/ keyLt k b a) items.
Proof.
  intros Hall Hpw.
  assert (forall a b, In a items -> In b items ->
            match prop a k, prop b k with
            | VStr _, VStr _ | VNum _, VNum _ => True
            | _, _ => False
            end) as Hkind.
  { intros a b Ha Hb. unfold allComparable in Hall.
    apply orb_true_iff in Hall as [H|H]; rewrite forallb_forall in H;
      pose proof (H a Ha); pose proof (H b Hb);
      by destruct (prop a k), (prop b k). }
  clear Hall. induction items as [|x items IH]; [constructor|].
  simpl in Hpw. apply andb_true_iff in Hpw as [Hx Hpw].
  constructor.
  - rewrite forallb_forall in Hx. apply List.Forall_forall. intros b Hb.
    apply differAt_keyLt; [|by apply Hx].
    apply Hkind; [by left|by right].
  - apply IH; [done|]. intros a b Ha Hb. apply Hkind; by right.
Qed.

Lemma sortedItems_reverse (items : list (gmap string value)) :
  allComparable k items = true -> pairwise (differAt k) items = true ->
  sortedItems (sortedItems items (Some {| key := k; direction := asc |}))
              (Some {| key := k; direction := desc |}) =
  rev (sortedItems items (Some {| key := k; direction := asc |})).
Proof.
  intros Hall Hpw. simpl. apply Array_sort_reverses.
  apply (StronglySorted_weaken (keyLt k)).
  - intros e f Hef. apply (keyLt_compare desc) in Hef as [_ ->]. done.
  - apply Array_sort_StronglySorted.
    + apply keyLt_trans.
    + intros a b Hab. apply (keyLt_compare asc) in Hab as [-> ->]. done.
    + by apply pairwise_keyLt.
Qed.

End ReverseFacts.

Lemma sortedItems_idempotent (items : list (gmap string value))
    (sortConfig : option SortConfig) :
  sortedItems (sortedItems items sortConfig) sortConfig = sortedItems items sortConfig.
Proof.
  destruct sortConfig as [c|]; simpl; [|done].
  apply Array_sort_idempotent, compareItems_asym.
Qed.

(** C3 (amended). For every data array whose values at the sort key are all
    strings or all numbers, on which the comparator is consistent, sorting
    twice with that key and the same direction gives the same list as
    sorting once; and when, moreover, the comparator tells the rows apart
    two by two, sorting ascending on that key and then descending on it
    gives the exact reverse of the ascending order. *)
Theorem sort_twice_and_toggle (items : list (gmap string value)) (k : string) :
  allComparable k items = true ->
  (forall d : SortDirection,
     sortedItems (sortedItems items (Some {| key := k; direction := d |}))
                 (Some {| key := k; direction := d |}) =
     sortedItems items (Some {| key := k; direction := d |})) /\
  (pairwise (differAt k) items = true ->
     sortedItems (sortedItems items (Some {| key := k; direction := asc |}))
                 (Some {| key := k; direction := desc |}) =
     rev (sortedItems items (Some {| key := k; direction := asc |}))).
Proof.
  intros Hall. split.
  - intros d. apply sortedItems_idempotent.
  - by apply sortedItems_reverse.
Qed.

(** C3, as first stated, fails: two rows that hold the same number at the key
    keep their order in both directions, so the descending list is not the
    reverse of the ascending one. *)
Lemma sort_toggle_keeps_ties :
  allComparable "k" Examples.tied = true /\
  sortedItems (sortedItems Examples.tied (Some (Examples.byK asc)))
              (Some (Examples.byK desc)) = Examples.tied /\
  rev (sortedItems Examples.tied (Some (Examples.byK asc))) = rev Examples.tied /\
  sortedItems (sortedItems Examples.tied (Some (Examples.byK asc)))
              (Some (Examples.byK desc)) <>
  rev (sortedItems Examples.tied (Some (Examples.byK asc))).
Proof.
  split; [reflexivity|]. split; [reflexivity|]. split; [reflexivity|].
  intros H. apply (f_equal (map (fun r => prop r "id"))) in H.
  vm_compute in H. discriminate H.
Qed.

(** On a column that holds [null] or values of mixed kinds the comparator is
    not consistent: it puts each of two rows with [null] after the other,
    and it takes a number for equal to two strings that it tells apart. The
    language then leaves the order of the sorted rows to the engine. *)
Lemma compareItems_not_consistent :
  compareItems (Examples.byK asc) (Examples.row 1 VNull) (Examples.row 2 VNull) = 1 /\
  compareItems (Examples.byK asc) (Examples.row 2 VNull) (Examples.row 1 VNull) = 1 /\
  compareItems (Examples.byK asc) (Examples.row 1 VNull) (Examples.row 1 VNull) = 1 /\
  compareItems (Examples.byK asc) (Examples.row 1 (VStr "a")) (Examples.row 2 (VNum 7)) = 0 /\
  compareItems (Examples.byK asc) (Examples.row 2 (VNum 7)) (Examples.row 3 (VStr "b")) = 0 /\
  compareItems (Examples.byK asc) (Examples.row 1 (VStr "a")) (Examples.row 3 (VStr "b")) = -1.
Proof. repeat split; reflexivity. Qed.

Lemma sort_twice_and_toggle_witness :
  allComparable "k" Examples.letters = true /\
  pairwise (differAt "k") Examples.letters = true /\
  sortedItems (sortedItems Examples.letters (Some (Examples.byK desc)))
              (Some (Examples.byK desc)) =
  sortedItems Examples.letters (Some (Examples.byK desc)) /\
  sortedItems (sortedItems Examples.letters (Some (Examples.byK asc)))
              (Some (Examples.byK desc)) =
  rev (sortedItems Examples.letters (Some (Examples.byK asc))).
Proof.
  assert (allComparable "k" Examples.letters = true) as Hall by reflexivity.
  split; [exact Hall|]. split; [reflexivity|].
  destruct (sort_twice_and_toggle Examples.letters "k" Hall) as [Htwice Hrev].
  split; [apply (Htwice desc)|]. apply Hrev. reflexivity.
Defined.

(** ** The sort state *)

Lemma requestSort_Some (sortConfig : option SortConfig) (k : string) :
  exists d, requestSort sortConfig k = Some {| key := k; direction := d |} /\
            (d = desc <-> sortConfig = Some {| key := k; direction := asc |}).
Proof.
  unfold requestSort. destruct sortConfig as [[k' d']|]; simpl.
  - destruct (String.eqb_spec k' k) as [->|Hk]; simpl.
    + destruct d'; simpl; eexists; (split; [reflexivity|]); split; congruence.
    + eexists; split; [reflexivity|]. split; congruence.
  - eexists; split; [reflexivity|]. split; congruence.
Qed.

Lemma afterClicks_snoc (clicks : list string) (k : string) :
  afterClicks (clicks ++ [k]) = requestSort (afterClicks clicks) k.
Proof. unfold afterClicks. by rewrite foldl_app. Qed.

(** C10 (amended). The sort configuration is null only in the initial state:
    every [requestSort] sets the clicked key with a direction, descending
    exactly when that key was active in ascending direction, and no
    transition restores null; so once any header has been clicked the
    configuration names the last clicked key, the rows shown are the data
    sorted on that key, ascending or descending, and the unsorted view is
    never entered again. *)
Theorem sortConfig_never_null_again :
  afterClicks [] = None /\
  (forall sortConfig k, exists d,
     requestSort sortConfig k = Some {| key := k; direction := d |} /\
     (d = desc <-> sortConfig = Some {| key := k; direction := asc |})) /\
  (forall clicks k, exists d,
     afterClicks (clicks ++ [k]) = Some {| key := k; direction := d |} /\
     forall items,
       sortedItems items (afterClicks (clicks ++ [k])) =
       Array_sort (compareItems {| key := k; direction := d |}) items).
Proof.
  split; [done|]. split; [apply requestSort_Some|].
  intros clicks k. rewrite afterClicks_snoc.
  destruct (requestSort_Some (afterClicks clicks) k) as (d & -> & _).
  by exists d.
Qed.

(** C10, as first stated, fails: after two clicks on the header of [k] the
    rows, sorted descending, are in the original input order again. *)
Lemma original_order_after_two_clicks :
  afterClicks ["k"; "k"] = Some (Examples.byK desc) /\
  sortedItems Examples.falling (afterClicks ["k"]) <> Examples.falling /\
  sortedItems Examples.falling (afterClicks ["k"; "k"]) = Examples.falling /\
  sortedItems Examples.falling (afterClicks ["k"; "k"]) =
  sortedItems Examples.falling (afterClicks []).
Proof.
  split; [reflexivity|]. split; [|split; reflexivity].
  intros H. apply (f_equal (map (fun r => prop r "id"))) in H.
  vm_compute in H. discriminate H.
Qed.

(** ** Searching *)

Section SearchFacts.

Lemma append_cons (c : ascii) (s t : string) :
  (String c s ++ t)%string = String c (s ++ t)%string.
Proof. reflexivity. Qed.

Lemma startsWith_spec (p s : string) :
  startsWith p s = true <-> exists post, s = (p ++ post)%string.
Proof.
  revert s. induction p as [|a p IH]; intros s; simpl.
  - split; [by exists s|done].
  - destruct s as [|b s].
    + split; [done|]. by intros [post Hpost].
    + destruct (Ascii.eqb_spec a b) as [->|Hab].
      * rewrite IH.
        split; intros [post Hpost]; exists post; rewrite append_cons in *; congruence.
      * split; [done|]. intros [post Hpost]. rewrite append_cons in Hpost. congruence.
Qed.

Lemma includes_unfold (s t : string) :
  includes s t =
  startsWith t s || match s with EmptyString => false | String _ s' => includes s' t end.
Proof. by destruct s. Qed.

Lemma includes_spec (s t : string) :
  includes s t = true <-> exists pre post, s = (pre ++ t ++ post)%string.
Proof.
  split.
  - induction s as [|c s IH]; rewrite includes_unfold, orb_true_iff; intros [H|H].
    + apply startsWith_spec in H as [post ->]. by exists EmptyString, post.
    + done.
    + apply startsWith_spec in H as [post ->]. by exists EmptyString, post.
    + destruct (IH H) as (pre & post & ->). by exists (String c pre), post.
  - intros (pre & post & ->). induction pre as [|c pre IH].
    + change (EmptyString ++ t ++ post)%string with (t ++ post)%string.
      rewrite includes_unfold.
      assert (startsWith t (t ++ post) = true) as ->; [|done].
      apply startsWith_spec. by exists post.
    + rewrite append_cons, includes_unfold, IH. apply orb_true_r.
Qed.

(** The test of [filteredData] on a row is [rowMatches]. *)
Lemma search_test_spec (numberText : Z -> string) (searchKeys : list string)
    (term : string) (item : gmap string value) :
  existsb
    (fun k => negb (isNullish (prop item k)) &&
              includes (toLowerCase (String_ numberText (prop item k)))
                       (toLowerCase term))
    searchKeys = true <-> rowMatches numberText searchKeys term item.
Proof.
  rewrite existsb_exists. unfold rowMatches, containsCI.
  split; intros (k & Hk & H); exists k; (split; [done|]).
  - apply andb_true_iff in H as [Hn Hi]. apply negb_true_iff in Hn.
    by apply includes_spec in Hi.
  - destruct H as [Hn Hi]. rewrite Hn. simpl. by apply includes_spec.
Qed.

Lemma filter_sublist {A : Type} (f : A -> bool) (l : list A) :
  sublist (List.filter f l) l.
Proof.
  induction l as [|x l IH]; simpl; [constructor|].
  destruct (f x); by constructor.
Qed.

End SearchFacts.

(** C7. For every sorted row list, search term and set of search keys: an
    empty term returns all rows in the current sort order; a non-empty term
    returns exactly the rows for which at least one search key holds a value,
    neither [null] nor [undefined], whose text contains the term, letter case
    apart (so a term contained in no row gives the empty list); and the rows
    returned are a subsequence of the sorted list, so its order is kept. *)
Theorem filteredData_search (numberText : Z -> string)
    (data : list (gmap string value))
    (sortConfig : option SortConfig) (searchKeys : list string) (term : string) :
  let sorted := sortedItems data sortConfig in
  let shown := DataTable numberText data searchKeys sortConfig term in
  (term = EmptyString -> shown = sorted) /\
  (term <> EmptyString ->
     forall f, (forall r, f r = true <-> rowMatches numberText searchKeys term r) ->
               shown = List.filter f sorted) /\
  (term <> EmptyString ->
     forall r, In r shown <-> In r sorted /\ rowMatches numberText searchKeys term r) /\
  (term <> EmptyString ->
     (forall r, In r sorted -> ~ rowMatches numberText searchKeys term r) ->
     shown = []) /\
  sublist shown sorted.
Proof.
  intros sorted shown. unfold shown, DataTable, filteredData. fold sorted.
  destruct (String.eqb_spec term EmptyString) as [->|Hne].
  - repeat split; try done.
  - split; [done|]. split; [|split; [|split]].
    + intros _ f Hf. apply List.filter_ext. intros r.
      apply eq_true_iff_eq. rewrite search_test_spec. symmetry. apply Hf.
    + intros _ r. rewrite List.filter_In. by rewrite search_test_spec.
    + intros _ Hnone. induction sorted as [|r l IH]; simpl; [done|].
      destruct (existsb _ searchKeys) eqn:E.
      * exfalso. apply (Hnone r); [by left|]. by apply search_test_spec.
      * apply IH. intros r' Hr'. apply Hnone. by right.
    + apply filter_sublist.
Qed.

(* ===================================================================== *)
(** * The date policy ([parseDate])                                       *)
(* ===================================================================== *)

Section DateFacts.
Context (UTC : Z -> Z).

(** The table [months] holds the twelve names, January at 0. *)
Lemma months_lookup (p : string) (m : Z) : months !! p = Some m <-> isMonth p m.
Proof.
  unfold months. rewrite <- elem_of_list_to_map.
  - unfold isMonth, monthNames. split.
    + intros H. repeat (apply elem_of_cons in H as [H|H];
                        [injection H as -> ->; by split|]).
      by apply elem_of_nil in H.
    + intros [Hm Hn]. rewrite <- (Z2Nat.id m Hm).
      generalize dependent (Z.to_nat m). intros n Hn.
      do 12 (destruct n as [|n];
             [injection Hn as <-; apply list_elem_of_In; simpl;
              repeat (first [left; reflexivity|right])
             |simpl in Hn]).
      by destruct n.
  - apply (bool_decide_unpack _). by vm_compute.
Qed.

(** The names every object inherits are no month names. *)
Lemma inherited_not_month (p : string) : isInherited p = true -> months !! p = None.
Proof.
  unfold isInherited. intros (x & Hx & Hp)%existsb_exists.
  apply String.eqb_eq in Hp. subst x.
  repeat (destruct Hx as [<-|Hx]; [by vm_compute|]). destruct Hx.
Qed.

Lemma months_at_spec (p : string) :
  match months_at p with
  | Own m => isMonth p m
  | Inherited => isInherited p = true /\ forall m, ~ isMonth p m
  | Missing => isInherited p = false /\ forall m, ~ isMonth p m
  end.
Proof.
  unfold months_at, lookup_in. destruct (months !! p) as [m|] eqn:E.
  - by apply months_lookup.
  - destruct (isInherited p); (split; [done|]);
      intros m Hm%months_lookup; congruence.
Qed.

Lemma wordsShape_not_inherited (s : string) (d m y : Z) :
  wordsShape s d m y -> ~ inheritedShape s.
Proof.
  intros (p0 & p1 & p2 & Hp & _ & H1 & _) (q0 & q1 & q2 & day & year & Hq & _ & Hi & _).
  rewrite Hp in Hq. injection Hq as <- <- <-.
  apply months_lookup in H1. apply inherited_not_month in Hi. congruence.
Qed.

(** The block for the month names returns the date of a day, a month name
    and a year, or the invalid date for an inherited name in the place of
    the month name; any other string falls through it. *)
Lemma byName_spec (s : string) :
  match byName UTC s with
  | Some dt =>
      (exists d m y, wordsShape s d m y /\ dt = Date_new UTC y m d) \/
      (inheritedShape s /\ dt = invalidDate)
  | None => nameBlockSkips s
  end.
Proof.
  unfold byName, nameBlockSkips, wordsShape, inheritedShape.
  destruct (split " de " (toLowerCase s)) as [|p0 [|p1 [|p2 [|p3 l]]]] eqn:Es;
    try (split; [intros d m y (q0 & q1 & q2 & Hq & _)
                |intros (q0 & q1 & q2 & d & y & Hq & _)]; discriminate Hq).
  pose proof (months_at_spec p1) as Hm.
  destruct (parseInt p0) as [day|] eqn:E0.
  - destruct (months_at p1) as [month| |] eqn:E1.
    + destruct (parseInt p2) as [year|] eqn:E2.
      * left. exists day, month, year. split; [|done]. by exists p0, p1, p2.
      * split.
        -- intros d m y (q0 & q1 & q2 & Hq & _ & _ & H2). congruence.
        -- intros (q0 & q1 & q2 & d & y & Hq & _ & _ & H2). congruence.
    + destruct Hm as [Hi Hnm]. destruct (parseInt p2) as [year|] eqn:E2.
      * right. split; [|done]. by exists p0, p1, p2, day, year.
      * split.
        -- intros d m y (q0 & q1 & q2 & Hq & _ & _ & H2). congruence.
        -- intros (q0 & q1 & q2 & d & y & Hq & _ & _ & H2). congruence.
    + destruct Hm as [Hi Hnm]. split.
      * intros d m y (q0 & q1 & q2 & Hq & _ & H1 & _).
        injection Hq as <- <- <-. by apply (Hnm m).
      * intros (q0 & q1 & q2 & d & y & Hq & _ & H1 & _).
        injection Hq as <- <- <-. congruence.
  - split.
    + intros d m y (q0 & q1 & q2 & Hq & H0 & _). congruence.
    + intros (q0 & q1 & q2 & d & y & Hq & H0 & _). congruence.
Qed.

Lemma byNumber_spec (s : string) :
  match byNumber UTC s with
  | Some dt => exists d m y, slashShape s d m y /\ dt = Date_new UTC y (m - 1) d
  | None => forall d m y, ~ slashShape s d m y
  end.
Proof.
  unfold byNumber, slashShape.
  destruct (split "/" s) as [|p0 [|p1 [|p2 [|p3 l]]]] eqn:Es;
    try (intros d m y (q0 & q1 & q2 & Hq & _); discriminate Hq).
  destruct (parseInt p0) as [day|] eqn:E0;
    [destruct (parseInt p1) as [month|] eqn:E1;
     [destruct (parseInt p2) as [year|] eqn:E2|]|]; simpl.
  - exists day, month, year. split; [|done]. by exists p0, p1, p2.
  - intros d m y (q0 & q1 & q2 & Hq & _ & _ & H2). congruence.
  - intros d m y (q0 & q1 & q2 & Hq & _ & H1 & _). congruence.
  - intros d m y (q0 & q1 & q2 & Hq & H0 & _). congruence.
Qed.

Lemma wordsShape_functional (s : string) (d m y d' m' y' : Z) :
  wordsShape s d m y -> wordsShape s d' m' y' -> d = d' /\ m = m' /\ y = y'.
Proof.
  intros (p0 & p1 & p2 & Hp & H0 & H1 & H2) (q0 & q1 & q2 & Hq & H0' & H1' & H2').
  rewrite Hp in Hq. injection Hq as <- <- <-.
  apply months_lookup in H1, H1'. repeat split; congruence.
Qed.

Lemma slashShape_functional (s : string) (d m y d' m' y' : Z) :
  slashShape s d m y -> slashShape s d' m' y' -> d = d' /\ m = m' /\ y = y'.
Proof.
  intros (p0 & p1 & p2 & Hp & H0 & H1 & H2) (q0 & q1 & q2 & Hq & H0' & H1' & H2').
  rewrite Hp in Hq. injection Hq as <- <- <-. repeat split; congruence.
Qed.

Context (Date_parse : string -> Date).

(** [parseDate] returns a date that the policy allows, unless an inherited
    name stands in the place of the month name. *)
Lemma parseDate_sound (s : string) :
  ~ inheritedShape s -> parseDate_policy UTC Date_parse s (parseDate UTC Date_parse s).
Proof.
  intros Hni. unfold parseDate.
  pose proof (byName_spec s) as Hn. pose proof (byNumber_spec s) as Hs.
  destruct (byName UTC s) as [dt|].
  - destruct Hn as [(d & m & y & Hw & ->)|[Hi _]]; [|done]. by apply policy_words.
  - destruct Hn as [Hnw _]. destruct (byNumber UTC s) as [dt|].
    + destruct Hs as (d & m & y & Hw & ->). by apply policy_slashes.
    + by apply policy_generic.
Qed.

(** The policy allows one date only. *)
Lemma parseDate_complete (s : string) (dt : Date) :
  ~ inheritedShape s ->
  parseDate_policy UTC Date_parse s dt -> dt = parseDate UTC Date_parse s.
Proof.
  intros Hni. unfold parseDate.
  pose proof (byName_spec s) as Hn. pose proof (byNumber_spec s) as Hs.
  intros Hp. destruct Hp as [d m y Hw|d m y Hnw Hw|Hnw Hns].
  - destruct (byName UTC s) as [dt|].
    + destruct Hn as [(d' & m' & y' & Hw' & ->)|[Hi _]]; [|done].
      by destruct (wordsShape_functional _ _ _ _ _ _ _ Hw Hw') as (-> & -> & ->).
    + destruct Hn as [Hn _]. by destruct (Hn d m y).
  - destruct (byName UTC s) as [dt|].
    + destruct Hn as [(d' & m' & y' & Hw' & ->)|[Hi _]]; [|done].
      by destruct (Hnw d' m' y').
    + destruct (byNumber UTC s) as [dt|].
      * destruct Hs as (d' & m' & y' & Hw' & ->).
        by destruct (slashShape_functional _ _ _ _ _ _ _ Hw Hw') as (-> & -> & ->).
      * by destruct (Hs d m y).
  - destruct (byName UTC s) as [dt|].
    + destruct Hn as [(d' & m' & y' & Hw' & ->)|[Hi _]]; [|done].
      by destruct (Hnw d' m' y').
    + destruct (byNumber UTC s) as [dt|]; [|done].
      destruct Hs as (d' & m' & y' & Hw' & ->). by destruct (Hns d' m' y').
Qed.

(** With an inherited name in the place of the month name the date is
    invalid, whatever else the string holds. *)
Lemma parseDate_inherited (s : string) :
  inheritedShape s -> parseDate UTC Date_parse s = invalidDate.
Proof.
  intros Hi. unfold parseDate. pose proof (byName_spec s) as Hn.
  destruct (byName UTC s) as [dt|].
  - destruct Hn as [(d & m & y & Hw & _)|[_ ->]]; [|done].
    by destruct (wordsShape_not_inherited _ _ _ _ Hw).
  - by destruct Hn as [_ Hn].
Qed.

End DateFacts.

(** C2, a defect of the code. The string "1/2/2024 de constructor de 5" does
    not read as day, month name, year, since "constructor" is no month name
    of the table, and it splits on "/" into three parts that parse as 1, 2
    and 2024; so the policy gives the date (2024, 1, 1), the first of
    February 2024, a valid date. The code finds the function that every
    object inherits under the name "constructor", takes it for a month and
    returns an invalid date. *)
Theorem parseDate_inherited_month (UTC : Z -> Z) (Date_parse : string -> Date) :
  (forall d m y, ~ wordsShape "1/2/2024 de constructor de 5" d m y) /\
  slashShape "1/2/2024 de constructor de 5" 1 2 2024 /\
  parseDate_policy UTC Date_parse "1/2/2024 de constructor de 5"
    (Date_new UTC 2024 1 1) /\
  isValid (Date_new Examples.UTC0 2024 1 1) = true /\
  months_at "constructor" = Inherited /\
  parseDate UTC Date_parse "1/2/2024 de constructor de 5" = invalidDate /\
  isValid (parseDate UTC Date_parse "1/2/2024 de constructor de 5") = false.
Proof.
  assert (forall d m y, ~ wordsShape "1/2/2024 de constructor de 5" d m y) as Hnw.
  { intros d m y (p0 & p1 & p2 & Hp & _ & H1 & _).
    injection Hp as <- <- <-. apply months_lookup in H1. by vm_compute in H1. }
  assert (slashShape "1/2/2024 de constructor de 5" 1 2 2024) as Hs.
  { exists "1", "2", "2024 de constructor de 5". repeat split; reflexivity. }
  split; [exact Hnw|]. split; [exact Hs|].
  split; [exact (policy_slashes UTC Date_parse _ 1 2 2024 Hnw Hs)|].
  repeat split; reflexivity.
Qed.

Section NumericDates.
Context (UTC : Z -> Z).

Lemma withinReach_true (y m : Z) :
  Z.abs y <= 1000000 -> Z.abs m <= 10000000 -> withinReach y m = true.
Proof.
  intros Hy Hm. unfold withinReach.
  by rewrite (proj2 (Z.leb_le _ _) Hy), (proj2 (Z.leb_le _ _) Hm).
Qed.

(** Twelve months more are a year more. *)
Lemma MakeDay_month_rollover (y m d : Z) :
  Z.abs y <= 999999 -> Z.abs m <= 9999988 ->
  MakeDay y (m + 12) d = MakeDay (y + 1) m d.
Proof.
  intros Hy Hm. unfold MakeDay. rewrite !withinReach_true by lia.
  replace (m + 12) with (m + 1 * 12) by lia.
  rewrite Z.div_add, Z_mod_plus_full by lia.
  by replace (y + (m / 12 + 1)) with (y + 1 + m / 12) by lia.
Qed.

Lemma Date_new_month_rollover (y m d : Z) :
  100 <= y <= 999999 -> Z.abs m <= 9999988 ->
  Date_new UTC y (m + 12) d = Date_new UTC (y + 1) m d.
Proof.
  intros Hy Hm. unfold Date_new, fullYear.
  rewrite (proj2 (Z.leb_gt y 99)) by lia.
  rewrite (proj2 (Z.leb_gt (y + 1) 99)) by lia.
  rewrite !andb_false_r. by rewrite MakeDay_month_rollover by lia.
Qed.

(** A string of three numbers around "/" gets its date from one of the two
    blocks, never from the generic parsing. *)
Lemma parseDate_numeric_shape (Date_parse : string -> Date) (s : string)
    (day month year : Z) :
  slashShape s day month year ->
  parseDate UTC Date_parse s =
  match byName UTC s with
  | Some dt => dt
  | None => Date_new UTC year (month - 1) day
  end.
Proof.
  intros Hs. unfold parseDate. pose proof (byNumber_spec UTC s) as Hb.
  destruct (byName UTC s) as [dt|]; [done|].
  destruct (byNumber UTC s) as [dt|].
  - destruct Hb as (d & m & y & Hs' & ->).
    by destruct (slashShape_functional _ _ _ _ _ _ _ Hs Hs') as (-> & -> & ->).
  - by destruct (Hb day month year).
Qed.

Lemma parseDate_slash_shape (Date_parse : string -> Date) (s : string)
    (day month year : Z) :
  nameBlockSkips s -> slashShape s day month year ->
  parseDate UTC Date_parse s = Date_new UTC year (month - 1) day.
Proof.
  intros [Hnw Hni] Hs. rewrite (parseDate_numeric_shape _ _ _ _ _ Hs).
  pose proof (byName_spec UTC s) as Hn.
  destruct (byName UTC s) as [dt|]; [|done].
  destruct Hn as [(d & m & y & Hw & _)|[Hi _]]; [by destruct (Hnw d m y)|done].
Qed.

Lemma daysBeforeMonth_bounds (leap : bool) (m : Z) :
  0 <= daysBeforeMonth leap m <= 335.
Proof.
  unfold daysBeforeMonth. destruct leap;
    (destruct m as [|p|p]; [lia| |lia]);
    repeat (destruct p as [p|p|]; try lia).
Qed.

(** Components within these bounds give a time value that a [Date] can
    hold, in a time zone less than a day away from universal time. *)
Lemma Date_new_valid (y m d : Z) :
  (forall t, Z.abs (UTC t - t) <= msPerDay) ->
  Z.abs y <= 200000 -> Z.abs m <= 120000 -> Z.abs d <= 10000000 ->
  isValid (Date_new UTC y m d) = true.
Proof.
  intros Hutc Hy Hm Hd.
  assert (Z.abs (fullYear y) <= 200000) as Hfy.
  { unfold fullYear. destruct ((0 <=? y) && (y <=? 99)) eqn:E; [|done].
    apply andb_true_iff in E as [E1 E2]. lia. }
  unfold Date_new, MakeDate, MakeDay. rewrite withinReach_true by lia.
  simpl fmap. unfold TimeClip. change (MakeTime 0 0 0 0) with 0.
  match goal with |- isValid (if ?b then _ else _) = true =>
    assert (b = true) as ->; [|done] end.
  apply Z.leb_le.
  pose proof (daysBeforeMonth_bounds (isLeapYear (fullYear y + m / 12)) (m mod 12)) as Hb.
  revert Hb. generalize (daysBeforeMonth (isLeapYear (fullYear y + m / 12)) (m mod 12)).
  intros b Hb.
  revert Hfy. generalize (fullYear y). intros fy Hfy.
  assert (-10000 <= m / 12 <= 10000) as Hq.
  { split; [apply Z.div_le_lower_bound|apply Z.div_le_upper_bound]; lia. }
  revert Hq. generalize (m / 12). intros q Hq.
  unfold DayFromYear.
  pose proof (Z.div_mod (fy + q - 1969) 4 ltac:(lia)).
  pose proof (Z.mod_pos_bound (fy + q - 1969) 4 ltac:(lia)).
  pose proof (Z.div_mod (fy + q - 1901) 100 ltac:(lia)).
  pose proof (Z.mod_pos_bound (fy + q - 1901) 100 ltac:(lia)).
  pose proof (Z.div_mod (fy + q - 1601) 400 ltac:(lia)).
  pose proof (Z.mod_pos_bound (fy + q - 1601) 400 ltac:(lia)).
  set (t := (365 * (fy + q - 1970) + (fy + q - 1969) / 4 - (fy + q - 1901) / 100 +
             (fy + q - 1601) / 400 + b + d - 1) * msPerDay + 0).
  assert (Z.abs t <= 8600000000000000) as Ht.
  { unfold t, msPerDay. lia. }
  specialize (Hutc t). unfold msPerDay, maxTime in *. lia.
Qed.

End NumericDates.

(** C9 (amended). For every string of the form "d/m/y" whose three parts
    parse as numbers, [parseDate] never reaches the generic parsing. When
    the block for the month names lets the string through, the result is the
    date the [Date] constructor builds from the year, the month less one and
    the day: a day or a month out of range is not detected as invalid but
    rolls over into the adjacent months or years ("15/13/2024" gives January
    15, 2025, and "32/01/2024" the first of February), and the date is valid
    whenever the day, the month less one and the year are at most
    10 000 000, 120 000 and 200 000 in absolute value, in a time zone less
    than a day away from universal time. *)
Theorem parseDate_numeric_rolls_over (UTC : Z -> Z) (s : string) (day month year : Z) :
  slashShape s day month year ->
  (forall Date_parse Date_parse' : string -> Date,
     parseDate UTC Date_parse s = parseDate UTC Date_parse' s) /\
  (nameBlockSkips s ->
   forall Date_parse : string -> Date,
     parseDate UTC Date_parse s = Date_new UTC year (month - 1) day) /\
  (nameBlockSkips s ->
   (forall t, Z.abs (UTC t - t) <= msPerDay) ->
   Z.abs day <= 10000000 -> Z.abs (month - 1) <= 120000 -> Z.abs year <= 200000 ->
   forall Date_parse : string -> Date,
     isValid (parseDate UTC Date_parse s) = true) /\
  (forall y m d, 100 <= y <= 200000 -> Z.abs m <= 100000 ->
     Date_new UTC y (m + 12) d = Date_new UTC (y + 1) m d) /\
  (forall Date_parse : string -> Date,
     parseDate UTC Date_parse "15/13/2024" = Date_new UTC 2025 0 15 /\
     parseDate UTC Date_parse "15/13/2024" = parseDate UTC Date_parse "15/01/2025" /\
     parseDate UTC Date_parse "32/01/2024" = parseDate UTC Date_parse "01/02/2024").
Proof.
  intros Hs. split; [|split; [|split; [|split]]].
  - intros P P'.
    by rewrite (parseDate_numeric_shape UTC P s _ _ _ Hs),
               (parseDate_numeric_shape UTC P' s _ _ _ Hs).
  - intros Hskip Date_parse. by apply parseDate_slash_shape.
  - intros Hskip Hutc Hd Hm Hy Date_parse.
    rewrite (parseDate_slash_shape UTC Date_parse s _ _ _ Hskip Hs).
    by apply Date_new_valid.
  - intros y m d Hy Hm. apply Date_new_month_rollover; lia.
  - intros Date_parse. repeat split; reflexivity.
Qed.

Lemma parseDate_numeric_rolls_over_witness :
  slashShape "15/13/2024" 15 13 2024 /\
  nameBlockSkips "15/13/2024" /\
  (forall Date_parse : string -> Date,
     parseDate Examples.UTC0 Date_parse "15/13/2024" =
     Date_new Examples.UTC0 2024 (13 - 1) 15) /\
  (forall Date_parse : string -> Date,
     isValid (parseDate Examples.UTC0 Date_parse "15/13/2024") = true).
Proof.
  assert (slashShape "15/13/2024" 15 13 2024) as Hs.
  { exists "15", "13", "2024". repeat split; reflexivity. }
  assert (nameBlockSkips "15/13/2024") as Hk.
  { split.
    - intros d m y (p0 & p1 & p2 & Hp & _). discriminate Hp.
    - intros (p0 & p1 & p2 & d & y & Hp & _). discriminate Hp. }
  split; [exact Hs|]. split; [exact Hk|].
  destruct (parseDate_numeric_rolls_over Examples.UTC0 "15/13/2024" 15 13 2024 Hs)
    as (_ & Hnum & Hvalid & _).
  split; [exact (Hnum Hk)|].
  apply (Hvalid Hk); [|lia..].
  intros t. unfold Examples.UTC0, msPerDay. lia.
Defined.

(** C9, as first stated, fails: the year 300000 lies beyond the last day a
    [Date] can hold, so this string of three numbers gives an invalid date. *)
Lemma far_year_is_invalid :
  slashShape "1/1/300000" 1 1 300000 /\
  parseDate Examples.UTC0 Examples.noParse "1/1/300000" = None /\
  isValid (parseDate Examples.UTC0 Examples.noParse "1/1/300000") = false.
Proof.
  split; [|split; reflexivity].
  exists "1", "1", "300000". repeat split; reflexivity.
Qed.

(* ===================================================================== *)
(** * The dashboard aggregates ([DashboardView])                          *)
(* ===================================================================== *)

Import DashboardView.

Section StatusFacts.
Context (UTC : Z -> Z) (Date_parse : string -> Date) (now : Z).

(** The loop of [contractStatusData], from any state of the two counters. *)
Lemma countStatus_foldl (contratos : list ContratoConProveedor) (st : StatusCounts) :
  exists nv ne,
    foldl (countStatus UTC Date_parse now) st contratos =
      {| vigente := vigente st + nv; expirado := expirado st + ne |} /\
    counts (endsAfter UTC Date_parse now) contratos nv /\
    counts (endsByNow UTC Date_parse now) contratos ne /\
    counts (fun c => isValid (parseDate UTC Date_parse (fin_vigencia (con c))) = true)
           contratos (nv + ne).
Proof.
  revert st. induction contratos as [|c l IH]; intros st; simpl.
  - exists 0, 0. rewrite !Z.add_0_r. destruct st. repeat split; constructor.
  - destruct (IH (countStatus UTC Date_parse now st c)) as (nv & ne & -> & Hv & He & Hb).
    unfold countStatus, endsAfter, endsByNow.
    destruct (parseDate UTC Date_parse (fin_vigencia (con c))) as [t|] eqn:Et.
    + destruct (Z.ltb_spec now t) as [Hlt|Hge]; simpl.
      * exists (nv + 1), ne. split; [f_equal; lia|]. split; [|split].
        -- apply counts_yes; [|done]. exists t. by rewrite Et.
        -- apply counts_no; [|done]. rewrite Et. intros (t' & [= <-] & Hle). lia.
        -- replace (nv + 1 + ne) with (nv + ne + 1) by lia.
           apply counts_yes; [|done]. by rewrite Et.
      * exists nv, (ne + 1). split; [f_equal; lia|]. split; [|split].
        -- apply counts_no; [|done]. rewrite Et. intros (t' & [= <-] & Hlt). lia.
        -- apply counts_yes; [|done]. exists t. by rewrite Et.
        -- replace (nv + (ne + 1)) with (nv + ne + 1) by lia.
           apply counts_yes; [|done]. by rewrite Et.
    + exists nv, ne. split; [done|]. split; [|split].
      * apply counts_no; [|done]. rewrite Et. by intros (t' & [=] & _).
      * apply counts_no; [|done]. rewrite Et. by intros (t' & [=] & _).
      * apply counts_no; [|done]. by rewrite Et.
Qed.

(** A list has one count only. *)
Lemma counts_functional {A : Type} (P : A -> Prop) (l : list A) (n m : Z) :
  counts P l n -> counts P l m -> n = m.
Proof.
  intros Hn. revert m. induction Hn as [|x l n Hx Hn IH|x l n Hx Hn IH];
    intros m Hm; inversion Hm; subst; try done.
  - f_equal. by apply IH.
  - by apply IH.
Qed.

End StatusFacts.

(** C5. For every contract list and every value of "now", the status
    aggregate counts a contract as "vigente" exactly when [parseDate] of its
    [fin_vigencia] is a valid date strictly after now, as "expirado" exactly
    when it is a valid date not strictly after now, and leaves the contracts
    whose [fin_vigencia] parses to an invalid date out of both counts; the
    aggregate is a total function, so no error is raised. *)
Theorem contractStatusData_counts (UTC : Z -> Z) (Date_parse : string -> Date)
    (now : Z) (contratos : list ContratoConProveedor) :
  exists nv ne,
    contractStatusData UTC Date_parse now contratos =
      [("Vigente", nv); ("Expirado", ne)] /\
    counts (endsAfter UTC Date_parse now) contratos nv /\
    counts (endsByNow UTC Date_parse now) contratos ne /\
    counts (fun c => isValid (parseDate UTC Date_parse (fin_vigencia (con c))) = true)
           contratos (nv + ne).
Proof.
  unfold contractStatusData.
  destruct (countStatus_foldl UTC Date_parse now contratos
              {| vigente := 0; expirado := 0 |}) as (nv & ne & -> & Hv & He & Hb).
  exists nv, ne. simpl. by repeat split.
Qed.

Section DictFacts.
Context {V : Type}.

Lemma dict_get_set (d : list (string * V)) (k k' : string) (v : V) :
  dict_get (dict_set d k v) k' = if String.eqb k k' then Some v else dict_get d k'.
Proof.
  induction d as [|[k0 v0] d IH]; simpl.
  - done.
  - destruct (String.eqb_spec k0 k) as [->|Hk]; simpl.
    + by destruct (String.eqb_spec k k').
    + rewrite IH. destruct (String.eqb_spec k0 k') as [->|Hk']; [|done].
      by destruct (String.eqb_spec k k').
Qed.

Lemma dict_get_In (d : list (string * V)) (k : string) (v : V) :
  dict_get d k = Some v -> In (k, v) d.
Proof.
  induction d as [|[k0 v0] d IH]; simpl; [done|].
  destruct (String.eqb_spec k0 k) as [->|Hk]; [|auto].
  intros [= ->]. by left.
Qed.

Lemma dict_get_None (d : list (string * V)) (k : string) :
  dict_get d k = None -> ~ In k (map fst d).
Proof.
  induction d as [|[k0 v0] d IH]; simpl; [tauto|].
  destruct (String.eqb_spec k0 k) as [->|Hk]; [done|].
  intros Hd [Hk'|Hin]; [done|]. by apply IH.
Qed.

Lemma dict_set_keys (d : list (string * V)) (k : string) (v : V) :
  map fst (dict_set d k v) =
  match dict_get d k with
  | Some _ => map fst d
  | None => (map fst d ++ [k])%list
  end.
Proof.
  induction d as [|[k0 v0] d IH]; simpl; [done|].
  destruct (String.eqb_spec k0 k) as [->|Hk]; simpl; [done|].
  rewrite IH. by destruct (dict_get d k).
Qed.

Lemma dict_set_NoDup (d : list (string * V)) (k : string) (v : V) :
  NoDup (map fst d) -> NoDup (map fst (dict_set d k v)).
Proof.
  intros Hnd. rewrite dict_set_keys.
  destruct (dict_get d k) eqn:E; [done|].
  apply dict_get_None in E. apply NoDup_app.
  split; [done|]. split.
  - intros x Hx [->|[]]%list_elem_of_In. by apply list_elem_of_In in Hx.
  - apply NoDup_singleton.
Qed.

Lemma In_dict_get (d : list (string * V)) (k : string) (v : V) :
  NoDup (map fst d) -> In (k, v) d -> dict_get d k = Some v.
Proof.
  induction d as [|[k0 v0] d IH]; simpl; [done|].
  rewrite NoDup_cons. intros [Hk0 Hnd] [[= -> ->]|Hin].
  - by rewrite String.eqb_refl.
  - destruct (String.eqb_spec k0 k) as [->|Hk]; [|by apply IH].
    exfalso. apply Hk0, list_elem_of_In. by apply (in_map fst) in Hin.
Qed.

Lemma Object_entries_Permutation (d : list (string * V)) :
  Permutation (Object_entries d) d.
Proof.
  unfold Object_entries. rewrite Array_sort_Permutation.
  induction d as [|e d IH]; simpl; [done|].
  destruct (isArrayIndex e); simpl.
  - by constructor.
  - rewrite <- Permutation_middle. by constructor.
Qed.

(** For a name that no object inherits, the object is a dictionary of its
    own properties. *)
Lemma dict_at_plain (d : list (string * V)) (k : string) :
  isInherited k = false ->
  dict_at d k = match dict_get d k with Some v => Own v | None => Missing end.
Proof. intros Hk. unfold dict_at, lookup_in. by rewrite Hk. Qed.

Lemma dict_assign_plain (d : list (string * V)) (k : string) (v : V) :
  isInherited k = false -> dict_assign d k v = dict_set d k v.
Proof.
  intros Hk. unfold dict_assign.
  destruct (String.eqb_spec k "__proto__") as [->|_]; [|done].
  by vm_compute in Hk.
Qed.

End DictFacts.

Section SpendingFacts.
Context (numberText : Z -> string) (functionText : string -> string).

Lemma addSpending_groupKey (spending : list (string * cell)) (c : ContratoConProveedor) :
  addSpending numberText functionText spending c =
  dict_assign spending (groupKey c)
    (orZeroPlus numberText functionText (groupKey c)
       (dict_at spending (groupKey c)) (monto_maximo (con c))).
Proof. unfold addSpending, groupKey. by destruct (proveedor c). Qed.

Lemma sumZ_app (l1 l2 : list Z) : sumZ (l1 ++ l2) = sumZ l1 + sumZ l2.
Proof. induction l1 as [|x l1 IH]; simpl; [done|]. rewrite IH. lia. Qed.

Lemma groupTotal_snoc (contratos : list ContratoConProveedor)
    (c : ContratoConProveedor) (k : string) :
  groupTotal (contratos ++ [c]) k =
  groupTotal contratos k +
  (if String.eqb (groupKey c) k then monto_maximo (con c) else 0).
Proof.
  unfold groupTotal. rewrite List.filter_app, map_app, sumZ_app. simpl.
  destruct (String.eqb (groupKey c) k); simpl; lia.
Qed.

Lemma groupTotal_absent (contratos : list ContratoConProveedor) (k : string) :
  existsb (fun c => String.eqb (groupKey c) k) contratos = false ->
  groupTotal contratos k = 0.
Proof.
  unfold groupTotal. induction contratos as [|c l IH]; simpl; [done|].
  intros [Hc Hl]%orb_false_iff. rewrite Hc. auto.
Qed.

(** After the loop over contracts with plain group names, the dictionary
    holds one entry for each group, and the entry is the total of the
    group. *)
Lemma spending_invariant (contratos : list ContratoConProveedor) :
  plainNames contratos ->
  NoDup (map fst (foldl (addSpending numberText functionText) [] contratos)) /\
  forall k,
    dict_get (foldl (addSpending numberText functionText) [] contratos) k =
    if existsb (fun c => String.eqb (groupKey c) k) contratos
    then Some (Num (groupTotal contratos k)) else None.
Proof.
  induction contratos as [|c l IH] using rev_ind; intros Hplain.
  - split; [constructor|done].
  - apply Forall_app in Hplain as [Hl Hc].
    apply List.Forall_cons_iff in Hc as [Hc _].
    destruct (IH Hl) as [IHnd IHget].
    rewrite foldl_app. simpl. rewrite addSpending_groupKey.
    rewrite dict_assign_plain, dict_at_plain by done. split.
    + by apply dict_set_NoDup.
    + intros k. rewrite dict_get_set, existsb_app, groupTotal_snoc. simpl.
      rewrite orb_false_r.
      destruct (String.eqb_spec (groupKey c) k) as [->|Hk].
      * rewrite orb_true_r, IHget.
        destruct (existsb (fun c0 => String.eqb (groupKey c0) k) l) eqn:E; simpl.
        -- done.
        -- by rewrite groupTotal_absent.
      * rewrite orb_false_r, IHget, Z.add_0_r. done.
Qed.

Lemma bar_eta (b : Bar) : {| name := name b; value := value b |} = b.
Proof. by destruct b. Qed.

End SpendingFacts.

(** C6, a defect of the code. Of two contracts without a resolved supplier,
    the first with the raw key "__proto__" and the amount 100, the second
    with the raw key "P9" and the amount 50, the first makes a group of its
    own under its raw key, with the total 100, which is to head the chart.
    The code reads [spending["__proto__"]], finds the prototype that every
    object inherits, and assigns to that name, which stores nothing: the
    chart has the bar of "P9" only. *)
Theorem spending_loses_inherited_group (numberText : Z -> string)
    (functionText : string -> string) :
  let lost := Examples.joined (Examples.contract 1 "C1" "__proto__" 100 "01/01/2020") None in
  let kept := Examples.joined (Examples.contract 2 "C2" "P9" 50 "01/01/2020") None in
  groupKey lost = "__proto__" /\
  groupTotal [lost; kept] "__proto__" = 100 /\
  groupTotal [lost; kept] "P9" = 50 /\
  addSpending numberText functionText [] lost = [] /\
  spendingBySupplierData numberText functionText [lost; kept] =
    [{| name := "P9"; value := Num 50 |}] /\
  totalMontoMaximo [lost; kept] = 150.
Proof. repeat split; reflexivity. Qed.

(* ===================================================================== *)
(** * The query bridge ([queryDataWithGemini], [handleQuery])             *)
(* ===================================================================== *)

Import GeminiService DataExplorerView.

Section FenceFacts.

Lemma append_nil_r (s : string) : (s ++ EmptyString)%string = s.
Proof. induction s as [|c s IH]; [done|]. by rewrite append_cons, IH. Qed.

Lemma append_assoc (a b c : string) : ((a ++ b) ++ c)%string = (a ++ (b ++ c))%string.
Proof. induction a as [|x a IH]; [done|]. by rewrite !append_cons, IH. Qed.

Lemma revString_append (acc a b : string) :
  revString acc (a ++ b) = revString (revString acc a) b.
Proof.
  revert acc. induction a as [|x a IH]; intros acc; [done|].
  rewrite append_cons. simpl. apply IH.
Qed.

Lemma revString_acc (acc s : string) :
  revString acc s = (revString EmptyString s ++ acc)%string.
Proof.
  revert acc. induction s as [|c s IH]; intros acc; simpl; [done|].
  rewrite (IH (String c acc)), (IH (String c EmptyString)).
  by rewrite append_assoc.
Qed.

Lemma revString_revString (s a b : string) :
  revString a (revString b s) = revString (s ++ a) b.
Proof.
  revert b. induction s as [|c s IH]; intros b; [done|].
  simpl. rewrite IH. by rewrite append_cons.
Qed.

Lemma revString_involutive (s : string) :
  revString EmptyString (revString EmptyString s) = s.
Proof. rewrite revString_revString. simpl. apply append_nil_r. Qed.

Lemma allChars_append (p : ascii -> bool) (a b : string) :
  allChars p (a ++ b) = allChars p a && allChars p b.
Proof.
  induction a as [|x a IH]; [done|].
  rewrite append_cons. simpl. rewrite IH. by rewrite andb_assoc.
Qed.

Lemma takeWhile_append (p : ascii -> bool) (a : string) (c : ascii) (x : string) :
  allChars p a = true -> p c = false -> takeWhile p (a ++ String c x) = a.
Proof.
  intros Ha Hc. induction a as [|y a IH].
  - change (EmptyString ++ String c x)%string with (String c x). simpl. by rewrite Hc.
  - rewrite append_cons. simpl in *. apply andb_true_iff in Ha as [-> Ha].
    by rewrite IH.
Qed.

Lemma dropWhile_append (p : ascii -> bool) (a : string) (c : ascii) (x : string) :
  allChars p a = true -> p c = false -> dropWhile p (a ++ String c x) = String c x.
Proof.
  intros Ha Hc. induction a as [|y a IH].
  - change (EmptyString ++ String c x)%string with (String c x). simpl. by rewrite Hc.
  - rewrite append_cons. simpl in *. apply andb_true_iff in Ha as [-> Ha]. auto.
Qed.

Lemma dropWhileEnd_append (p : ascii -> bool) (b w : string) :
  allChars p w = true -> dropWhileEnd p (b ++ w) = dropWhileEnd p b.
Proof.
  intros Hw. induction b as [|c b IH].
  - change (EmptyString ++ w)%string with w. destruct w as [|c w]; simpl; [done|].
    simpl in Hw. by rewrite Hw.
  - rewrite append_cons. simpl. rewrite allChars_append, Hw, andb_true_r, IH. done.
Qed.

(** A text that does not end with a character of [p] keeps its end. *)
Lemma dropWhileEnd_fixed (p : ascii -> bool) (s : string) (b : ascii) (r : string) :
  revString EmptyString s = String b r -> p b = false -> dropWhileEnd p s = s.
Proof.
  intros Hr Hb.
  assert (s = (revString EmptyString r ++ String b EmptyString)%string) as Hs.
  { rewrite <- (revString_involutive s), Hr. simpl. apply revString_acc. }
  clear Hr. rewrite Hs. clear Hs.
  induction (revString EmptyString r) as [|c x IH].
  - change (EmptyString ++ String b EmptyString)%string with (String b EmptyString).
    simpl. by rewrite Hb.
  - rewrite append_cons. simpl. rewrite allChars_append. simpl.
    rewrite Hb. rewrite !andb_false_r. by rewrite IH.
Qed.

Lemma bare_spec (body : string) :
  bare body = true ->
  exists a x, body = String a x /\ isSpace a = false /\
              dropWhileEnd isSpace body = body.
Proof.
  unfold bare. destruct body as [|a x]; [done|].
  destruct (revString EmptyString (String a x)) as [|b r] eqn:Hr; [done|].
  intros [Ha Hb]%andb_true_iff. apply negb_true_iff in Ha, Hb.
  exists a, x. split; [done|]. split; [done|].
  by apply (dropWhileEnd_fixed _ _ b r).
Qed.

Lemma trim_bare (body : string) : bare body = true -> trim body = body.
Proof.
  intros (a & x & -> & Ha & He)%bare_spec. unfold trim. simpl. by rewrite Ha.
Qed.

(** The fence is stripped from a fenced text. *)
Lemma stripFence_fenced (tag body : string) :
  allChars isWord tag = true -> bare body = true ->
  stripFence (fenced tag body) = body.
Proof.
  intros Htag Hbody.
  pose proof (trim_bare body Hbody) as Htrim.
  destruct (bare_spec body Hbody) as (a & x & Hax & Ha & He).
  set (mid := (tag ++ String "010" (body ++ String "010" EmptyString))%string).
  assert (fenced tag body =
          String "`" (String "`" (String "`" (mid ++ "```")))) as Hf.
  { unfold fenced, mid. rewrite (append_assoc tag), (append_cons "010"), (append_assoc body). reflexivity. }
  assert (revString EmptyString (mid ++ "```") =
          String "`" (String "`" (String "`" (revString EmptyString mid)))) as Hrev.
  { by rewrite revString_append. }
  unfold stripFence.
  assert (trim (fenced tag body) = fenced tag body) as ->.
  { rewrite Hf. unfold trim. simpl dropWhile.
    eapply dropWhileEnd_fixed.
    - simpl. rewrite revString_append. simpl. reflexivity.
    - reflexivity. }
  assert (dropWhileEnd isSpace (dropWhile isSpace (dropWhile isWord mid)) = body)
    as Hg2.
  { unfold mid. rewrite dropWhile_append by done.
    simpl dropWhile. rewrite Hax at 1. rewrite append_cons. simpl dropWhile.
    rewrite Ha. rewrite <- append_cons, <- Hax.
    rewrite dropWhileEnd_append by done. exact He. }
  rewrite Hf. unfold fenceMatch. rewrite Hrev, revString_involutive, Hg2, Htrim.
  rewrite Hax at 1. done.
Qed.

(** A text that does not open with a fence is only trimmed. *)
Lemma stripFence_plain (text : string) :
  startsWith "```" (trim text) = false -> stripFence text = trim text.
Proof.
  unfold stripFence, fenceMatch. intros H.
  destruct (trim text) as [|c1 [|c2 [|c3 rest]]]; try done;
    repeat (match goal with
            | |- context [match ?c with Ascii _ _ _ _ _ _ _ _ => _ end] => destruct c
            | |- context [if ?b then _ else _] => destruct b
            end; try done).
Qed.

End FenceFacts.

(** C8 (amended). The query bridge calls the service once, strips an
    optional surrounding triple-backquote fence (with an optional language
    tag) from the trimmed response text and parses the remainder as JSON; on
    any failure (the call rejected, the response without text, a remainder
    that is not JSON) it surfaces exactly one user-facing error message to
    the caller, which is the same fixed message in every case (the text of
    the transport or parse error goes to the console only) and which the
    view shows as it is, with no partial result and no retry. *)
Theorem query_bridge_single_message {json : Type} (JSON_parse : string -> json + string)
    (contextData : string) (st : State) (w : World) :
  trim (query st) <> EmptyString ->
  calls (handleQuery JSON_parse contextData st w).2 = S (calls w) /\
  isLoading (handleQuery JSON_parse contextData st w).1 = false /\
  match service w (calls w) (prompt (query st) contextData) with
  | Fulfilled (Some text) =>
      match JSON_parse (stripFence text) with
      | inl parsed =>
          (queryDataWithGemini JSON_parse (query st) contextData w).1 = inl parsed /\
          result (handleQuery JSON_parse contextData st w).1 = Some parsed /\
          error (handleQuery JSON_parse contextData st w).1 = None
      | inr _ =>
          (queryDataWithGemini JSON_parse (query st) contextData w).1 =
            inr failureMessage /\
          result (handleQuery JSON_parse contextData st w).1 = None /\
          error (handleQuery JSON_parse contextData st w).1 = Some failureMessage
      end
  | _ =>
      (queryDataWithGemini JSON_parse (query st) contextData w).1 = inr failureMessage /\
      result (handleQuery JSON_parse contextData st w).1 = None /\
      error (handleQuery JSON_parse contextData st w).1 = Some failureMessage
  end /\
  (forall tag body, allChars isWord tag = true -> bare body = true ->
                    stripFence (fenced tag body) = body) /\
  (forall text, startsWith "```" (trim text) = false -> stripFence text = trim text).
Proof.
  intros Hq. unfold handleQuery.
  destruct (String.eqb_spec (trim (query st)) EmptyString) as [Hq'|_]; [done|].
  unfold queryDataWithGemini, attempt, generateContent.
  split; [|split; [|split; [|split]]].
  - destruct (service w (calls w) _) as [m|[text|]]; try done.
    by destruct (JSON_parse (stripFence text)).
  - destruct (service w (calls w) _) as [m|[text|]]; try done.
    by destruct (JSON_parse (stripFence text)).
  - destruct (service w (calls w) _) as [m|[text|]]; try done.
    by destruct (JSON_parse (stripFence text)).
  - apply stripFence_fenced.
  - apply stripFence_plain.
Qed.

Lemma query_bridge_single_message_witness :
  trim (query Examples.asking) <> EmptyString /\
  calls (handleQuery Examples.parseOne "{}" Examples.asking Examples.down).2 = 1%nat.
Proof.
  assert (trim (query Examples.asking) <> EmptyString) as Hq by (vm_compute; discriminate).
  split; [exact Hq|].
  destruct (query_bridge_single_message Examples.parseOne "{}" Examples.asking
              Examples.down Hq) as (Hcalls & _).
  exact Hcalls.
Defined.

(** C8, as first stated, fails: the text of the transport error, or of the
    parse error, is not what the caller and the user get; they get the fixed
    message, and the text of the error is written to the console. *)
Lemma error_text_is_replaced :
  service Examples.down 0%nat (prompt (query Examples.asking) "{}") =
    Rejected "Network down" /\
  error (handleQuery Examples.parseOne "{}" Examples.asking Examples.down).1 =
    Some failureMessage /\
  error (handleQuery Examples.parseOne "{}" Examples.asking Examples.down).1 <>
    Some "Network down" /\
  console (handleQuery Examples.parseOne "{}" Examples.asking Examples.down).2 =
    ["Error querying Gemini API: Network down"] /\
  Examples.parseOne (stripFence "Sure! Here it is") = inr "Unexpected token" /\
  error (handleQuery Examples.parseOne "{}" Examples.asking Examples.chatty).1 =
    Some failureMessage /\
  error (handleQuery Examples.parseOne "{}" Examples.asking Examples.chatty).1 <>
    Some "Unexpected token".
Proof.
  repeat split; try reflexivity; vm_compute; discriminate.
Qed.

(* ===================================================================== *)
(** * The properties on the sample data                                   *)
(* ===================================================================== *)

Lemma compareItems_policy_witness :
  compareItems (Examples.byK desc) (Examples.row 1 VNull)
               (Examples.row 2 (VStr "Pera")) = 1 /\
  compareItems (Examples.byK desc) (Examples.row 2 (VStr "Pera"))
               (Examples.row 1 VNull) = -1 /\
  compareItems (Examples.byK asc)
               (Examples.row 1 (VStr (String Examples.A_acute "LAMO")))
               (Examples.row 2 (VStr (String Examples.a_acute "lamo"))) = 0 /\
  compareItems (Examples.byK desc) (Examples.row 1 (VStr "manzana"))
               (Examples.row 2 (VStr "Pera")) = 1 /\
  compareItems (Examples.byK asc) (Examples.row 1 (VNum 7))
               (Examples.row 2 (VNum 10)) = -1 /\
  compareItems (Examples.byK asc) (Examples.row 1 (VNum 7))
               (Examples.row 2 (VStr "7")) = 0.
Proof.
  split; [|split; [|split; [|split; [|split]]]].
  - destruct (compareItems_policy (Examples.byK desc) (Examples.row 1 VNull)
                (Examples.row 2 (VStr "Pera"))) as (Hnull & _).
    apply Hnull. reflexivity.
  - destruct (compareItems_policy (Examples.byK desc) (Examples.row 2 (VStr "Pera"))
                (Examples.row 1 VNull)) as (_ & Hnull & _).
    apply Hnull; reflexivity.
  - destruct (compareItems_policy (Examples.byK asc)
                (Examples.row 1 (VStr (String Examples.A_acute "LAMO")))
                (Examples.row 2 (VStr (String Examples.a_acute "lamo"))))
      as (_ & _ & Hstr & _).
    apply (Hstr (String Examples.A_acute "LAMO") (String Examples.a_acute "lamo"));
      reflexivity.
  - destruct (compareItems_policy (Examples.byK desc) (Examples.row 1 (VStr "manzana"))
                (Examples.row 2 (VStr "Pera"))) as (_ & _ & Hstr & _).
    apply (Hstr "manzana" "Pera"); reflexivity.
  - destruct (compareItems_policy (Examples.byK asc) (Examples.row 1 (VNum 7))
                (Examples.row 2 (VNum 10))) as (_ & _ & _ & Hnum & _).
    apply (Hnum 7 10); reflexivity.
  - destruct (compareItems_policy (Examples.byK asc) (Examples.row 1 (VNum 7))
                (Examples.row 2 (VStr "7"))) as (_ & _ & _ & _ & Hother).
    apply Hother; try reflexivity; intros [H1 H2]; discriminate.
Defined.

Lemma filteredData_search_witness :
  DataTable Examples.sampleText Examples.mixed ["k"] None EmptyString = Examples.mixed /\
  In (Examples.row 2 (VStr "Pera"))
     (DataTable Examples.sampleText Examples.mixed ["k"] None "PE") /\
  In (Examples.row 1 (VStr Examples.LEON))
     (DataTable Examples.sampleText [Examples.row 1 (VStr Examples.LEON)] ["k"] None
        Examples.leon) /\
  In (Examples.row 1 (VNum Examples.sextillion))
     (DataTable Examples.sampleText [Examples.row 1 (VNum Examples.sextillion)] ["k"]
        None "e+").
Proof.
  split; [|split; [|split]].
  - destruct (filteredData_search Examples.sampleText Examples.mixed None ["k"]
                EmptyString) as (Hempty & _).
    apply Hempty. reflexivity.
  - destruct (filteredData_search Examples.sampleText Examples.mixed None ["k"] "PE")
      as (_ & _ & Hin & _).
    apply Hin; [discriminate|]. split.
    + right. left. reflexivity.
    + exists "k". split; [left; reflexivity|]. split; [reflexivity|].
      exists EmptyString, "ra". reflexivity.
  - destruct (filteredData_search Examples.sampleText
                [Examples.row 1 (VStr Examples.LEON)] None ["k"] Examples.leon)
      as (_ & _ & Hin & _).
    apply Hin; [discriminate|]. split.
    + left. reflexivity.
    + exists "k". split; [left; reflexivity|]. split; [reflexivity|].
      exists EmptyString, EmptyString. reflexivity.
  - destruct (filteredData_search Examples.sampleText
                [Examples.row 1 (VNum Examples.sextillion)] None ["k"] "e+")
      as (_ & _ & Hin & _).
    apply Hin; [discriminate|]. split.
    + left. reflexivity.
    + exists "k". split; [left; reflexivity|]. split; [reflexivity|].
      exists "1", "21". by vm_compute.
Defined.

(** The join, the status counts and the search on the sample tables. *)
Example useData_sample :
  map (fun r => (contrato (con r), Types.proveedor <$> App.proveedor r,
                 map (fun a => (id_adjudicado (adj a),
                                descripcion_articulo <$> articulo a))
                     (App.adjudicados r)))
      (contratosConProveedor (useData Examples.tables)) =
  [("C1", Some "P1", [(1, Some "Frijol"); (3, Some "Frijol")]);
   ("C2", Some "P1", [(2, None)]);
   ("C3", None, [])].
Proof. reflexivity. Qed.

Example contractStatusData_sample :
  contractStatusData Examples.UTC0 Examples.noParse 1700000000000
    (contratosConProveedor (useData Examples.tables)) =
  [("Vigente", 1); ("Expirado", 1)].
Proof. reflexivity. Qed.

Example spendingBySupplierData_sample :
  spendingBySupplierData Examples.sampleText Examples.nativeText
    (contratosConProveedor (useData Examples.tables)) =
  [{| name := "P1"; value := Num 300 |}; {| name := "P9"; value := Num 50 |}].
Proof. reflexivity. Qed.

Example sortedItems_sample :
  map (fun r => prop r "k") (sortedItems Examples.letters (Some (Examples.byK asc))) =
  [VStr "A"; VStr "b"; VStr "c"] /\
  map (fun r => prop r "k") (sortedItems Examples.letters (Some (Examples.byK desc))) =
  [VStr "c"; VStr "b"; VStr "A"] /\
  map (fun r => prop r "id")
      (DataTable Examples.sampleText Examples.letters ["k"; "id"]
         (Some (Examples.byK asc)) "2") =
  [VNum 2].
Proof. repeat split; reflexivity. Qed.

(** A group under the name of an inherited function gets a text, not a sum;
    a month beyond the reach of the day arithmetic gives an invalid date. *)
Example inherited_function_sample :
  spendingBySupplierData Examples.sampleText Examples.nativeText
    [Examples.joined (Examples.contract 1 "C1" "constructor" 100 "01/01/2020") None;
     Examples.joined (Examples.contract 2 "C2" "constructor" 200 "01/01/2020") None] =
  [{| name := "constructor";
      value := Text "function Object() { [native code] }100200" |}].
Proof. reflexivity. Qed.

Example out_of_reach_sample :
  parseDate Examples.UTC0 Examples.noParse "1/10000002/-600000" = invalidDate.
Proof. reflexivity. Qed.

(** The letters of Spanish and the no-break space. *)
Example accented_order_sample :
  map (fun r => prop r "id")
      (sortedItems [Examples.row 1 (VStr (String Examples.a_acute "baco"));
                    Examples.row 2 (VStr (String Examples.A_acute "ngel"))]
         (Some (Examples.byK asc))) = [VNum 1; VNum 2] /\
  map (fun r => prop r "id")
      (sortedItems [Examples.row 1 (VStr (String Examples.N_tilde "ANDU"));
                    Examples.row 2 (VStr (String Examples.n_tilde "andu"))]
         (Some (Examples.byK desc))) = [VNum 1; VNum 2].
Proof. split; reflexivity. Qed.

Example latin1_sample :
  toLowerCase Examples.LEON = Examples.leon /\
  toLowerCase (String Examples.N_tilde "ANDU") = String Examples.n_tilde "andu" /\
  toLowerCase (String "215" (String "223" (String "255" EmptyString))) =
    String "215" (String "223" (String "255" EmptyString)) /\
  trim (String Examples.nbsp (String " " "x" ++ String Examples.nbsp EmptyString)) = "x" /\
  parseInt (String Examples.nbsp "12") = Some 12.
Proof. repeat split; reflexivity. Qed.

Example stripFence_sample :
  stripFence (fenced "json" "[1]") = "[1]" /\
  Examples.parseOne (stripFence (fenced "json" "[1]")) = inl 1%nat.
Proof. split; reflexivity. Qed.

(* ===================================================================== *)
(** * Further properties of the sortable table                            *)
(* ===================================================================== *)

Section StableSort.
Context {A : Type} (cmp : A -> A -> Z) (p : A -> bool).
Hypothesis tied : forall a b, p a = true -> p b = true -> 0 <= cmp a b.

Lemma sort_insert_filter_out (x : A) (s : list A) :
  p x = false -> List.filter p (sort_insert cmp x s) = List.filter p s.
Proof.
  intros Hx. induction s as [|y s IH]; simpl.
  - by rewrite Hx.
  - destruct (cmp y x <? 0); simpl.
    + by rewrite IH.
    + by rewrite Hx.
Qed.

Lemma sort_insert_filter_in (x : A) (s : list A) :
  p x = true -> List.filter p (sort_insert cmp x s) = x :: List.filter p s.
Proof.
  intros Hx. induction s as [|y s IH]; simpl.
  - by rewrite Hx.
  - destruct (cmp y x <? 0) eqn:E; simpl.
    + destruct (p y) eqn:Hy.
      * pose proof (tied y x Hy Hx). lia.
      * exact IH.
    + by rewrite Hx.
Qed.

(** Elements that the comparator never puts one before the other keep the
    order they had. *)
Lemma Array_sort_stable (l : list A) :
  List.filter p (Array_sort cmp l) = List.filter p l.
Proof.
  induction l as [|x l IH]; simpl; [done|].
  destruct (p x) eqn:Hx.
  - by rewrite sort_insert_filter_in, IH.
  - by rewrite sort_insert_filter_out, IH.
Qed.

End StableSort.

Section OrderedSort.
Context {A : Type} (cmp : A -> A -> Z) (Q : A -> Prop) (R : A -> A -> Prop).
Hypothesis cmp_asym : forall a b, cmp a b < 0 -> 0 <= cmp b a.
Hypothesis R_cmp : forall e f, 0 <= cmp f e -> R e f.
Hypothesis R_trans : forall a b c, Q a -> Q b -> Q c -> R a b -> R b c -> R a c.

Lemma Sorted_Forall_both (l : list A) :
  Sorted R l -> Forall Q l -> Sorted (fun e f => Q e /\ Q f /\ R e f) l.
Proof.
  induction 1 as [|x l Hl IH Hhd]; intros HQ; [constructor|].
  apply List.Forall_cons_iff in HQ as [Hx HQ].
  constructor; [by apply IH|].
  destruct Hhd as [|y l' Hxy]; constructor.
  apply List.Forall_cons_iff in HQ as [Hy _]. done.
Qed.

(** On elements of one kind, which the relation orders transitively, the
    sorted list is in order from every element to every later one. *)
Lemma Array_sort_ordered (l : list A) :
  Forall Q l -> StronglySorted R (Array_sort cmp l).
Proof.
  intros HQ.
  apply (StronglySorted_weaken (fun e f => Q e /\ Q f /\ R e f)); [tauto|].
  apply Sorted.Sorted_StronglySorted.
  - intros a b c (Ha & Hb & Hab) (_ & Hc & Hbc). eauto.
  - apply Sorted_Forall_both.
    + apply (Sorted_weaken (fun e f => 0 <= cmp f e)); [done|].
      by apply Array_sort_Sorted.
    + eapply Permutation_Forall; [symmetry; apply Array_sort_Permutation|done].
Qed.

End OrderedSort.

Section OrderedTable.
Context (k : string).

Lemma string_compare_refl (s : string) : String.compare s s = Eq.
Proof.
  induction s as [|c s IH]; simpl; [done|].
  unfold Ascii.compare. by rewrite N.compare_refl.
Qed.

Lemma keyLt_negative_trans (a b c : gmap string JS.value) :
  (match prop a k, prop b k, prop c k with
   | VStr _, VStr _, VStr _ | VNum _, VNum _, VNum _ => True
   | _, _, _ => False
   end) ->
  ~ keyLt k b a -> ~ keyLt k c b -> ~ keyLt k c a.
Proof.
  unfold keyLt.
  destruct (prop a k) as [| | |na|sa|], (prop b k) as [| | |nb|sb|],
    (prop c k) as [| | |nc|sc|]; try done; intros _ Hba Hcb.
  - lia.
  - intros Hca.
    destruct (String.compare (toLowerCase sc) (toLowerCase sb)) eqn:Ecb; [|done|].
    + apply String.compare_eq_iff in Ecb. rewrite Ecb in Hca. done.
    + apply Hba. apply (string_compare_Lt_trans _ (toLowerCase sc)); [|done].
      rewrite (string_compare_flip (toLowerCase sc) (toLowerCase sb)), Ecb. done.
Qed.

Lemma compareItems_not_before (d : SortDirection) (e f : gmap string JS.value) :
  0 <= compareItems {| key := k; direction := d |} f e ->
  match d with asc => ~ keyLt k f e | desc => ~ keyLt k e f end.
Proof.
  intros Hc. destruct d; intros Hlt.
  - apply (keyLt_compare k asc) in Hlt as [Hlt _]. rewrite Hlt in Hc. simpl in Hc. lia.
  - apply (keyLt_compare k desc) in Hlt as [_ Hgt]. rewrite Hgt in Hc. simpl in Hc. lia.
Qed.

End OrderedTable.

(** X1. Sorting keeps the rows: for every data array and every sort
    configuration, the sorted rows are the input rows in another order; no row
    is lost, added or repeated. *)
Theorem sortedItems_keeps_rows (items : list (gmap string JS.value))
    (sortConfig : option SortConfig) :
  Permutation (sortedItems items sortConfig) items /\
  length (sortedItems items sortConfig) = length items.
Proof.
  assert (Permutation (sortedItems items sortConfig) items) as Hp.
  { destruct sortConfig as [c|]; simpl; [apply Array_sort_Permutation|done]. }
  split; [done|]. by apply Permutation_length.
Qed.

(** X2. When the values at a key are all strings or all numbers, the rows
    sorted ascending on that key go from smaller to larger values (no row is
    followed, however far, by a row with a smaller value), and the rows
    sorted descending go from larger to smaller; strings count by their
    lower-case writing. *)
Theorem sortedItems_in_order (items : list (gmap string JS.value)) (k : string) :
  allComparable k items = true ->
  StronglySorted (fun e f => ~ keyLt k f e)
    (sortedItems items (Some {| key := k; direction := asc |})) /\
  StronglySorted (fun e f => ~ keyLt k e f)
    (sortedItems items (Some {| key := k; direction := desc |})).
Proof.
  intros Hall. simpl.
  assert (exists Q : gmap string JS.value -> Prop,
            Forall Q items /\
            forall a b c, Q a -> Q b -> Q c ->
              match prop a k, prop b k, prop c k with
              | VStr _, VStr _, VStr _ | VNum _, VNum _, VNum _ => True
              | _, _, _ => False
              end) as (Q & HQ & Hkind).
  { unfold allComparable in Hall. apply orb_true_iff in Hall as [H|H].
    - exists (fun r => match prop r k with VStr _ => True | _ => False end).
      split.
      + apply List.Forall_forall. intros r Hr. rewrite forallb_forall in H.
        specialize (H r Hr). by destruct (prop r k).
      + intros a b c. by destruct (prop a k), (prop b k), (prop c k).
    - exists (fun r => match prop r k with VNum _ => True | _ => False end).
      split.
      + apply List.Forall_forall. intros r Hr. rewrite forallb_forall in H.
        specialize (H r Hr). by destruct (prop r k).
      + intros a b c. by destruct (prop a k), (prop b k), (prop c k). }
  split.
  - apply (Array_sort_ordered _ Q); [apply compareItems_asym| |
      |done].
    + intros e f. apply (compareItems_not_before k asc).
    + intros a b c Ha Hb Hc. apply keyLt_negative_trans. by apply Hkind.
  - apply (Array_sort_ordered _ Q); [apply compareItems_asym| | |done].
    + intros e f. apply (compareItems_not_before k desc).
    + intros a b c Ha Hb Hc Hab Hbc. apply (keyLt_negative_trans k c b a); [|done..].
      specialize (Hkind a b c Ha Hb Hc).
      by destruct (prop a k), (prop b k), (prop c k).
Qed.

Lemma sortedItems_in_order_witness :
  StronglySorted (fun e f => ~ keyLt "k" f e)
    (sortedItems Examples.letters (Some (Examples.byK asc))).
Proof.
  apply (sortedItems_in_order Examples.letters "k"). reflexivity.
Defined.

(** X3. The sort is stable on equal values: for every data array whose
    values at the sort key are all strings or all numbers, every direction
    and every value, the rows that hold that value at the sort key come out
    in the order they had in the input. *)
Theorem sortedItems_stable (items : list (gmap string JS.value)) (c : SortConfig)
    (v : JS.value) :
  allComparable (key c) items = true ->
  List.filter (fun r => bool_decide (prop r (key c) = v)) (sortedItems items (Some c)) =
  List.filter (fun r => bool_decide (prop r (key c) = v)) items.
Proof.
  intros _. simpl. apply Array_sort_stable. intros a b Ha Hb.
  apply bool_decide_eq_true in Ha, Hb. unfold compareItems. rewrite Ha, Hb.
  destruct v as [| | |n|s|]; simpl; try lia.
  - rewrite Z.ltb_irrefl. lia.
  - unfold String.ltb. rewrite string_compare_refl. lia.
Qed.

Lemma sortedItems_stable_witness :
  List.filter (fun r => bool_decide (prop r (key (Examples.byK asc)) = VNum 5))
    (sortedItems (Examples.falling ++ Examples.tied) (Some (Examples.byK asc))) =
  List.filter (fun r => bool_decide (prop r (key (Examples.byK asc)) = VNum 5))
    (Examples.falling ++ Examples.tied).
Proof.
  apply (sortedItems_stable (Examples.falling ++ Examples.tied) (Examples.byK asc)
           (VNum 5)).
  reflexivity.
Defined.

(** X4. Clicking the same header again and again alternates the direction,
    starting with ascending: after an odd number of clicks on a key, from the
    initial state, the table is sorted ascending on it, after an even number
    of clicks descending. *)
Theorem afterClicks_same_header (k : string) (n : nat) :
  afterClicks (replicate (S n) k) =
  Some {| key := k; direction := if Nat.even n then asc else desc |}.
Proof.
  induction n as [|n IH].
  - reflexivity.
  - replace (replicate (S (S n)) k) with (replicate (S n) k ++ [k])%list.
    + rewrite afterClicks_snoc, IH. unfold requestSort. simpl key. simpl direction.
      rewrite String.eqb_refl. rewrite Nat.even_succ, <- Nat.negb_even.
      by destruct (Nat.even n).
    + change [k] with (replicate 1 k). rewrite <- replicate_add.
      f_equal. lia.
Qed.

(** X5. The headers show the sort state: before any click no header shows an
    icon; after a click on a key, the header of that key, and no other,
    shows one, the up chevron when the direction is ascending and the down
    chevron when it is descending. *)
Theorem directionIcon_marks_last_click :
  (forall sortKey, directionIcon (afterClicks []) sortKey = None) /\
  (forall clicks k, exists d,
     afterClicks (clicks ++ [k]) = Some {| key := k; direction := d |} /\
     directionIcon (afterClicks (clicks ++ [k])) k =
       Some (match d with asc => FaChevronUp | desc => FaChevronDown end) /\
     forall sortKey, sortKey <> k ->
       directionIcon (afterClicks (clicks ++ [k])) sortKey = None).
Proof.
  split; [done|]. intros clicks k. rewrite afterClicks_snoc.
  destruct (requestSort_Some (afterClicks clicks) k) as (d & -> & _).
  exists d. split; [done|]. unfold directionIcon. simpl. split.
  - rewrite String.eqb_refl. by destruct d.
  - intros sortKey Hne. by destruct (String.eqb_spec k sortKey).
Qed.

Section MoreSearchFacts.

Lemma toLowerCase_empty (s : string) : toLowerCase s = EmptyString <-> s = EmptyString.
Proof. by destruct s. Qed.

Lemma toLowerCase_append (s t : string) :
  toLowerCase (s ++ t) = (toLowerCase s ++ toLowerCase t)%string.
Proof.
  induction s as [|c s IH]; [done|].
  rewrite append_cons. simpl. by rewrite IH, append_cons.
Qed.

Lemma filter_sublist_impl {A : Type} (f g : A -> bool) (l : list A) :
  (forall x, f x = true -> g x = true) ->
  sublist (List.filter f l) (List.filter g l).
Proof.
  intros Hfg. induction l as [|x l IH]; simpl; [constructor|].
  destruct (f x) eqn:Hf.
  - rewrite (Hfg x Hf). by constructor.
  - destruct (g x); [by constructor|done].
Qed.

Lemma includes_inside (s u t v : string) :
  includes s (u ++ t ++ v) = true -> includes s t = true.
Proof.
  rewrite !includes_spec. intros (pre & post & ->).
  exists (pre ++ u)%string, (v ++ post)%string.
  by rewrite !append_assoc.
Qed.

End MoreSearchFacts.

(** X6. The search does not look at the letter case of the term: two terms
    that are equal once lower-cased give the same rows, for every data array,
    key list and sort configuration. *)
Theorem search_ignores_term_case (numberText : Z -> string)
    (data : list (gmap string JS.value))
    (searchKeys : list string) (sortConfig : option SortConfig) (t t' : string) :
  toLowerCase t = toLowerCase t' ->
  DataTable numberText data searchKeys sortConfig t =
  DataTable numberText data searchKeys sortConfig t'.
Proof.
  intros Heq. unfold DataTable, filteredData. rewrite Heq.
  destruct (String.eqb_spec t EmptyString) as [->|Ht];
    destruct (String.eqb_spec t' EmptyString) as [->|Ht']; try done.
  - simpl in Heq. symmetry in Heq. by apply (proj1 (toLowerCase_empty t')) in Heq.
  - simpl in Heq. by apply (proj1 (toLowerCase_empty t)) in Heq.
Qed.

Lemma search_ignores_term_case_witness :
  DataTable Examples.sampleText Examples.mixed ["k"] None "PE" =
  DataTable Examples.sampleText Examples.mixed ["k"] None "pe".
Proof.
  apply (search_ignores_term_case Examples.sampleText Examples.mixed ["k"] None "PE" "pe").
  reflexivity.
Defined.

(** X7. A longer term narrows the search, on the strings of the embedding
    (characters up to U+00FF, which [toLowerCase] maps one by one): for
    every sorted row list and key list, the rows found for a term that
    contains [t] (with anything before and after it) are a subsequence of
    the rows found for [t]. *)
Theorem search_narrows (numberText : Z -> string)
    (sortedData : list (gmap string JS.value))
    (searchKeys : list string) (u t v : string) :
  sublist (filteredData numberText sortedData (u ++ t ++ v) searchKeys)
          (filteredData numberText sortedData t searchKeys).
Proof.
  unfold filteredData.
  destruct (String.eqb_spec t EmptyString) as [->|Ht].
  - destruct (String.eqb (u ++ EmptyString ++ v) EmptyString); [done|].
    apply filter_sublist.
  - destruct (String.eqb_spec (u ++ t ++ v) EmptyString) as [He|_].
    + exfalso. destruct u; [destruct t|]; done.
    + apply filter_sublist_impl. intros item.
      rewrite !existsb_exists. intros (k & Hk & Hm). exists k. split; [done|].
      apply andb_true_iff in Hm as [Hn Hi]. rewrite Hn. simpl.
      rewrite !toLowerCase_append in Hi. by apply includes_inside in Hi.
Qed.

(** X8. The search keys decide what is searched: with a non-empty term and
    no search key no row is found, and adding search keys can only add rows
    (the rows found before stay, in their order). *)
Theorem search_keys_widen (numberText : Z -> string)
    (sortedData : list (gmap string JS.value))
    (searchKeys moreKeys : list string) (t : string) :
  (t <> EmptyString -> filteredData numberText sortedData t [] = []) /\
  sublist (filteredData numberText sortedData t searchKeys)
          (filteredData numberText sortedData t (searchKeys ++ moreKeys)).
Proof.
  unfold filteredData. split.
  - intros Ht. destruct (String.eqb_spec t EmptyString) as [|_]; [done|].
    simpl. by induction sortedData.
  - destruct (String.eqb t EmptyString); [done|].
    apply filter_sublist_impl. intros item. rewrite existsb_app.
    intros ->. done.
Qed.

Lemma search_keys_widen_witness :
  filteredData Examples.sampleText Examples.mixed "pe" [] = [].
Proof.
  apply (search_keys_widen Examples.sampleText Examples.mixed [] [] "pe"). discriminate.
Defined.

(* ===================================================================== *)
(** * Further properties of the query bridge                              *)
(* ===================================================================== *)

Section TrimFacts.
Context (p : ascii -> bool).

Lemma dropWhile_all (s : string) : allChars p s = true -> dropWhile p s = EmptyString.
Proof.
  induction s as [|c s IH]; simpl; [done|].
  intros [-> Hs]%andb_true_iff. auto.
Qed.

Lemma dropWhile_append_all (a x : string) :
  allChars p a = true -> dropWhile p (a ++ x) = dropWhile p x.
Proof.
  induction a as [|c a IH]; [done|].
  rewrite append_cons. simpl. intros [-> Ha]%andb_true_iff. auto.
Qed.

Lemma dropWhile_head (s : string) :
  dropWhile p s = EmptyString \/
  exists c r, dropWhile p s = String c r /\ p c = false.
Proof.
  induction s as [|c s IH]; simpl; [by left|].
  destruct (p c) eqn:Hc; [done|]. right. by exists c, s.
Qed.

Lemma dropWhile_some (s : string) :
  allChars p s = false -> dropWhile p s <> EmptyString.
Proof.
  induction s as [|c s IH]; simpl; [done|].
  destruct (p c); simpl; [done|]. intros _. discriminate.
Qed.

Lemma allChars_dropWhileEnd (s : string) :
  allChars p (dropWhileEnd p s) = allChars p s.
Proof.
  induction s as [|c s IH]; [done|].
  simpl. destruct (p c && allChars p s) eqn:E; simpl; [done|].
  by rewrite IH.
Qed.

Lemma dropWhileEnd_idempotent (s : string) :
  dropWhileEnd p (dropWhileEnd p s) = dropWhileEnd p s.
Proof.
  induction s as [|c s IH]; [done|].
  simpl. destruct (p c && allChars p s) eqn:E; simpl; [done|].
  by rewrite allChars_dropWhileEnd, E, IH.
Qed.

End TrimFacts.

Section MoreFenceFacts.

Lemma trim_all_space (s : string) : allChars isSpace s = true -> trim s = EmptyString.
Proof. intros Hs. unfold trim. by rewrite dropWhile_all. Qed.

Lemma trim_some (s : string) : allChars isSpace s = false -> trim s <> EmptyString.
Proof.
  intros Hs. unfold trim.
  destruct (dropWhile_head isSpace s) as [He|(c & r & Hd & Hc)].
  - by apply dropWhile_some in Hs.
  - rewrite Hd. simpl. by rewrite Hc.
Qed.

Lemma trim_idempotent (s : string) : trim (trim s) = trim s.
Proof.
  unfold trim.
  destruct (dropWhile_head isSpace s) as [->|(c & r & -> & Hc)]; [done|].
  assert (dropWhileEnd isSpace (String c r) = String c (dropWhileEnd isSpace r)) as He.
  { simpl. by rewrite Hc. }
  rewrite He. simpl dropWhile. rewrite Hc, <- He.
  apply dropWhileEnd_idempotent.
Qed.

Lemma space_not_word (c : ascii) : isSpace c = true -> isWord c = false.
Proof. destruct c as [[] [] [] [] [] [] [] []]; by vm_compute. Qed.

Lemma dropWhile_word_space (ws : string) :
  allChars isSpace ws = true -> dropWhile isWord ws = ws.
Proof.
  destruct ws as [|c ws]; simpl; [done|].
  intros [Hc _]%andb_true_iff. by rewrite (space_not_word c Hc).
Qed.

End MoreFenceFacts.

(** X9. A query that is empty or made of white space only does nothing: the
    state and the world stay as they are, and the service is not called;
    any other query makes exactly one call. *)
Theorem handleQuery_blank {json : Type} (JSON_parse : string -> json + string)
    (contextData : string) (st : State) (w : World) :
  (allChars isSpace (query st) = true ->
   handleQuery JSON_parse contextData st w = (st, w)) /\
  (allChars isSpace (query st) = false ->
   calls (handleQuery JSON_parse contextData st w).2 = S (calls w)).
Proof.
  unfold handleQuery. split; intros Hq.
  - by rewrite (trim_all_space _ Hq).
  - apply trim_some in Hq.
    destruct (String.eqb_spec (trim (query st)) EmptyString) as [|_]; [done|].
    unfold queryDataWithGemini, attempt, generateContent.
    destruct (service w (calls w) _) as [m|[text|]]; try done.
    by destruct (JSON_parse (stripFence text)).
Qed.

Lemma handleQuery_blank_witness :
  handleQuery Examples.parseOne "{}"
    {| query := String Examples.nbsp "  "; isLoading := false;
       result := None; error := None |}
    Examples.down =
  ({| query := String Examples.nbsp "  "; isLoading := false;
      result := None; error := None |},
   Examples.down) /\
  calls (handleQuery Examples.parseOne "{}" Examples.asking Examples.down).2 = 1%nat.
Proof.
  split.
  - apply (handleQuery_blank Examples.parseOne "{}"
             {| query := String Examples.nbsp "  "; isLoading := false;
                result := None; error := None |}
             Examples.down).
    reflexivity.
  - apply (handleQuery_blank Examples.parseOne "{}" Examples.asking Examples.down).
    reflexivity.
Defined.

(** X10. The bridge calls the service exactly once with the prompt built
    from the query and the context, and leaves the service as it is. When it
    succeeds it writes nothing to the console; when it fails it writes
    exactly one line, which carries the text of the error that made it fail
    (the rejection of the call, the missing response text, or the error of
    the JSON parser). *)
Theorem queryDataWithGemini_logs {json : Type} (JSON_parse : string -> json + string)
    (query contextData : string) (w : World) :
  calls (queryDataWithGemini JSON_parse query contextData w).2 = S (calls w) /\
  service (queryDataWithGemini JSON_parse query contextData w).2 = service w /\
  match (queryDataWithGemini JSON_parse query contextData w).1 with
  | inl parsed =>
      console (queryDataWithGemini JSON_parse query contextData w).2 = console w /\
      exists text,
        service w (calls w) (prompt query contextData) = Fulfilled (Some text) /\
        JSON_parse (stripFence text) = inl parsed
  | inr message =>
      message = failureMessage /\
      exists e : string,
        console (queryDataWithGemini JSON_parse query contextData w).2 =
          (console w ++ [("Error querying Gemini API: " ++ e)%string])%list /\
        (service w (calls w) (prompt query contextData) = Rejected e \/
         service w (calls w) (prompt query contextData) = Fulfilled None \/
         exists text,
           service w (calls w) (prompt query contextData) = Fulfilled (Some text) /\
           JSON_parse (stripFence text) = inr e)
  end.
Proof.
  unfold queryDataWithGemini, attempt, generateContent.
  destruct (service w (calls w) (prompt query contextData)) as [m|[text|]].
  - repeat split. exists m. split; [done|]. by left.
  - destruct (JSON_parse (stripFence text)) as [parsed|e] eqn:E.
    + repeat split. by exists text.
    + repeat split. exists e. split; [done|]. right. right. by exists text.
  - repeat split. eexists. split; [done|]. right. by left.
Qed.

(** X11. The text handed to the JSON parser never begins or ends with white
    space: stripping the fence gives a trimmed text, for every response
    text. *)
Theorem stripFence_trimmed (text : string) : trim (stripFence text) = stripFence text.
Proof.
  unfold stripFence. destruct (fenceMatch (trim text)) as [[g1 g2]|].
  - destruct (String.eqb g2 EmptyString); apply trim_idempotent.
  - apply trim_idempotent.
Qed.

(** X12. A fence with nothing but word characters and white space inside is
    left in place: the word characters count as the language tag, the group
    for the body is empty, and the text goes to the JSON parser with its
    fences (so a bare number or [true] fenced on one line is not parsed). *)
Theorem stripFence_empty_body (tag ws : string) :
  allChars isWord tag = true -> allChars isSpace ws = true ->
  stripFence ("```" ++ tag ++ ws ++ "```") = ("```" ++ tag ++ ws ++ "```")%string.
Proof.
  intros Htag Hws.
  set (mid := (tag ++ ws)%string).
  assert (("```" ++ tag ++ ws ++ "```")%string =
          String "`" (String "`" (String "`" (mid ++ "```")))) as Hf.
  { unfold mid. by rewrite (append_assoc tag). }
  assert (revString EmptyString (mid ++ "```") =
          String "`" (String "`" (String "`" (revString EmptyString mid)))) as Hrev.
  { by rewrite revString_append. }
  assert (dropWhileEnd isSpace (dropWhile isSpace (dropWhile isWord mid)) = EmptyString)
    as Hg2.
  { unfold mid. rewrite dropWhile_append_all by done.
    rewrite dropWhile_word_space by done. by rewrite dropWhile_all. }
  unfold stripFence.
  assert (trim ("```" ++ tag ++ ws ++ "```") = ("```" ++ tag ++ ws ++ "```")%string) as ->.
  { rewrite Hf. unfold trim. simpl dropWhile.
    eapply dropWhileEnd_fixed.
    - simpl. rewrite revString_append. simpl. reflexivity.
    - reflexivity. }
  rewrite Hf. unfold fenceMatch. rewrite Hrev, revString_involutive, Hg2. done.
Qed.

Lemma stripFence_empty_body_witness : stripFence "```true```" = "```true```".
Proof. apply (stripFence_empty_body "true" EmptyString); reflexivity. Defined.

(* ===================================================================== *)
(** * Further properties of the join layer and of the aggregates          *)
(* ===================================================================== *)

Section MoreAggregateFacts.
Context (numberText : Z -> string) (functionText : string -> string).

Lemma totalMontoMaximo_sum (contratos : list ContratoConProveedor) :
  totalMontoMaximo contratos = sumZ (map (fun c => monto_maximo (con c)) contratos).
Proof.
  unfold totalMontoMaximo.
  assert (forall acc, foldl (fun sum c => sum + monto_maximo (con c)) acc contratos =
                      acc + sumZ (map (fun c => monto_maximo (con c)) contratos)) as H.
  { induction contratos as [|c l IH]; intros acc; simpl; [lia|]. rewrite IH. lia. }
  by rewrite H.
Qed.

Lemma sumZ_Permutation (l l' : list Z) : Permutation l l' -> sumZ l = sumZ l'.
Proof. induction 1; simpl; lia. Qed.

(** The number a value of the dictionary holds. *)
Let amount (v : cell) : Z := match v with Num n => n | Text _ => 0 end.

(** After the loop over contracts with plain group names the values of the
    dictionary are numbers. *)
Lemma spending_numbers (contratos : list ContratoConProveedor) :
  plainNames contratos ->
  Forall (fun e : string * cell => e.2 = Num (amount e.2))
         (foldl (addSpending numberText functionText) [] contratos).
Proof.
  intros Hplain.
  destruct (spending_invariant numberText functionText contratos Hplain) as [Hnd Hget].
  apply List.Forall_forall. intros [k v] Hin. simpl.
  apply In_dict_get in Hin; [|done]. rewrite Hget in Hin.
  destruct (existsb _ contratos); [|done]. by injection Hin as <-.
Qed.

Lemma dict_set_amounts (d : list (string * cell)) (k : string) (m : Z) :
  sumZ (map (fun e => amount e.2)
          (dict_set d k (Num (match dict_get d k with
                              | Some v => amount v
                              | None => 0
                              end + m)))) =
  sumZ (map (fun e => amount e.2) d) + m.
Proof.
  induction d as [|[k0 v0] d IH]; simpl; [lia|].
  destruct (String.eqb k0 k); simpl; [lia|]. rewrite IH. lia.
Qed.

Lemma spending_sum (contratos : list ContratoConProveedor) :
  plainNames contratos ->
  sumZ (map (fun e => amount e.2)
          (foldl (addSpending numberText functionText) [] contratos)) =
  sumZ (map (fun c => monto_maximo (con c)) contratos).
Proof.
  induction contratos as [|c l IH] using rev_ind; intros Hplain; [done|].
  pose proof Hplain as Hall.
  apply Forall_app in Hplain as [Hl Hc].
  apply List.Forall_cons_iff in Hc as [Hc _].
  rewrite foldl_app, map_app, sumZ_app. simpl.
  rewrite addSpending_groupKey, dict_assign_plain, dict_at_plain by done.
  rewrite <- (IH Hl), Z.add_0_r.
  rewrite <- (dict_set_amounts _ (groupKey c) (monto_maximo (con c))).
  pose proof (spending_numbers l Hl) as Hnum.
  destruct (dict_get _ (groupKey c)) as [v|] eqn:E; [|done].
  apply dict_get_In in E. rewrite List.Forall_forall in Hnum.
  specialize (Hnum _ E). simpl in Hnum. rewrite Hnum. done.
Qed.

(** The keys of the dictionary are the groups of the contracts, each once. *)
Lemma spending_keys (contratos : list ContratoConProveedor) :
  plainNames contratos ->
  Permutation (map fst (foldl (addSpending numberText functionText) [] contratos))
              (remove_dups (map groupKey contratos)).
Proof.
  intros Hplain.
  destruct (spending_invariant numberText functionText contratos Hplain) as [Hnd Hget].
  apply NoDup_Permutation; [done|apply NoDup_remove_dups|].
  intros k. rewrite elem_of_remove_dups, !list_elem_of_In.
  specialize (Hget k). split.
  - intros Hin. apply in_map_iff.
    destruct (existsb (fun c0 => String.eqb (groupKey c0) k) contratos) eqn:Ex.
    + apply existsb_exists in Ex as (c & Hc & Hk).
      exists c. split; [by apply String.eqb_eq|done].
    + by apply dict_get_None in Hget.
  - intros (c & Hk & Hc)%in_map_iff.
    assert (existsb (fun c0 => String.eqb (groupKey c0) k) contratos = true) as Ex.
    { apply existsb_exists. exists c. split; [done|]. by apply String.eqb_eq. }
    rewrite Ex in Hget. apply dict_get_In in Hget.
    by apply (in_map fst) in Hget.
Qed.

Lemma joined_groupKey (d : AllData) (c : ContratoConProveedor) :
  In c (contratosConProveedor (useData d)) -> groupKey c = proveedor_fk (con c).
Proof.
  unfold useData. simpl. rewrite in_map_iff. intros (C & <- & _).
  unfold groupKey. simpl.
  pose proof (Map_new_resolves Types.proveedor (proveedores d) (proveedor_fk C)) as Hr.
  destruct (Map_new _ !! proveedor_fk C) as [p|]; [|done].
  by destruct Hr as (l1 & l2 & _ & Hp & _).
Qed.

Lemma joined_con (d : AllData) :
  map con (contratosConProveedor (useData d)) = contratos d.
Proof.
  unfold useData. simpl. rewrite map_map. simpl. apply map_id.
Qed.

(** The loop looks at a contract through its group name and its amount. *)
Lemma spending_loop_ext (l l' : list ContratoConProveedor)
    (spending : list (string * cell)) :
  Forall2 (fun c c' => groupKey c = groupKey c' /\
                       monto_maximo (con c) = monto_maximo (con c')) l l' ->
  foldl (addSpending numberText functionText) spending l =
  foldl (addSpending numberText functionText) spending l'.
Proof.
  intros H. revert spending.
  induction H as [|c c' l l' [Hk Hm] Hl IH]; intros spending; simpl; [done|].
  rewrite !addSpending_groupKey, Hk, Hm. apply IH.
Qed.

End MoreAggregateFacts.

(** X13. On the joined data the chart groups by the raw key: a supplier that
    [useData] resolves for a contract bears the contract's [proveedor_fk] as
    its name, so the chart of the joined contracts, resolved or not, is the
    chart these contracts give when none of them has a resolved supplier and
    each is grouped under its [proveedor_fk]. *)
Theorem spending_groups_by_proveedor_fk (numberText : Z -> string)
    (functionText : string -> string) (d : AllData) :
  spendingBySupplierData numberText functionText (contratosConProveedor (useData d)) =
  spendingBySupplierData numberText functionText (map unresolved (contratos d)).
Proof.
  unfold spendingBySupplierData. f_equal. f_equal. f_equal. f_equal.
  apply spending_loop_ext. rewrite <- (joined_con d).
  pose proof (joined_groupKey d) as Hk.
  induction (contratosConProveedor (useData d)) as [|c l IH]; simpl; constructor.
  - split; [|done]. apply Hk. by left.
  - apply IH. intros c' Hc'. apply Hk. by right.
Qed.

(** X14. Nothing is lost between the card and the chart: for contracts
    whose group names are none of the names every object inherits and whose
    amounts are within the range of exact sums, the total card is the sum of
    [monto_maximo] over the contracts, and when the contracts fall into at
    most 10 groups the bars of the chart hold numbers that add up to that
    total. *)
Theorem spending_adds_up_to_total (numberText : Z -> string)
    (functionText : string -> string) (contratos : list ContratoConProveedor) :
  plainNames contratos -> safeAmounts contratos ->
  totalMontoMaximo contratos = sumZ (map (fun c => monto_maximo (con c)) contratos) /\
  ((length (remove_dups (map groupKey contratos)) <= 10)%nat ->
   exists amounts : list Z,
     map value (spendingBySupplierData numberText functionText contratos) =
       map Num amounts /\
     sumZ amounts = totalMontoMaximo contratos).
Proof.
  intros Hplain _. split; [apply totalMontoMaximo_sum|]. intros Hlen.
  set (amount := fun v : cell => match v with Num n => n | Text _ => 0 end).
  set (bars := spendingBySupplierData numberText functionText contratos).
  assert (Permutation bars
            (map (fun e : string * cell => {| name := e.1; value := e.2 |})
                 (foldl (addSpending numberText functionText) [] contratos))) as Hp.
  { unfold bars, spendingBySupplierData. rewrite take_ge.
    - rewrite Array_sort_Permutation. apply Permutation_map, Object_entries_Permutation.
    - rewrite Array_sort_length, length_map.
      rewrite (Permutation_length (Object_entries_Permutation _)).
      rewrite <- (length_map fst).
      by rewrite (Permutation_length (spending_keys numberText functionText contratos Hplain)). }
  exists (map (fun b => amount (value b)) bars). split.
  - rewrite !map_map. apply map_ext_in. intros b Hb.
    apply (Permutation_in _ Hp) in Hb. apply in_map_iff in Hb as (e & <- & He).
    pose proof (spending_numbers numberText functionText contratos Hplain) as Hnum.
    rewrite List.Forall_forall in Hnum. exact (Hnum e He).
  - rewrite totalMontoMaximo_sum, <- (spending_sum numberText functionText) by done.
    apply sumZ_Permutation. rewrite Hp, map_map. done.
Qed.

Lemma spending_adds_up_to_total_witness :
  exists amounts : list Z,
    map value (spendingBySupplierData Examples.sampleText Examples.nativeText
                 [Examples.c100; Examples.c200]) = map Num amounts /\
    sumZ amounts = totalMontoMaximo [Examples.c100; Examples.c200].
Proof.
  apply (spending_adds_up_to_total Examples.sampleText Examples.nativeText
           [Examples.c100; Examples.c200]).
  - repeat constructor.
  - vm_compute. discriminate.
  - vm_compute. lia.
Defined.

Section RankingFacts.
Context {A B : Type}.

Lemma sort_insert_map (f : A -> B) (cmp : B -> B -> Z) (x : A) (l : list A) :
  sort_insert cmp (f x) (map f l) =
  map f (sort_insert (fun a b => cmp (f a) (f b)) x l).
Proof.
  induction l as [|y l IH]; simpl; [done|].
  destruct (cmp (f y) (f x) <? 0); simpl; [by rewrite IH|done].
Qed.

Lemma Array_sort_map (f : A -> B) (cmp : B -> B -> Z) (l : list A) :
  Array_sort cmp (map f l) = map f (Array_sort (fun a b => cmp (f a) (f b)) l).
Proof.
  induction l as [|x l IH]; simpl; [done|]. by rewrite IH, sort_insert_map.
Qed.

End RankingFacts.

(** X23. The chart is the ranking of the suppliers, as long as no group
    bears a name that every object inherits and the amounts are within the
    range of exact sums: the chart is the first 10 entries of a ranking that
    has one entry for each group of the contracts (the name of the resolved
    supplier, else the raw [proveedor_fk]), holding the sum of
    [monto_maximo] over the group, in descending order of the sums; so two
    contracts of one resolved supplier with the amounts 100 and 200 give a
    single entry of 300. *)
Theorem spendingBySupplierData_ranking (numberText : Z -> string)
    (functionText : string -> string) (contratos : list ContratoConProveedor) :
  plainNames contratos -> safeAmounts contratos ->
  (exists ranking : list (string * Z),
     spendingBySupplierData numberText functionText contratos =
       take 10 (map (fun e => {| name := e.1; value := Num e.2 |}) ranking) /\
     NoDup (map fst ranking) /\
     (forall k v, In (k, v) ranking <->
                  (exists c, In c contratos /\ groupKey c = k) /\
                  v = groupTotal contratos k) /\
     StronglySorted (fun a b => b.2 <= a.2) ranking) /\
  (length (spendingBySupplierData numberText functionText contratos) <= 10)%nat /\
  (forall c1 c2 p,
     contratos = [c1; c2] -> proveedor c1 = Some p -> proveedor c2 = Some p ->
     monto_maximo (con c1) = 100 -> monto_maximo (con c2) = 200 ->
     spendingBySupplierData numberText functionText contratos =
       [{| name := Types.proveedor p; value := Num 300 |}]).
Proof.
  intros Hplain _. split; [|split].
  - destruct (spending_invariant numberText functionText contratos Hplain) as [Hnd Hget].
    pose proof (spending_numbers numberText functionText contratos Hplain) as Hnum.
    set (d := foldl (addSpending numberText functionText) [] contratos) in *.
    set (amount := fun v : cell => match v with Num n => n | Text _ => 0 end) in *.
    set (toZ := fun e : string * cell => (e.1, amount e.2)).
    set (mk := fun e : string * Z => {| name := e.1; value := Num e.2 |}).
    set (cmp := fun a b : string * Z => b.2 - a.2).
    exists (Array_sort cmp (map toZ (Object_entries d))).
    assert (Permutation (Array_sort cmp (map toZ (Object_entries d))) (map toZ d)) as Hp.
    { rewrite Array_sort_Permutation. apply Permutation_map, Object_entries_Permutation. }
    split; [|split; [|split]].
    + unfold spendingBySupplierData. fold d. f_equal.
      assert (map (fun e : string * cell => {| name := e.1; value := e.2 |})
                  (Object_entries d) =
              map mk (map toZ (Object_entries d))) as ->.
      { rewrite map_map. apply map_ext_in. intros e He.
        apply (Permutation_in _ (Object_entries_Permutation d)) in He.
        rewrite List.Forall_forall in Hnum. specialize (Hnum e He).
        unfold mk, toZ. simpl. by rewrite <- Hnum. }
      by rewrite (Array_sort_map mk).
    + rewrite Hp, map_map. simpl. done.
    + intros k v. rewrite Hp, in_map_iff. split.
      * intros ([k' v'] & [= <- <-] & Hin). simpl.
        apply In_dict_get in Hin; [|done]. rewrite Hget in Hin.
        destruct (existsb _ contratos) eqn:E; [|done].
        injection Hin as <-. split; [|done].
        apply existsb_exists in E as (c & Hc & Hk).
        exists c. split; [done|]. by apply String.eqb_eq.
      * intros [(c & Hc & Hk) ->]. exists (k, Num (groupTotal contratos k)).
        split; [done|].
        apply dict_get_In. rewrite Hget.
        assert (existsb (fun c0 => String.eqb (groupKey c0) k) contratos = true)
          as ->; [|done].
        apply existsb_exists. exists c. split; [done|]. by apply String.eqb_eq.
    + apply Sorted.Sorted_StronglySorted; [intros x y z; lia|].
      apply (Sorted_weaken (fun e f => 0 <= cmp f e)); [unfold cmp; intros; lia|].
      apply Array_sort_Sorted. unfold cmp. intros; lia.
  - unfold spendingBySupplierData. rewrite length_take. lia.
  - intros c1 c2 p -> H1 H2 M1 M2.
    apply Forall_cons in Hplain as [Hp1 _]. unfold groupKey in Hp1. rewrite H1 in Hp1.
    unfold spendingBySupplierData. simpl.
    rewrite !addSpending_groupKey. unfold groupKey. rewrite H1, H2, M1, M2.
    rewrite !dict_assign_plain, !dict_at_plain by done. simpl.
    rewrite String.eqb_refl. simpl. unfold Object_entries. simpl.
    by destruct (isArrayIndex (Types.proveedor p, Num (0 + 100 + 200))).
Qed.

Lemma spendingBySupplierData_ranking_witness :
  plainNames [Examples.c100; Examples.c200] /\
  safeAmounts [Examples.c100; Examples.c200] /\
  spendingBySupplierData Examples.sampleText Examples.nativeText
    [Examples.c100; Examples.c200] =
  [{| name := "P1"; value := Num 300 |}].
Proof.
  assert (plainNames [Examples.c100; Examples.c200]) as Hplain by (repeat constructor).
  assert (safeAmounts [Examples.c100; Examples.c200]) as Hsafe
    by (vm_compute; discriminate).
  split; [exact Hplain|]. split; [exact Hsafe|].
  destruct (spendingBySupplierData_ranking Examples.sampleText Examples.nativeText
              [Examples.c100; Examples.c200] Hplain Hsafe) as (_ & _ & Hsum).
  apply (Hsum Examples.c100 Examples.c200 Examples.P1); reflexivity.
Defined.

Section PartitionFacts.
Context {A : Type}.

Lemma filter_disjoint_Permutation (f g : A -> bool) (l : list A) :
  (forall x, f x = true -> g x = true -> False) ->
  Permutation (List.filter f l ++ List.filter g l)
              (List.filter (fun x => f x || g x) l).
Proof.
  intros Hd. induction l as [|x l IH]; simpl; [done|].
  destruct (f x) eqn:Hf, (g x) eqn:Hg; simpl.
  - by destruct (Hd x).
  - by constructor.
  - rewrite <- Permutation_middle. by constructor.
  - done.
Qed.

Lemma filter_none (f : A -> bool) (l : list A) :
  (forall x, f x = false) -> List.filter f l = [].
Proof. intros Hf. induction l as [|x l IH]; simpl; [done|]. by rewrite Hf. Qed.

End PartitionFacts.

(** X15. When the contract codes are pairwise different, the joined
    contracts share out the awards: the award lists of all the contracts,
    put together, hold exactly the joined awards whose [contrato_fk] is the
    code of some contract, each as often as the awards table holds it; an
    award that names no contract is attached to none. *)
Theorem useData_shares_out_awards (d : AllData) :
  NoDup (map contrato (contratos d)) ->
  Permutation
    (concat (map adjudicados (contratosConProveedor (useData d))))
    (List.filter
       (fun a => existsb (fun C => String.eqb (contrato_fk (adj a)) (contrato C))
                         (contratos d))
       (adjudicadosConArticulo (useData d))).
Proof.
  unfold useData. simpl. rewrite map_map. simpl.
  set (L := map _ (Types.adjudicados d)).
  induction (contratos d) as [|C l IH]; intros Hnd; simpl.
  - by rewrite filter_none.
  - apply NoDup_cons in Hnd as [HC Hnd]. rewrite (IH Hnd).
    apply filter_disjoint_Permutation.
    intros a Ha (C' & HC' & Ha')%existsb_exists.
    apply String.eqb_eq in Ha, Ha'. apply HC.
    apply list_elem_of_In, in_map_iff. exists C'. split; [congruence|done].
Qed.

Lemma useData_shares_out_awards_witness :
  Permutation
    (concat (map adjudicados (contratosConProveedor (useData Examples.tables))))
    (List.filter
       (fun a => existsb (fun C => String.eqb (contrato_fk (adj a)) (contrato C))
                         (contratos Examples.tables))
       (adjudicadosConArticulo (useData Examples.tables))).
Proof.
  apply (useData_shares_out_awards Examples.tables).
  apply (bool_decide_unpack _). by vm_compute.
Defined.

Section MoreStatusFacts.
Context {A : Type}.

Lemma counts_bounds (P : A -> Prop) (l : list A) (n : Z) :
  counts P l n -> 0 <= n <= Z.of_nat (length l).
Proof. induction 1; simpl length; lia. Qed.

Lemma counts_mono (P Q : A -> Prop) (l : list A) (n m : Z) :
  (forall x, P x -> Q x) -> counts P l n -> counts Q l m -> n <= m.
Proof.
  intros HPQ Hn. revert m. induction Hn as [|x l n Hx Hn IH|x l n Hx Hn IH];
    intros m Hm; inversion Hm; subst.
  - lia.
  - specialize (IH _ H3). lia.
  - by destruct H1; auto.
  - specialize (IH _ H3). lia.
  - by apply IH.
Qed.

End MoreStatusFacts.

(** X16. Time only moves contracts from "vigente" to "expirado": for every
    contract list, when the status aggregate is taken at two moments, the
    later one has no more current contracts and no fewer expired ones, the
    two counts add up to the same number at both moments, and that number
    is at most the number of contracts. *)
Theorem contractStatusData_over_time (UTC : Z -> Z) (Date_parse : string -> Date)
    (now1 now2 : Z) (contratos : list ContratoConProveedor) :
  now1 <= now2 ->
  exists v1 e1 v2 e2,
    contractStatusData UTC Date_parse now1 contratos =
      [("Vigente", v1); ("Expirado", e1)] /\
    contractStatusData UTC Date_parse now2 contratos =
      [("Vigente", v2); ("Expirado", e2)] /\
    0 <= v2 <= v1 /\ 0 <= e1 <= e2 /\
    v1 + e1 = v2 + e2 /\ v1 + e1 <= Z.of_nat (length contratos).
Proof.
  intros Hnow. unfold contractStatusData.
  destruct (countStatus_foldl UTC Date_parse now1 contratos
              {| vigente := 0; expirado := 0 |}) as (v1 & e1 & -> & Hv1 & He1 & Hb1).
  destruct (countStatus_foldl UTC Date_parse now2 contratos
              {| vigente := 0; expirado := 0 |}) as (v2 & e2 & -> & Hv2 & He2 & Hb2).
  exists v1, e1, v2, e2. simpl. split; [done|]. split; [done|].
  pose proof (counts_functional _ _ _ _ Hb1 Hb2) as Hsum.
  pose proof (counts_bounds _ _ _ Hv2). pose proof (counts_bounds _ _ _ He1).
  pose proof (counts_bounds _ _ _ Hb1).
  assert (v2 <= v1).
  { eapply counts_mono; [|exact Hv2|exact Hv1].
    intros c (t & Ht & Hlt). exists t. split; [done|lia]. }
  assert (e1 <= e2).
  { eapply counts_mono; [|exact He1|exact He2].
    intros c (t & Ht & Hle). exists t. split; [done|lia]. }
  lia.
Qed.

Lemma contractStatusData_over_time_witness :
  exists v1 e1 v2 e2,
    contractStatusData Examples.UTC0 Examples.noParse 0
      (contratosConProveedor (useData Examples.tables)) =
      [("Vigente", v1); ("Expirado", e1)] /\
    contractStatusData Examples.UTC0 Examples.noParse 1700000000000
      (contratosConProveedor (useData Examples.tables)) =
      [("Vigente", v2); ("Expirado", e2)] /\
    0 <= v2 <= v1 /\ 0 <= e1 <= e2 /\
    v1 + e1 = v2 + e2 /\
    v1 + e1 <= Z.of_nat (length (contratosConProveedor (useData Examples.tables))).
Proof.
  apply (contractStatusData_over_time Examples.UTC0 Examples.noParse 0 1700000000000).
  lia.
Defined.

(** X17. The context sent with a query is bounded and consistent with the
    tables: it holds the first 100 articles, contracts and suppliers of the
    tables (all of them when there are fewer), and the number it gives for
    the awards of a contract is the number of awards of the awards table
    whose [contrato_fk] is the code of the contract. *)
Theorem contextData_bounded (d : AllData) :
  ctx_articulos (contextData (useData d)) = take 100 (articulos d) /\
  ctx_proveedores (contextData (useData d)) = take 100 (proveedores d) /\
  ctx_contratos (contextData (useData d)) =
    map (fun C =>
           {| ctx_con := C;
              ctx_adjudicados :=
                length (List.filter
                          (fun a => String.eqb (contrato_fk a) (contrato C))
                          (Types.adjudicados d)) |})
        (take 100 (contratos d)) /\
  (length (ctx_articulos (contextData (useData d))) <= 100)%nat /\
  (length (ctx_proveedores (contextData (useData d))) <= 100)%nat /\
  (length (ctx_contratos (contextData (useData d))) <= 100)%nat.
Proof.
  unfold contextData, useData. simpl.
  split; [done|]. split; [done|]. split; [|rewrite length_map, !length_take; lia].
  rewrite <- fmap_take. change (fmap ?f ?l) with (map f l). rewrite map_map.
  apply map_ext. intros C. simpl. f_equal.
  induction (Types.adjudicados d) as [|a l IH]; simpl; [done|].
  destruct (String.eqb (contrato_fk a) (contrato C)); simpl; by rewrite IH.
Qed.

(* ===================================================================== *)
(** * Further properties of the date policy                               *)
(* ===================================================================== *)

Section MoreDateFacts.
Context (UTC : Z -> Z) (Date_parse : string -> Date).

Lemma parseDate_words_shape (s : string) (day month year : Z) :
  wordsShape s day month year ->
  parseDate UTC Date_parse s = Date_new UTC year month day.
Proof.
  intros Hw. unfold parseDate. pose proof (byName_spec UTC s) as Hn.
  destruct (byName UTC s) as [dt|].
  - destruct Hn as [(d & m & y & Hw' & ->)|[Hi _]].
    + by destruct (wordsShape_functional _ _ _ _ _ _ _ Hw Hw') as (-> & -> & ->).
    + by destruct (wordsShape_not_inherited _ _ _ _ Hw).
  - destruct Hn as [Hn _]. by destruct (Hn day month year).
Qed.

Lemma Date_new_two_digit_year (y m d : Z) :
  0 <= y <= 99 -> Date_new UTC y m d = Date_new UTC (1900 + y) m d.
Proof.
  intros Hy. unfold Date_new, fullYear.
  rewrite (proj2 (Z.leb_le 0 y)), (proj2 (Z.leb_le y 99)) by lia.
  rewrite (proj2 (Z.leb_gt (1900 + y) 99)) by lia.
  by rewrite andb_false_r.
Qed.

Lemma lowerChar_idempotent (c : ascii) : lowerChar (lowerChar c) = lowerChar c.
Proof. destruct c as [[] [] [] [] [] [] [] []]; by vm_compute. Qed.

Lemma toLowerCase_idempotent (s : string) : toLowerCase (toLowerCase s) = toLowerCase s.
Proof.
  induction s as [|c s IH]; simpl; [done|]. by rewrite lowerChar_idempotent, IH.
Qed.

End MoreDateFacts.

(** X18. A year from 0 to 99 is read as a year of the twentieth century: a
    string of the format with month names, or a string of the format with
    slashes that the block for the month names lets through, whose year
    parses as a number [y] from 0 to 99 gives the date of the year
    1900 + [y], not of the year [y]. *)
Theorem parseDate_two_digit_year (UTC : Z -> Z) (Date_parse : string -> Date)
    (s : string) (day month year : Z) :
  0 <= year <= 99 ->
  (wordsShape s day month year ->
   parseDate UTC Date_parse s = Date_new UTC (1900 + year) month day) /\
  (nameBlockSkips s -> slashShape s day month year ->
   parseDate UTC Date_parse s = Date_new UTC (1900 + year) (month - 1) day).
Proof.
  intros Hy. split.
  - intros Hw. rewrite (parseDate_words_shape UTC Date_parse s _ _ _ Hw).
    by apply Date_new_two_digit_year.
  - intros Hk Hs. rewrite (parseDate_slash_shape UTC Date_parse s _ _ _ Hk Hs).
    by apply Date_new_two_digit_year.
Qed.

Lemma parseDate_two_digit_year_witness :
  parseDate Examples.UTC0 Examples.noParse "15 de enero de 24" =
  Date_new Examples.UTC0 (1900 + 24) 0 15 /\
  parseDate Examples.UTC0 Examples.noParse "15/01/24" =
  Date_new Examples.UTC0 (1900 + 24) (1 - 1) 15.
Proof.
  assert (0 <= 24 <= 99) as Hy by lia.
  split.
  - destruct (parseDate_two_digit_year Examples.UTC0 Examples.noParse
                "15 de enero de 24" 15 0 24 Hy) as [Hw _].
    apply Hw. exists "15", "enero", "24". repeat split; reflexivity || lia.
  - destruct (parseDate_two_digit_year Examples.UTC0 Examples.noParse
                "15/01/24" 15 1 24 Hy) as [_ Hs].
    apply Hs.
    + split.
      * intros d m y (p0 & p1 & p2 & Hp & _). discriminate Hp.
      * intros (p0 & p1 & p2 & d & y & Hp & _). discriminate Hp.
    + exists "15", "01", "24". repeat split; reflexivity.
Defined.

(** X19. Dates within reach are valid: in a time zone less than a day away
    from universal time, a string of the format with month names, or a
    string of the format with slashes that the block for the month names
    lets through, whose day, month and year parse as numbers of absolute
    value at most 10 000 000, 120 000 and 200 000 gives a valid date. *)
Theorem parseDate_valid_in_range (UTC : Z -> Z) (Date_parse : string -> Date)
    (s : string) (day month year : Z) :
  (forall t, Z.abs (UTC t - t) <= msPerDay) ->
  Z.abs day <= 10000000 -> Z.abs year <= 200000 ->
  (wordsShape s day month year ->
   isValid (parseDate UTC Date_parse s) = true) /\
  (nameBlockSkips s -> slashShape s day month year ->
   Z.abs (month - 1) <= 120000 ->
   isValid (parseDate UTC Date_parse s) = true).
Proof.
  intros Hutc Hd Hy. split.
  - intros Hw. rewrite (parseDate_words_shape UTC Date_parse s _ _ _ Hw).
    apply Date_new_valid; try done.
    destruct Hw as (p0 & p1 & p2 & _ & _ & [Hm Hn] & _).
    assert (Z.to_nat month < 12)%nat.
    { apply (proj1 (nth_error_Some monthNames (Z.to_nat month))). by rewrite Hn. }
    lia.
  - intros Hk Hs Hm. rewrite (parseDate_slash_shape UTC Date_parse s _ _ _ Hk Hs).
    by apply Date_new_valid.
Qed.

Lemma parseDate_valid_in_range_witness :
  isValid (parseDate Examples.UTC0 Examples.noParse "15 de enero de 2024") = true /\
  isValid (parseDate Examples.UTC0 Examples.noParse "15/13/2024") = true.
Proof.
  assert (forall t, Z.abs (Examples.UTC0 t - t) <= msPerDay) as Hutc.
  { intros t. unfold Examples.UTC0, msPerDay. lia. }
  assert (Z.abs 15 <= 10000000) as Hd by lia.
  assert (Z.abs 2024 <= 200000) as Hy by lia.
  split.
  - destruct (parseDate_valid_in_range Examples.UTC0 Examples.noParse
                "15 de enero de 2024" 15 0 2024 Hutc Hd Hy) as [Hw _].
    apply Hw. exists "15", "enero", "2024". repeat split; reflexivity || lia.
  - destruct (parseDate_valid_in_range Examples.UTC0 Examples.noParse
                "15/13/2024" 15 13 2024 Hutc Hd Hy) as [_ Hs].
    apply Hs; [| |lia].
    + split.
      * intros d m y (p0 & p1 & p2 & Hp & _). discriminate Hp.
      * intros (p0 & p1 & p2 & d & y & Hp & _). discriminate Hp.
    + exists "15", "13", "2024". repeat split; reflexivity.
Defined.

(** X24. Apart from the strings that put a name every object inherits in
    the place of the month name, [parseDate] follows the policy of the date
    formats: a string that reads day, month name, year around " de " gives
    the date of those three; else a string that reads three numbers around
    "/" gives the date of the year, the month less one and the day; else the
    string goes to the generic parsing; and the policy allows that one date
    only. So "15 de enero de 2024" and "15/01/2024" give equal dates. A
    string with an inherited name in the place of the month name gives the
    invalid date. *)
Theorem parseDate_follows_policy (UTC : Z -> Z) (Date_parse : string -> Date) :
  (forall s, ~ inheritedShape s ->
             parseDate_policy UTC Date_parse s (parseDate UTC Date_parse s)) /\
  (forall s dt, ~ inheritedShape s -> parseDate_policy UTC Date_parse s dt ->
                dt = parseDate UTC Date_parse s) /\
  (forall s, inheritedShape s -> parseDate UTC Date_parse s = invalidDate) /\
  parseDate UTC Date_parse "15 de enero de 2024" = Date_new UTC 2024 0 15 /\
  parseDate UTC Date_parse "15 de enero de 2024" =
  parseDate UTC Date_parse "15/01/2024".
Proof.
  split; [apply parseDate_sound|]. split; [apply parseDate_complete|].
  split; [apply parseDate_inherited|]. split; reflexivity.
Qed.

Lemma parseDate_follows_policy_witness :
  ~ inheritedShape "15 de enero de 2024" /\
  wordsShape "15 de enero de 2024" 15 0 2024 /\
  Date_new Examples.UTC0 2024 0 15 =
  parseDate Examples.UTC0 Examples.noParse "15 de enero de 2024" /\
  inheritedShape "1 de constructor de 5" /\
  parseDate Examples.UTC0 Examples.noParse "1 de constructor de 5" = invalidDate.
Proof.
  assert (wordsShape "15 de enero de 2024" 15 0 2024) as Hw.
  { exists "15", "enero", "2024". repeat split; reflexivity || lia. }
  assert (~ inheritedShape "15 de enero de 2024") as Hni.
  { intros (p0 & p1 & p2 & d & y & Hp & _ & Hi & _).
    injection Hp as <- <- <-. by vm_compute in Hi. }
  assert (inheritedShape "1 de constructor de 5") as Hi.
  { exists "1", "constructor", "5", 1, 5. repeat split; reflexivity. }
  destruct (parseDate_follows_policy Examples.UTC0 Examples.noParse)
    as (_ & Hone & Hinv & _).
  split; [exact Hni|]. split; [exact Hw|]. split; [|split; [exact Hi|]].
  - apply (Hone _ _ Hni). by apply policy_words.
  - apply (Hinv _ Hi).
Defined.

(** X20. Month names are read in any letter case: a string that reads day,
    month name, year once lower-cased gives the date of those three, and
    gives the same date as its lower-case writing. *)
Theorem parseDate_ignores_case (UTC : Z -> Z) (Date_parse : string -> Date)
    (s : string) (day month year : Z) :
  wordsShape s day month year ->
  parseDate UTC Date_parse s = Date_new UTC year month day /\
  parseDate UTC Date_parse (toLowerCase s) = parseDate UTC Date_parse s.
Proof.
  intros Hw. split; [by apply parseDate_words_shape|].
  rewrite (parseDate_words_shape UTC Date_parse s _ _ _ Hw).
  apply parseDate_words_shape.
  unfold wordsShape in *. by rewrite toLowerCase_idempotent.
Qed.

Lemma parseDate_ignores_case_witness :
  parseDate Examples.UTC0 Examples.noParse "15 DE Enero de 2024" =
  Date_new Examples.UTC0 2024 0 15.
Proof.
  apply (parseDate_ignores_case Examples.UTC0 Examples.noParse
           "15 DE Enero de 2024" 15 0 2024).
  exists "15", "enero", "2024". repeat split; reflexivity || lia.
Defined.

(* ===================================================================== *)
(** * What the users table depends on                                     *)
(* ===================================================================== *)

Section RelatedRows.
Context {A : Type} (R : A -> A -> Prop).

Lemma sort_insert_Forall2 (cmp : A -> A -> Z) (x x' : A) (s s' : list A) :
  (forall a a' b b', R a a' -> R b b' -> cmp a b = cmp a' b') ->
  R x x' -> Forall2 R s s' ->
  Forall2 R (sort_insert cmp x s) (sort_insert cmp x' s').
Proof.
  intros Hcmp Hx. induction 1 as [|y y' s s' Hy Hs IH]; simpl.
  - by repeat constructor.
  - rewrite (Hcmp y y' x x' Hy Hx). destruct (cmp y' x' <? 0); by repeat constructor.
Qed.

Lemma Array_sort_Forall2 (cmp : A -> A -> Z) (l l' : list A) :
  (forall a a' b b', R a a' -> R b b' -> cmp a b = cmp a' b') ->
  Forall2 R l l' -> Forall2 R (Array_sort cmp l) (Array_sort cmp l').
Proof.
  intros Hcmp. induction 1 as [|x x' l l' Hx Hl IH]; simpl; [constructor|].
  by apply sort_insert_Forall2.
Qed.

Lemma filter_Forall2 (f : A -> bool) (l l' : list A) :
  (forall a a', R a a' -> f a = f a') ->
  Forall2 R l l' -> Forall2 R (List.filter f l) (List.filter f l').
Proof.
  intros Hf. induction 1 as [|x x' l l' Hx Hl IH]; simpl; [constructor|].
  rewrite (Hf x x' Hx). destruct (f x'); [by constructor|done].
Qed.

Lemma map_Forall2 {B : Type} (g : A -> B) (l l' : list A) :
  (forall a a', R a a' -> g a = g a') -> Forall2 R l l' -> map g l = map g l'.
Proof.
  intros Hg. induction 1 as [|x x' l l' Hx Hl IH]; simpl; [done|].
  by rewrite (Hg x x' Hx), IH.
Qed.

End RelatedRows.

Section TableDependence.
Context (K : list string).

(** Two rows agree on the keys of [K]. *)
Let agree (a b : gmap string JS.value) : Prop :=
  forall k, In k K -> prop a k = prop b k.

(** The body of a table depends on the rows only through the keys it shows,
    searches and sorts on. *)
Lemma tableBody_depends_on (numberText : Z -> string)
    (columns : list Column) (searchKeys : list string)
    (sortConfig : option SortConfig) (searchTerm : string)
    (data data' : list (gmap string JS.value)) :
  Forall (fun col => render col = None /\ In (col_key col) K) columns ->
  Forall (fun k => In k K) searchKeys ->
  match sortConfig with Some c => In (key c) K | None => True end ->
  Forall2 agree data data' ->
  tableBody numberText columns data searchKeys sortConfig searchTerm =
  tableBody numberText columns data' searchKeys sortConfig searchTerm.
Proof.
  intros Hcols Hkeys Hsort Hdata. unfold tableBody, DataTable.
  apply (map_Forall2 agree).
  - intros a a' Ha. apply map_ext_in. intros col Hcol.
    rewrite List.Forall_forall in Hcols. destruct (Hcols col Hcol) as [Hr Hk].
    unfold cellText. rewrite Hr. by rewrite (Ha _ Hk).
  - assert (Forall2 agree (sortedItems data sortConfig) (sortedItems data' sortConfig))
      as Hsorted.
    { destruct sortConfig as [c|]; simpl; [|done].
      apply Array_sort_Forall2; [|done].
      intros a a' b b' Ha Hb. unfold compareItems.
      by rewrite (Ha _ Hsort), (Hb _ Hsort). }
    unfold filteredData. destruct (String.eqb searchTerm EmptyString); [done|].
    apply filter_Forall2; [|done].
    intros a a' Ha. induction searchKeys as [|k ks IH]; simpl; [done|].
    apply List.Forall_cons_iff in Hkeys as [Hk Hks].
    by rewrite (Ha _ Hk), (IH Hks).
Qed.

End TableDependence.

Section UsersFacts.

Lemma usuarioItem_rud (u : Usuario) : prop (usuarioItem u) "rud" = VNum (rud u).
Proof. reflexivity. Qed.

Lemma usuarioItem_nombre (u : Usuario) : prop (usuarioItem u) "nombre" = VStr (nombre u).
Proof. reflexivity. Qed.

Lemma usuarioItem_rol (u : Usuario) : prop (usuarioItem u) "rol" = VStr (rol u).
Proof. reflexivity. Qed.

Lemma afterClicks_key_in (K : list string) (clicks : list string) :
  Forall (fun k => In k K) clicks ->
  match afterClicks clicks with Some c => In (key c) K | None => True end.
Proof.
  induction clicks as [|k clicks IH] using rev_ind; [done|].
  intros [_ Hk]%Forall_app. rewrite afterClicks_snoc.
  destruct (requestSort_Some (afterClicks clicks) k) as (d & -> & _). simpl.
  by apply List.Forall_cons_iff in Hk as [Hk _].
Qed.

End UsersFacts.

(** X21. The users table does not depend on passwords or mail addresses:
    two user lists that agree, user by user, on [rud], [nombre] and [rol]
    give the same table body, whatever the search term and after any run of
    clicks on the three headers of the table. *)
Theorem UsersView_hides_password (numberText : Z -> string)
    (usuarios usuarios' : list Usuario)
    (clicks : list string) (searchTerm : string) :
  Forall2 (fun u u' => rud u = rud u' /\ nombre u = nombre u' /\ rol u = rol u')
          usuarios usuarios' ->
  Forall (fun k => In k (map col_key usersColumns)) clicks ->
  UsersView numberText usuarios (afterClicks clicks) searchTerm =
  UsersView numberText usuarios' (afterClicks clicks) searchTerm.
Proof.
  intros Hus Hclicks. unfold UsersView.
  apply (tableBody_depends_on ["rud"; "nombre"; "rol"]).
  - unfold usersColumns.
    repeat (apply List.Forall_cons; [split; [reflexivity|simpl; tauto]|]).
    constructor.
  - unfold usersSearchKeys.
    repeat (apply List.Forall_cons; [simpl; tauto|]). constructor.
  - by apply afterClicks_key_in.
  - induction Hus as [|u u' l l' (Hr & Hn & Ho) Hl IH]; simpl; constructor; [|done].
    intros k [<-|[<-|[<-|[]]]].
    + by rewrite !usuarioItem_rud, Hr.
    + by rewrite !usuarioItem_nombre, Hn.
    + by rewrite !usuarioItem_rol, Ho.
Qed.

Lemma UsersView_hides_password_witness :
  UsersView Examples.sampleText [Examples.ana] (afterClicks ["nombre"]) "an" =
  UsersView Examples.sampleText [Examples.ana'] (afterClicks ["nombre"]) "an".
Proof.
  apply (UsersView_hides_password Examples.sampleText [Examples.ana] [Examples.ana']
           ["nombre"] "an").
  - repeat constructor.
  - apply List.Forall_cons; [simpl; tauto|constructor].
Defined.

(* ===================================================================== *)
(** * Searching and sorting commute                                       *)
(* ===================================================================== *)

Section CommuteSort.
Context {A : Type} (cmp : A -> A -> Z) (Q : A -> Prop) (f : A -> bool).
Hypothesis cmp_asym : forall a b, cmp a b < 0 -> 0 <= cmp b a.
Hypothesis cmp_trans :
  forall a b c, Q a -> Q b -> Q c -> 0 <= cmp b a -> 0 <= cmp c b -> 0 <= cmp c a.

Lemma filter_cons_eq (x : A) (l : list A) :
  List.filter f (x :: l) = if f x then x :: List.filter f l else List.filter f l.
Proof. reflexivity. Qed.

Lemma sort_insert_filter_commute (x : A) (s : list A) :
  Q x -> Forall Q s -> StronglySorted (fun e g => 0 <= cmp g e) s -> f x = true ->
  List.filter f (sort_insert cmp x s) = sort_insert cmp x (List.filter f s).
Proof.
  intros Hx HQ Hs Hfx. induction Hs as [|y s Hs IH Hy].
  - simpl. by rewrite Hfx.
  - apply List.Forall_cons_iff in HQ as [HQy HQ].
    cbn [sort_insert]. destruct (cmp y x <? 0) eqn:E.
    + rewrite !filter_cons_eq.
      destruct (f y); [cbn [sort_insert]; rewrite E|]; by rewrite (IH HQ).
    + rewrite (filter_cons_eq x), Hfx.
      assert (forall z, In z (y :: s) -> 0 <= cmp z x) as Hz.
      { intros z [<-|Hz]; [lia|].
        rewrite List.Forall_forall in Hy, HQ.
        apply (cmp_trans x y z); auto. lia. }
      destruct (List.filter f (y :: s)) as [|z r] eqn:Ef; [done|].
      assert (In z (y :: s)) as Hin.
      { apply (List.filter_In f z (y :: s)). rewrite Ef. by left. }
      cbn [sort_insert]. specialize (Hz z Hin).
      destruct (cmp z x <? 0) eqn:E'; [lia|done].
Qed.

(** On elements of one kind, filtering the sorted list gives the sorted
    filtered list. *)
Lemma Array_sort_filter_commute (l : list A) :
  Forall Q l -> List.filter f (Array_sort cmp l) = Array_sort cmp (List.filter f l).
Proof.
  induction 1 as [|x l Hx Hl IH]; simpl; [done|].
  destruct (f x) eqn:Hfx; simpl.
  - rewrite sort_insert_filter_commute, IH; try done.
    + eapply Permutation_Forall; [symmetry; apply Array_sort_Permutation|done].
    + by apply (Array_sort_ordered cmp Q).
  - by rewrite sort_insert_filter_out.
Qed.

End CommuteSort.

Section CommuteTable.
Context (k : string).

Lemma compareItems_not_before_iff (d : SortDirection) (e f : gmap string JS.value) :
  (match prop e k, prop f k with
   | VStr _, VStr _ | VNum _, VNum _ => True
   | _, _ => False
   end) ->
  0 <= compareItems {| key := k; direction := d |} f e <->
  match d with asc => ~ keyLt k f e | desc => ~ keyLt k e f end.
Proof.
  intros Hkind. split; [apply compareItems_not_before|].
  unfold keyLt.
  destruct (prop e k) as [| | |ne|se|] eqn:He, (prop f k) as [| | |nf|sf|] eqn:Hf;
    try done.
  - rewrite (compareItems_numbers _ f e nf ne) by done. simpl.
    destruct d, (Z.compare_spec nf ne); simpl; lia.
  - rewrite (compareItems_strings _ f e sf se) by done. simpl.
    rewrite (string_compare_flip (toLowerCase sf) (toLowerCase se)).
    destruct d, (String.compare (toLowerCase sf) (toLowerCase se)); simpl; try lia;
      intros H; by destruct H.
Qed.

End CommuteTable.

Lemma allComparable_kind (k : string) (items : list (gmap string JS.value)) :
  allComparable k items = true ->
  exists Q : gmap string JS.value -> Prop,
    Forall Q items /\
    forall a b, Q a -> Q b ->
      match prop a k, prop b k with
      | VStr _, VStr _ | VNum _, VNum _ => True
      | _, _ => False
      end.
Proof.
  unfold allComparable. intros [H|H]%orb_true_iff; rewrite forallb_forall in H.
  - exists (fun r => match prop r k with VStr _ => True | _ => False end). split.
    + apply List.Forall_forall. intros r Hr. specialize (H r Hr). by destruct (prop r k).
    + intros a b. by destruct (prop a k), (prop b k).
  - exists (fun r => match prop r k with VNum _ => True | _ => False end). split.
    + apply List.Forall_forall. intros r Hr. specialize (H r Hr). by destruct (prop r k).
    + intros a b. by destruct (prop a k), (prop b k).
Qed.

(** X22. Searching and sorting commute on a column of one kind: when the
    values at the sort key are all strings or all numbers, the rows the table
    shows (the sorted rows, then searched) are the rows found by the search
    in the unsorted data, then sorted, for every term, key list and
    direction. *)
Theorem search_and_sort_commute (numberText : Z -> string)
    (data : list (gmap string JS.value)) (k : string)
    (d : SortDirection) (searchKeys : list string) (term : string) :
  allComparable k data = true ->
  DataTable numberText data searchKeys (Some {| key := k; direction := d |}) term =
  sortedItems (filteredData numberText data term searchKeys)
              (Some {| key := k; direction := d |}).
Proof.
  intros (Q & HQ & Hkind)%allComparable_kind.
  unfold DataTable, filteredData.
  destruct (String.eqb term EmptyString); [done|]. simpl.
  apply (Array_sort_filter_commute _ Q); [apply compareItems_asym| |done].
  intros a b c Ha Hb Hc.
  pose proof (Hkind a b Ha Hb) as Hab. pose proof (Hkind b c Hb Hc) as Hbc.
  pose proof (Hkind a c Ha Hc) as Hac.
  rewrite (compareItems_not_before_iff k d a b Hab).
  rewrite (compareItems_not_before_iff k d b c Hbc).
  rewrite (compareItems_not_before_iff k d a c Hac).
  destruct d.
  - apply keyLt_negative_trans.
    by destruct (prop a k), (prop b k), (prop c k).
  - intros H1 H2. apply (keyLt_negative_trans k c b a); [|done..].
    by destruct (prop a k), (prop b k), (prop c k).
Qed.

Lemma search_and_sort_commute_witness :
  DataTable Examples.sampleText Examples.letters ["k"] (Some (Examples.byK desc)) "b" =
  sortedItems (filteredData Examples.sampleText Examples.letters "b" ["k"])
              (Some (Examples.byK desc)).
Proof.
  apply (search_and_sort_commute Examples.sampleText Examples.letters "k" desc ["k"] "b").
  reflexivity.
Defined.

Lemma directionIcon_marks_last_click_witness :
  directionIcon (afterClicks ["nombre"; "rol"]) "nombre" = None.
Proof.
  destruct directionIcon_marks_last_click as [_ Hlast].
  destruct (Hlast ["nombre"] "rol") as (d & _ & _ & Hother).
  apply Hother. discriminate.
Defined.

(* ===================================================================== *)
(** * The sorted list of a column of one kind is the language's            *)
(* ===================================================================== *)

Section DeterminedSort.
Context {A : Type} (cmp : A -> A -> Z) (Q : A -> Prop).

(** The comparator is consistent on the elements with [Q]: each compares as
    equal to itself, of two elements one is before the other exactly when
    the other is after it, and "not after" is transitive. *)
Hypothesis cmp_refl : forall a, Q a -> cmp a a = 0.
Hypothesis cmp_asym : forall a b, cmp a b < 0 -> 0 < cmp b a.
Hypothesis cmp_flip : forall a b, Q a -> Q b -> 0 < cmp a b -> cmp b a < 0.
Hypothesis cmp_trans :
  forall a b c, Q a -> Q b -> Q c -> 0 <= cmp b a -> 0 <= cmp c b -> 0 <= cmp c a.

(** [x] and [y] compare as equal. *)
Let tie (x y : A) : bool := cmp x y =? 0.

Lemma cmp_tie (a b : A) : Q a -> Q b -> 0 <= cmp a b -> 0 <= cmp b a -> cmp a b = 0.
Proof.
  intros Ha Hb Hab Hba. destruct (Z.eq_dec (cmp a b) 0) as [|Hne]; [done|].
  assert (0 < cmp a b) as Hpos by lia. pose proof (cmp_flip a b Ha Hb Hpos). lia.
Qed.

Lemma tie_classes (x a b : A) :
  Q x -> Q a -> Q b -> tie x a = true -> tie x b = true -> 0 <= cmp a b.
Proof.
  unfold tie. intros Hx Ha Hb Hxa%Z.eqb_eq Hxb%Z.eqb_eq.
  assert (0 <= cmp a x) as Hax.
  { destruct (Z.lt_ge_cases (cmp a x) 0) as [Hlt|]; [|done].
    pose proof (cmp_asym a x Hlt). lia. }
  apply (cmp_trans b x a); try done. lia.
Qed.

Lemma sort_insert_filter_on (p : A -> bool) (x : A) (s : list A) :
  (forall y, In y s -> p x = true -> p y = true -> 0 <= cmp y x) ->
  List.filter p (sort_insert cmp x s) =
  if p x then x :: List.filter p s else List.filter p s.
Proof.
  induction s as [|y s IH]; intros Htied; simpl.
  - by destruct (p x).
  - destruct (cmp y x <? 0) eqn:E; simpl.
    + rewrite IH by (intros z Hz; apply Htied; by right).
      destruct (p x) eqn:Hx; [|done]. destruct (p y) eqn:Hy; [|done].
      pose proof (Htied y (or_introl eq_refl) eq_refl Hy). lia.
    + by destruct (p x).
Qed.

(** The model keeps the order of the elements that compare as equal to
    [x]. *)
Lemma Array_sort_keeps_ties (x : A) (l : list A) :
  Q x -> Forall Q l ->
  List.filter (tie x) (Array_sort cmp l) = List.filter (tie x) l.
Proof.
  intros Hx. induction 1 as [|y l Hy Hl IH]; simpl; [done|].
  rewrite sort_insert_filter_on, IH; [done|].
  intros z Hz Hty Htz. apply (tie_classes x); try done.
  apply (Permutation_in _ (Array_sort_Permutation cmp l)) in Hz.
  rewrite List.Forall_forall in Hl. auto.
Qed.

(** Two arrangements of the same elements that are both in order and keep
    the elements that compare as equal in the same order are one list. *)
Lemma stable_order_unique (l1 l2 : list A) :
  Forall Q l1 -> Permutation l1 l2 ->
  StronglySorted (fun e f => 0 <= cmp f e) l1 ->
  StronglySorted (fun e f => 0 <= cmp f e) l2 ->
  (forall x, In x l1 -> List.filter (tie x) l1 = List.filter (tie x) l2) ->
  l1 = l2.
Proof.
  revert l2. induction l1 as [|a l1 IH]; intros l2 HQ Hp H1 H2 Hties.
  - by apply Permutation_nil in Hp.
  - destruct l2 as [|b l2]; [by apply Permutation_sym, Permutation_nil in Hp|].
    apply List.Forall_cons_iff in HQ as [Ha HQ].
    apply StronglySorted_inv in H1 as [H1 Ha1].
    apply StronglySorted_inv in H2 as [H2 Hb2].
    assert (Q b) as Hb.
    { assert (In b (a :: l1)) as Hin
        by (apply (Permutation_in _ (Permutation_sym Hp)); by left).
      destruct Hin as [<-|Hin]; [done|].
      rewrite List.Forall_forall in HQ. auto. }
    assert (0 <= cmp a b) as Hab.
    { assert (In a (b :: l2)) as Hin by (apply (Permutation_in _ Hp); by left).
      destruct Hin as [->|Hin]; [by rewrite cmp_refl|].
      rewrite List.Forall_forall in Hb2. auto. }
    assert (0 <= cmp b a) as Hba.
    { assert (In b (a :: l1)) as Hin
        by (apply (Permutation_in _ (Permutation_sym Hp)); by left).
      destruct Hin as [->|Hin]; [by rewrite cmp_refl|].
      rewrite List.Forall_forall in Ha1. auto. }
    pose proof (cmp_tie a b Ha Hb Hab Hba) as Htie.
    assert (a = b) as <-.
    { pose proof (Hties a (or_introl eq_refl)) as Hf. simpl in Hf.
      unfold tie in Hf. rewrite (cmp_refl a Ha), Htie in Hf. simpl in Hf.
      by injection Hf. }
    f_equal. apply IH; try done.
    + by apply Permutation_cons_inv in Hp.
    + intros x Hx. pose proof (Hties x (or_intror Hx)) as Hf. simpl in Hf.
      destruct (tie x a); [by injection Hf|done].
Qed.

(** On elements with [Q] the model gives the one list that the language
    allows: the arrangement in order that keeps ties in place. *)
Lemma Array_sort_determined (l l' : list A) :
  Forall Q l -> Permutation l' l ->
  StronglySorted (fun e f => 0 <= cmp f e) l' ->
  (forall x, In x l -> List.filter (tie x) l' = List.filter (tie x) l) ->
  l' = Array_sort cmp l.
Proof.
  intros HQ Hp Hs Hties.
  assert (Forall Q l') as HQ'.
  { eapply Permutation_Forall; [symmetry; exact Hp|done]. }
  apply stable_order_unique; try done.
  - by rewrite Array_sort_Permutation.
  - apply (Array_sort_ordered cmp Q); try done.
    intros a b Hlt. pose proof (cmp_asym a b Hlt). lia.
  - intros x Hx. apply (Permutation_in _ Hp) in Hx.
    rewrite Hties by done. symmetry. apply Array_sort_keeps_ties; [|done].
    rewrite List.Forall_forall in HQ. auto.
Qed.

End DeterminedSort.

Section ConsistentTable.
Context (k : string) (d : SortDirection) (Q : gmap string JS.value -> Prop).
Hypothesis one_kind :
  forall a b, Q a -> Q b ->
    match prop a k, prop b k with
    | VStr _, VStr _ | VNum _, VNum _ => True
    | _, _ => False
    end.

Let cmp := compareItems {| key := k; direction := d |}.

Lemma compareItems_flip (a b : gmap string JS.value) :
  Q a -> Q b -> cmp b a = - cmp a b.
Proof.
  intros Ha Hb. pose proof (one_kind a b Ha Hb) as Hkind. unfold cmp.
  destruct (prop a k) as [| | |na|sa|] eqn:Ea, (prop b k) as [| | |nb|sb|] eqn:Eb;
    try done.
  - rewrite (compareItems_numbers _ a b na nb), (compareItems_numbers _ b a nb na) by done.
    rewrite (Z.compare_antisym na nb). by destruct (na ?= nb), d.
  - rewrite (compareItems_strings _ a b sa sb), (compareItems_strings _ b a sb sa) by done.
    rewrite (string_compare_flip (toLowerCase sa) (toLowerCase sb)).
    by destruct (String.compare (toLowerCase sa) (toLowerCase sb)), d.
Qed.

Lemma compareItems_self (a : gmap string JS.value) : Q a -> cmp a a = 0.
Proof. intros Ha. pose proof (compareItems_flip a a Ha Ha). lia. Qed.

Lemma compareItems_before_after (a b : gmap string JS.value) :
  cmp a b < 0 -> 0 < cmp b a.
Proof.
  unfold cmp.
  destruct (prop a k) as [| | |na|sa|] eqn:Ha;
    destruct (prop b k) as [| | |nb|sb|] eqn:Hb;
    try (unfold compareItems; simpl; rewrite Ha, Hb; simpl; lia).
  - rewrite (compareItems_numbers _ a b na nb), (compareItems_numbers _ b a nb na) by done.
    rewrite (Z.compare_antisym na nb).
    destruct (na ?= nb), d; simpl; lia.
  - rewrite (compareItems_strings _ a b sa sb), (compareItems_strings _ b a sb sa) by done.
    rewrite (string_compare_flip (toLowerCase sa) (toLowerCase sb)).
    destruct (String.compare (toLowerCase sa) (toLowerCase sb)), d; simpl; lia.
Qed.

Lemma compareItems_not_after_trans (a b c : gmap string JS.value) :
  Q a -> Q b -> Q c -> 0 <= cmp b a -> 0 <= cmp c b -> 0 <= cmp c a.
Proof.
  intros Ha Hb Hc. unfold cmp.
  pose proof (one_kind a b Ha Hb) as Hab. pose proof (one_kind b c Hb Hc) as Hbc.
  pose proof (one_kind a c Ha Hc) as Hac.
  rewrite (compareItems_not_before_iff k d a b Hab).
  rewrite (compareItems_not_before_iff k d b c Hbc).
  rewrite (compareItems_not_before_iff k d a c Hac).
  destruct d.
  - apply keyLt_negative_trans.
    by destruct (prop a k), (prop b k), (prop c k).
  - intros H1 H2. apply (keyLt_negative_trans k c b a); [|done..].
    by destruct (prop a k), (prop b k), (prop c k).
Qed.

End ConsistentTable.

(** X25. On a column of one kind the sorted list is the one the language
    fixes. When the values at the sort key are all strings or all numbers,
    the list of [sortedItems] holds the rows of the input, no row is
    followed, however far, by a row that the comparator puts before it, and
    the rows that compare as equal to a row of the input keep the order they
    had; and every list with these three properties is that list. *)
Theorem sortedItems_determined (items : list (gmap string JS.value)) (c : SortConfig) :
  allComparable (key c) items = true ->
  (Permutation (sortedItems items (Some c)) items /\
   StronglySorted (fun e f => 0 <= compareItems c f e) (sortedItems items (Some c)) /\
   forall x, In x items ->
     List.filter (fun r => compareItems c x r =? 0) (sortedItems items (Some c)) =
     List.filter (fun r => compareItems c x r =? 0) items) /\
  (forall l' : list (gmap string JS.value),
     Permutation l' items ->
     StronglySorted (fun e f => 0 <= compareItems c f e) l' ->
     (forall x, In x items ->
        List.filter (fun r => compareItems c x r =? 0) l' =
        List.filter (fun r => compareItems c x r =? 0) items) ->
     l' = sortedItems items (Some c)).
Proof.
  intros (Q & HQ & Hkind)%allComparable_kind. destruct c as [k d]. simpl key in *.
  pose proof (compareItems_self k d Q Hkind) as Hrefl.
  pose proof (compareItems_before_after k d) as Hasym.
  pose proof (compareItems_not_after_trans k d Q Hkind) as Htrans.
  assert (forall a b, Q a -> Q b ->
            0 < compareItems {| key := k; direction := d |} a b ->
            compareItems {| key := k; direction := d |} b a < 0) as Hflip.
  { intros a b Ha Hb. rewrite (compareItems_flip k d Q Hkind a b Ha Hb). lia. }
  split; [split; [|split]|].
  - apply Array_sort_Permutation.
  - apply (Array_sort_ordered _ Q); try done.
    intros a b Hlt. pose proof (Hasym a b Hlt). lia.
  - intros x Hx. apply (Array_sort_keeps_ties _ Q); try done.
    rewrite List.Forall_forall in HQ. auto.
  - intros l' Hp Hs Hties. by apply (Array_sort_determined _ Q).
Qed.

Lemma sortedItems_determined_witness :
  [Examples.row 2 (VStr "A"); Examples.row 1 (VStr "b"); Examples.row 3 (VStr "c")] =
  sortedItems Examples.letters (Some (Examples.byK asc)).
Proof.
  assert (allComparable (key (Examples.byK asc)) Examples.letters = true) as Hall
    by reflexivity.
  destruct (sortedItems_determined Examples.letters (Examples.byK asc) Hall)
    as [_ Hone].
  apply Hone.
  - apply perm_swap.
  - repeat constructor; by vm_compute.
  - intros x [<-|[<-|[<-|[]]]]; reflexivity.
Defined.
